(** * Watson recipe bot: the graph recipe store and the orchestrator

    A shallow embedding of [souschef/graph_recipe_store.py] and proofs of the
    properties its design document states about it, followed by further
    properties of the store and by an embedding of the orchestrator,
    [souschef/souschef.py], with the properties of its methods.

    The store is a thin data-access layer over a remote property-graph
    service.  The Python of the store is embedded function by function, in a
    state-and-exception monad over the state of the graph client; the
    service itself (which is not part of the repository) is modelled as an
    in-memory property graph together with the few Gremlin steps that the
    store's traversal strings use. *)

From Stdlib Require Import ZArith Ascii String DecimalString DecimalPos DecimalZ.
From stdpp Require Import base tactics option list sorting strings gmap.

Local Open Scope string_scope.
Local Open Scope list_scope.
Local Open Scope Z_scope.

(* ===================================================================== *)
(** * Definitions *)
(* ===================================================================== *)

(** ** Python byte strings

    The repository is Python 2 code ([print] statements in the
    orchestrator), so [str] is a byte string: [lower] changes the
    letters A-Z only, and [strip] removes the six ASCII white-space
    characters (tab, line feed, vertical tab, form feed, carriage return,
    space), which is exactly stdpp's [Ascii.is_space]. *)
Module PyStr.

(** [c.lower()] on one character. *)
Definition lower_char (c : ascii) : ascii :=
  let n := N_of_ascii c in
  if ((65 <=? n) && (n <=? 90))%N then ascii_of_N (n + 32) else c.

(** [s.lower()] *)
Fixpoint lower (s : string) : string :=
  match s with
  | EmptyString => EmptyString
  | String c s' => String (lower_char c) (lower s')
  end.

(** [s.lstrip()] *)
Fixpoint lstrip (s : string) : string :=
  match s with
  | EmptyString => EmptyString
  | String c s' => if Ascii.is_space c then lstrip s' else s
  end.

(** [s.rstrip()]: a white-space character is dropped exactly when
    nothing remains to its right. *)
Fixpoint rstrip (s : string) : string :=
  match s with
  | EmptyString => EmptyString
  | String c s' =>
      match rstrip s' with
      | EmptyString => if Ascii.is_space c then EmptyString else String c EmptyString
      | r => String c r
      end
  end.

(** [s.strip()] *)
Definition strip (s : string) : string := rstrip (lstrip s).

(** Put a character in front of the first piece of a split. *)
Definition cons_head (c : ascii) (l : list string) : list string :=
  match l with
  | [] => [String c EmptyString]
  | t :: ts => String c t :: ts
  end.

(** [s.split(sep)] for a one-character separator: the result is never
    empty, [''.split(',') == ['']]. *)
Fixpoint split (sep : ascii) (s : string) : list string :=
  match s with
  | EmptyString => [EmptyString]
  | String c s' =>
      if decide (c = sep) then EmptyString :: split sep s'
      else cons_head c (split sep s')
  end.

(** [sep.join(l)] *)
Fixpoint join (sep : string) (l : list string) : string :=
  match l with
  | [] => EmptyString
  | [x] => x
  | x :: xs => x +:+ sep +:+ join sep xs
  end.

(** [l.sort()] on a list of byte strings: ascending, byte-wise
    lexicographic order. *)
Definition sort (l : list string) : list string := merge_sort String.le l.

(** [str(n)] for an integer. *)
Definition str_of_int (z : Z) : string := NilZero.string_of_int (Z.to_int z).

End PyStr.


(** ** Graph elements: [ibm_graph.Vertex] and [ibm_graph.Edge]

    Property values are dynamically typed in Python; the store writes
    strings ([name], [title], [detail]) and integers ([count]). *)
Inductive PropVal :=
  | PStr (s : string)
  | PInt (n : Z).

#[global] Instance PropVal_eq_dec : EqDecision PropVal.
Proof. solve_decision. Defined.

(** Modelled from the spec: the classes [Vertex] and [Edge] of the
    [ibm_graph] package, which is not part of the repository (section 3:
    a label, properties, and an identifier assigned by the backend on
    creation).  An element built by the store has no identifier ([id] is
    [None]); the service assigns one when it stores the element. *)
Record Vertex := mkVertex {
  v_id : option Z;
  v_label : string;
  v_properties : gmap string PropVal
}.

Record Edge := mkEdge {
  e_id : option Z;
  e_label : string;
  e_out_v : option Z;
  e_in_v : option Z;
  e_properties : gmap string PropVal
}.

#[global] Instance Vertex_eq_dec : EqDecision Vertex.
Proof. solve_decision. Defined.

#[global] Instance Edge_eq_dec : EqDecision Edge.
Proof. solve_decision. Defined.

(** [Vertex(label, properties)] *)
Definition new_Vertex (label : string) (properties : gmap string PropVal) : Vertex :=
  mkVertex None label properties.

(** [Edge(label, out_v, in_v, properties)]; the last argument is
    optional in Python. *)
Definition new_Edge (label : string) (out_v in_v : option Z)
    (properties : gmap string PropVal) : Edge :=
  mkEdge None label out_v in_v properties.

(** The objects of a path are vertices and edges. *)
Inductive Element :=
  | EV (v : Vertex)
  | EE (e : Edge).

#[global] Instance Element_eq_dec : EqDecision Element.
Proof. solve_decision. Defined.

Definition el_id (x : Element) : option Z :=
  match x with EV v => v_id v | EE e => e_id e end.

Definition el_label (x : Element) : string :=
  match x with EV v => v_label v | EE e => e_label e end.

Definition el_properties (x : Element) : gmap string PropVal :=
  match x with EV v => v_properties v | EE e => e_properties e end.

(** [element.get_property_value(name)]: [None] when the property is
    absent. *)
Definition get_property_value (x : Element) (name : string) : option PropVal :=
  el_properties x !! name.

(** [edge.set_property_value(name, value)] *)
Definition set_property_value (e : Edge) (name : string) (value : PropVal) : Edge :=
  mkEdge (e_id e) (e_label e) (e_out_v e) (e_in_v e) (<[name := value]> (e_properties e)).

(** ** The schema objects of [ibm_graph.schema] *)

(** Modelled from the spec: the schema classes of the [ibm_graph]
    package, which is not part of the repository (section 4.5), with the
    fields that [init] passes to their constructors. *)
Record PropertyKey := mkPropertyKey {
  pk_name : string;
  pk_data_type : string;
  pk_cardinality : string
}.

Record VertexIndex := mkVertexIndex {
  vi_name : string;
  vi_property_keys : list string;
  vi_composite : bool;
  vi_unique : bool
}.

(** [property_keys] may be [None] in Python: [init] tests for it. *)
Record Schema := mkSchema {
  property_keys : option (list PropertyKey);
  vertex_labels : list string;
  edge_labels : list string;
  vertex_indexes : list VertexIndex;
  edge_indexes : list VertexIndex
}.

(** ** Traversals

    The store talks to the service in Gremlin text, assembled with
    [str.format].  The text is represented by the sequence of its steps;
    the values that [format] splices in are the arguments of the steps. *)
Inductive Pred :=
  | P_eq (s : string)     (* has(k, "s") *)
  | P_neq (s : string)    (* has(k, neq("s")) *)
  | P_gt (n : Z).         (* has(k, gt(n)) *)

Inductive Step :=
  | g_V                           (* V() *)
  | g_V_id (i : option Z)         (* V(i) *)
  | hasLabel (l : string)
  | has (k : string) (p : Pred)
  | hasId (i : option Z)
  | outE
  | inE
  | inV
  | outV
  | in_ (l : string)              (* in("l") *)
  | order_by_decr (k : string)    (* order().by("k", decr) *)
  | limit (n : Z).

(** A traversal, and whether it ends in [.path()]. *)
Record Query := mkQuery {
  q_steps : list Step;
  q_path : bool
}.

(** What [run_gremlin_query] hands back for each result: an element, or
    a [Path] whose [objects] are the elements walked through. *)
Inductive Response :=
  | RElement (x : Element)
  | RPath (objects : list Element).

(** ** Exceptions and the client monad *)
Inductive Error :=
  | QueryError            (* the service rejects the request *)
  | UnsupportedLiteral    (* a spliced string would not survive Groovy quoting *)
  | NotFoundError         (* no such graph, vertex or edge *)
  | IndexError            (* Python: list index out of range *)
  | AttributeError        (* Python: the object is of the wrong kind *)
  | TypeError.            (* Python: arithmetic on a non-number *)

Inductive Result (A : Type) :=
  | Ok (a : A)
  | Raise (e : Error).

Arguments Ok {A} a.
Arguments Raise {A} e.

#[global] Instance Result_ret : MRet Result := @Ok.

#[global] Instance Result_bind : MBind Result := λ A B f r,
  match r with
  | Ok a => f a
  | Raise e => Raise e
  end.

(** Modelled from the spec: the remote graph service behind
    [ibm_graph.IBMGraphClient] (section 6: list graphs, create graph,
    select active graph, get and save schema, run a traversal, add
    vertex, add edge, update edge).  A graph keeps its vertices and edges
    in insertion order and numbers them from one counter. *)
Record GraphData := mkGraphData {
  g_schema : option Schema;
  g_vertices : list Vertex;
  g_edges : list Edge;
  g_next : Z
}.

(** The requests a client sends, in the order it sends them. *)
Inductive Call :=
  | CGetGraphs
  | CCreateGraph (graph_id : string)
  | CSetGraph (graph_id : string)
  | CGetSchema
  | CSaveSchema (s : Schema)
  | CRunGremlinQuery (q : Query)
  | CAddVertex (v : Vertex)
  | CAddEdge (e : Edge)
  | CUpdateEdge (e : Edge).

(** The client together with the service it is connected to: the graphs
    of the service, the graph the client has selected, and the log of
    the requests made so far. *)
Record Client := mkClient {
  c_graphs : gmap string GraphData;
  c_active : string;
  c_calls : list Call
}.

(** A computation that reads and writes the client and may raise. An
    exception is never caught by the store, so no state survives it. *)
Definition M (A : Type) : Type := Client → Result (A * Client).

#[global] Instance M_ret : MRet M := λ A a cl, Ok (a, cl).

#[global] Instance M_bind : MBind M := λ A B f m cl,
  match m cl with
  | Ok (a, cl') => f a cl'
  | Raise e => Raise e
  end.

Definition raise {A} (e : Error) : M A := λ _, Raise e.

Definition active_graph (cl : Client) : option GraphData :=
  c_graphs cl !! c_active cl.

(** One request against the selected graph. *)
Definition on_active {A} (c : Call) (f : GraphData → Result (A * GraphData)) : M A := λ cl,
  match active_graph cl with
  | None => Raise NotFoundError
  | Some g =>
      match f g with
      | Ok (a, g') =>
          Ok (a, mkClient (<[c_active cl := g']> (c_graphs cl)) (c_active cl) (c_calls cl ++ [c]))
      | Raise e => Raise e
      end
  end.

(** ** Evaluation of traversals *)

(** A traverser carries the path it has walked, newest element first. *)
Definition Traverser : Type := list Element.

(** Modelled from the spec: the order of the service, which is not part
    of the repository (section 4.4: ties are broken by a backend-defined
    order that is left unspecified).  [order().by(k, decr)] leaves the
    order of equal keys to the service; any procedure that returns its
    input rearranged in non-increasing key order is admitted. *)
Class GremlinOrder := {
  order_decr : list (Z * Traverser) → list (Z * Traverser);
  order_decr_perm : ∀ l, order_decr l ≡ₚ l;
  order_decr_sorted : ∀ l, Sorted (λ a b, b.1 ≤ a.1) (order_decr l)
}.

(** Modelled from the spec: the reading of the traversal text by the
    service, which is not part of the repository (section 7: a malformed
    traversal is an error).  A string spliced between double quotes
    reaches the service as itself only if it has none of the characters
    that Groovy treats specially there: the quote, the backslash, the
    dollar sign, and the line breaks.  The model refuses the others. *)
Definition groovy_special (c : ascii) : bool :=
  bool_decide (c ∈ [ascii_of_nat 34; ascii_of_nat 92; ascii_of_nat 36;
                    ascii_of_nat 10; ascii_of_nat 13]).

Fixpoint groovy_safe (s : string) : bool :=
  match s with
  | EmptyString => true
  | String c s' => negb (groovy_special c) && groovy_safe s'
  end.

Definition test_pred (p : Pred) (v : option PropVal) : bool :=
  match p, v with
  | P_eq s, Some w => bool_decide (w = PStr s)
  | P_neq s, Some w => bool_decide (w ≠ PStr s)
  | P_gt n, Some (PInt m) => bool_decide (n < m)
  | _, _ => false
  end.

Definition pred_safe (p : Pred) : bool :=
  match p with
  | P_eq s | P_neq s => groovy_safe s
  | P_gt _ => true
  end.

Definition current (t : Traverser) : option Element := head t.

(** A test on the element a traverser sits on. *)
Definition on_current (f : Element → bool) (t : Traverser) : bool :=
  match current t with
  | Some x => f x
  | None => false
  end.

Definition vertices_with_id (g : GraphData) (i : option Z) : list Vertex :=
  match i with
  | Some _ => filter (λ v, v_id v = i) (g_vertices g)
  | None => []
  end.

Definition out_edges (g : GraphData) (i : option Z) : list Edge :=
  match i with
  | Some _ => filter (λ e, e_out_v e = i) (g_edges g)
  | None => []
  end.

Definition in_edges (g : GraphData) (i : option Z) : list Edge :=
  match i with
  | Some _ => filter (λ e, e_in_v e = i) (g_edges g)
  | None => []
  end.

(** The integer under key [k] of the element a traverser sits on. *)
Definition sort_key (k : string) (t : Traverser) : Result Z :=
  match current t with
  | Some x =>
      match get_property_value x k with
      | Some (PInt n) => Ok n
      | _ => Raise QueryError
      end
  | None => Raise QueryError
  end.

Fixpoint sort_keys (k : string) (ts : list Traverser) : Result (list (Z * Traverser)) :=
  match ts with
  | [] => Ok []
  | t :: ts' =>
      n ← sort_key k t;
      r ← sort_keys k ts';
      Ok ((n, t) :: r)
  end.

Section Gremlin.
Context `{!GremlinOrder}.

(** Modelled from the spec: the traversal language of the service, which
    is not part of the repository (section 6: a declarative traversal
    query returning a sequence of vertices, edges, or paths), for the
    steps that the store's traversal strings use, read as Gremlin reads
    them.  One step is applied to all traversers at once.  A step that
    meets an element of the wrong kind (an edge step on a vertex, say)
    lets that traverser die; none of the store's traversals does so.
    [has] compares a property with a string literal by value and kind,
    so an integer never equals a string; [gt] holds of integers only;
    [limit(-1)] keeps everything and a lower limit is refused. *)
Definition eval_step (g : GraphData) (s : Step) (ts : list Traverser)
    : Result (list Traverser) :=
  match s with
  | g_V => Ok (t ← ts; (λ v, EV v :: t) <$> g_vertices g)
  | g_V_id i =>
      match i with
      | Some _ => Ok (t ← ts; (λ v, EV v :: t) <$> vertices_with_id g i)
      | None => Raise QueryError
      end
  | hasLabel l =>
      if groovy_safe l
      then Ok (filter (on_current (λ x, bool_decide (el_label x = l))) ts)
      else Raise UnsupportedLiteral
  | has k p =>
      if groovy_safe k && pred_safe p
      then Ok (filter (on_current (λ x, test_pred p (get_property_value x k))) ts)
      else Raise UnsupportedLiteral
  | hasId i =>
      match i with
      | Some _ => Ok (filter (on_current (λ x, bool_decide (el_id x = i))) ts)
      | None => Raise QueryError
      end
  | outE =>
      Ok (t ← ts;
          match current t with
          | Some (EV v) => (λ e, EE e :: t) <$> out_edges g (v_id v)
          | _ => []
          end)
  | inE =>
      Ok (t ← ts;
          match current t with
          | Some (EV v) => (λ e, EE e :: t) <$> in_edges g (v_id v)
          | _ => []
          end)
  | inV =>
      Ok (t ← ts;
          match current t with
          | Some (EE e) => (λ v, EV v :: t) <$> vertices_with_id g (e_in_v e)
          | _ => []
          end)
  | outV =>
      Ok (t ← ts;
          match current t with
          | Some (EE e) => (λ v, EV v :: t) <$> vertices_with_id g (e_out_v e)
          | _ => []
          end)
  | in_ l =>
      if groovy_safe l
      then Ok (t ← ts;
               match current t with
               | Some (EV v) =>
                   e ← filter (λ e, e_label e = l) (in_edges g (v_id v));
                   (λ w, EV w :: t) <$> vertices_with_id g (e_out_v e)
               | _ => []
               end)
      else Raise UnsupportedLiteral
  | order_by_decr k =>
      if groovy_safe k
      then kts ← sort_keys k ts; Ok ((order_decr kts).*2)
      else Raise UnsupportedLiteral
  | limit n =>
      if bool_decide (0 ≤ n) then Ok (take (Z.to_nat n) ts)
      else if bool_decide (n = -1) then Ok ts
      else Raise QueryError
  end.

Fixpoint eval_steps (g : GraphData) (ss : list Step) (ts : list Traverser)
    : Result (list Traverser) :=
  match ss with
  | [] => Ok ts
  | s :: ss' => ts' ← eval_step g s ts; eval_steps g ss' ts'
  end.

(** The result for one traverser: its whole path, oldest element first,
    when the traversal ends in [.path()], the element it sits on
    otherwise. *)
Definition response_of (as_path : bool) (t : Traverser) : option Response :=
  if as_path then Some (RPath (reverse t)) else RElement <$> current t.

Definition eval_query (g : GraphData) (q : Query) : Result (list Response) :=
  match eval_steps g (q_steps q) [[]] with
  | Ok ts => Ok (omap (response_of (q_path q)) ts)
  | Raise e => Raise e
  end.

(** *** The requests of the client *)

(** Modelled from the spec: the requests of [ibm_graph.IBMGraphClient],
    which is not part of the repository (section 6), down to
    [save_schema] below.  The unique index of the schema is not enforced
    by the model: the store never relies on it.

    [graph_client.run_gremlin_query(query)] *)
Definition run_gremlin_query (q : Query) : M (list Response) :=
  on_active (CRunGremlinQuery q) (λ g, r ← eval_query g q; Ok (r, g)).

(** [graph_client.add_vertex(vertex)]: the vertex is stored under a fresh
    identifier and returned with it. *)
Definition add_vertex (v : Vertex) : M Vertex :=
  on_active (CAddVertex v) (λ g,
    let v' := mkVertex (Some (g_next g)) (v_label v) (v_properties v) in
    Ok (v', mkGraphData (g_schema g) (g_vertices g ++ [v']) (g_edges g) (g_next g + 1))).

(** [graph_client.add_edge(edge)]: both end points must be vertices of the
    graph. *)
Definition add_edge (e : Edge) : M Edge :=
  on_active (CAddEdge e) (λ g,
    match vertices_with_id g (e_out_v e), vertices_with_id g (e_in_v e) with
    | _ :: _, _ :: _ =>
        let e' := mkEdge (Some (g_next g)) (e_label e) (e_out_v e) (e_in_v e) (e_properties e) in
        Ok (e', mkGraphData (g_schema g) (g_vertices g) (g_edges g ++ [e']) (g_next g + 1))
    | _, _ => Raise NotFoundError
    end).

(** The stored edge takes the properties of [e] if it is the edge that
    [e] identifies. *)
Definition overwrite_properties (e stored : Edge) : Edge :=
  if decide (e_id stored = e_id e)
  then mkEdge (e_id stored) (e_label stored) (e_out_v stored) (e_in_v stored) (e_properties e)
  else stored.

(** [graph_client.update_edge(edge)]: the properties of the stored edge
    with the identifier of [edge] are overwritten. *)
Definition update_edge (e : Edge) : M Edge :=
  on_active (CUpdateEdge e) (λ g,
    match e_id e with
    | Some _ =>
        match filter (λ s, e_id s = e_id e) (g_edges g) with
        | [] => Raise NotFoundError
        | _ :: _ =>
            Ok (e, mkGraphData (g_schema g) (g_vertices g)
                     (overwrite_properties e <$> g_edges g) (g_next g))
        end
    | None => Raise NotFoundError
    end).

(** [graph_client.get_graphs()]: the identifiers of the graphs. *)
Definition get_graphs : M (list string) := λ cl,
  Ok ((map_to_list (c_graphs cl)).*1,
      mkClient (c_graphs cl) (c_active cl) (c_calls cl ++ [CGetGraphs])).

(** A graph as the service creates it. *)
Definition empty_graph : GraphData :=
  mkGraphData (Some (mkSchema (Some []) [] [] [] [])) [] [] 1.

(** [graph_client.create_graph(graph_id)] *)
Definition create_graph (graph_id : string) : M unit := λ cl,
  match c_graphs cl !! graph_id with
  | Some _ => Raise QueryError
  | None =>
      Ok ((), mkClient (<[graph_id := empty_graph]> (c_graphs cl)) (c_active cl)
                (c_calls cl ++ [CCreateGraph graph_id]))
  end.

(** [graph_client.set_graph(graph_id)] *)
Definition set_graph (graph_id : string) : M unit := λ cl,
  Ok ((), mkClient (c_graphs cl) graph_id (c_calls cl ++ [CSetGraph graph_id])).

(** [graph_client.get_schema()] *)
Definition get_schema : M (option Schema) :=
  on_active CGetSchema (λ g, Ok (g_schema g, g)).

(** [graph_client.save_schema(schema)] *)
Definition save_schema (s : Schema) : M unit :=
  on_active (CSaveSchema s) (λ g,
    Ok ((), mkGraphData (Some s) (g_vertices g) (g_edges g) (g_next g))).

End Gremlin.

(** ** The store: [class GraphRecipeStore]

    [self.graph_client] is the state of the monad; [self.graph_id] is an
    argument of [init], the only method that reads it.  The calls to
    [print] are left out. *)

(** ['{}'.format(x)] for a property value, or [None]. *)
Definition py_format (x : option PropVal) : string :=
  match x with
  | None => "None"
  | Some (PStr s) => s
  | Some (PInt n) => PyStr.str_of_int n
  end.

(** The result objects are Python objects of no declared type; the
    accessors below fail where an attribute access would. *)
Definition as_element (r : Response) : M Element :=
  match r with
  | RElement x => mret x
  | RPath _ => raise AttributeError
  end.

Definition as_vertex (r : Response) : M Vertex :=
  match r with
  | RElement (EV v) => mret v
  | _ => raise AttributeError
  end.

(** [path.objects[i]] *)
Definition path_object (r : Response) (i : nat) : M Element :=
  match r with
  | RPath objects =>
      match objects !! i with
      | Some x => mret x
      | None => raise IndexError
      end
  | RElement _ => raise AttributeError
  end.

(** The dictionaries [{'id': .., 'title': ..}] of the favourites. *)
Record Recipe := mkRecipe {
  r_id : option PropVal;
  r_title : option PropVal
}.

(** The dictionaries [{'id': .., 'title': .., 'recommendedUserCount': ..}]. *)
Record Recommendation := mkRecommendation {
  rc_id : option PropVal;
  rc_title : option PropVal;
  recommendedUserCount : Z
}.

#[global] Instance Recipe_eq_dec : EqDecision Recipe.
Proof. solve_decision. Defined.

#[global] Instance Recommendation_eq_dec : EqDecision Recommendation.
Proof. solve_decision. Defined.

Module GraphRecipeStore.
Section store.
Context `{!GremlinOrder}.

(** [init] *)
Definition init (graph_id : string) : M unit :=
  graph_ids ← get_graphs;
  let graph_exists := bool_decide (graph_id ∈ graph_ids) in
  _ ← (if negb graph_exists then create_graph graph_id else mret ());
  _ ← set_graph graph_id;
  schema ← get_schema;
  let schema_exists :=
    match schema with
    | Some s =>
        match property_keys s with
        | Some keys => bool_decide (0 < length keys)%nat
        | None => false
        end
    | None => false
    end in
  if negb schema_exists then
    save_schema (mkSchema
      (Some [mkPropertyKey "name" "String" "SINGLE";
             mkPropertyKey "title" "String" "SINGLE";
             mkPropertyKey "detail" "String" "SINGLE"])
      ["person"; "ingredient"; "cuisine"; "recipe"]
      ["selects"]
      [mkVertexIndex "vertexByName" ["name"] true true]
      [])
  else mret ().

(** *** Graph helper methods *)

(** [find_vertex] *)
Definition find_vertex (label property_name property_value : string)
    : M (option Vertex) :=
  let query := mkQuery [g_V; hasLabel label; has property_name (P_eq property_value)] false in
  response ← run_gremlin_query query;
  match response with
  | r :: _ => v ← as_vertex r; mret (Some v)
  | [] => mret None
  end.

(** [add_vertex_if_not_exists] *)
Definition add_vertex_if_not_exists (vertex : Vertex) (unique_property_name : string)
    : M Vertex :=
  let property_value := get_property_value (EV vertex) unique_property_name in
  let query := mkQuery [g_V; hasLabel (v_label vertex);
                        has unique_property_name (P_eq (py_format property_value))] false in
  response ← run_gremlin_query query;
  match response with
  | r :: _ => as_vertex r
  | [] => add_vertex vertex
  end.

(** [add_edge_if_not_exists] *)
Definition add_edge_if_not_exists (edge : Edge) : M unit :=
  let query := mkQuery [g_V_id (e_out_v edge); outE; inV; hasId (e_in_v edge)] true in
  response ← run_gremlin_query query;
  match response with
  | _ :: _ => mret ()
  | [] => _ ← add_edge edge; mret ()
  end.

(** [add_update_edge] *)
Definition add_update_edge (edge : Edge) : M unit :=
  let query := mkQuery [g_V_id (e_out_v edge); outE; inV; hasId (e_in_v edge)] true in
  response ← run_gremlin_query query;
  match response with
  | r :: _ =>
      x ← path_object r 1;
      match x with
      | EE edge =>
          let edge_count := get_property_value (EE edge) "count" in
          count ← match edge_count with
                  | None => mret 0
                  | Some (PInt n) => mret (0 + n)
                  | Some (PStr _) => raise TypeError
                  end;
          let edge := set_property_value edge "count" (PInt (count + 1)) in
          _ ← update_edge edge; mret ()
      | EV _ => raise AttributeError
      end
  | [] => _ ← add_edge edge; mret ()
  end.

(** *** User *)

(** [add_user] *)
Definition add_user (user_id : string) : M Vertex :=
  let vertex := new_Vertex "person" {[ "name" := PStr user_id ]} in
  add_vertex_if_not_exists vertex "name".

(** *** Ingredients *)

(** [get_unique_ingredients_name] *)
Definition get_unique_ingredients_name (ingredients_str : string) : string :=
  let ingredients :=
    PyStr.strip <$> PyStr.split "," (PyStr.strip (PyStr.lower ingredients_str)) in
  let ingredients := PyStr.sort ingredients in
  PyStr.join "," ingredients.

(** [find_ingredient] *)
Definition find_ingredient (ingredients_str : string) : M (option Vertex) :=
  find_vertex "ingredient" "name" (get_unique_ingredients_name ingredients_str).

(** [record_ingredient_request_for_user] *)
Definition record_ingredient_request_for_user (ingredient_vertex user_vertex : Vertex)
    : M unit :=
  let ingredient_edge :=
    new_Edge "selects" (v_id user_vertex) (v_id ingredient_vertex) {[ "count" := PInt 1 ]} in
  add_update_edge ingredient_edge.

(** [add_ingredient]; [matching_recipes] stands for the text that
    [json.dumps] makes of the recipes. *)
Definition add_ingredient (ingredients_str matching_recipes : string) (user_vertex : Vertex)
    : M Vertex :=
  let ingredient_vertex := new_Vertex "ingredient"
    {[ "name" := PStr (get_unique_ingredients_name ingredients_str);
       "detail" := PStr matching_recipes ]} in
  ingredient_vertex ← add_vertex_if_not_exists ingredient_vertex "name";
  _ ← record_ingredient_request_for_user ingredient_vertex user_vertex;
  mret ingredient_vertex.

(** *** Cuisine *)

(** [get_unique_cuisine_name] *)
Definition get_unique_cuisine_name (cuisine : string) : string :=
  PyStr.lower (PyStr.strip cuisine).

(** [find_cuisine] *)
Definition find_cuisine (cuisine_str : string) : M (option Vertex) :=
  find_vertex "cuisine" "name" (get_unique_cuisine_name cuisine_str).

(** [record_cuisine_request_for_user] *)
Definition record_cuisine_request_for_user (cuisine_vertex user_vertex : Vertex) : M unit :=
  let cuisine_edge :=
    new_Edge "selects" (v_id user_vertex) (v_id cuisine_vertex) {[ "count" := PInt 1 ]} in
  add_update_edge cuisine_edge.

(** [add_cuisine] *)
Definition add_cuisine (cuisine_str matching_recipes : string) (user_vertex : Vertex)
    : M Vertex :=
  let cuisine_vertex := new_Vertex "cuisine"
    {[ "name" := PStr (get_unique_cuisine_name cuisine_str);
       "detail" := PStr matching_recipes ]} in
  cuisine_vertex ← add_vertex_if_not_exists cuisine_vertex "name";
  _ ← record_cuisine_request_for_user cuisine_vertex user_vertex;
  mret cuisine_vertex.

(** *** Recipe *)

(** [str(x)] *)
Definition py_str (x : PropVal) : string := py_format (Some x).

(** [get_unique_recipe_name] *)
Definition get_unique_recipe_name (recipe_id : PropVal) : string :=
  PyStr.lower (PyStr.strip (py_str recipe_id)).

(** [find_recipe] *)
Definition find_recipe (recipe_id : PropVal) : M (option Vertex) :=
  find_vertex "recipe" "name" (get_unique_recipe_name recipe_id).

(** [record_recipe_request_for_user] *)
Definition record_recipe_request_for_user (recipe_vertex : Vertex)
    (ingredient_cuisine_vertex : option Vertex) (user_vertex : Vertex) : M unit :=
  let edge := new_Edge "selects" (v_id user_vertex) (v_id recipe_vertex)
                {[ "count" := PInt 1 ]} in
  _ ← add_update_edge edge;
  match ingredient_cuisine_vertex with
  | Some ingredient_cuisine_vertex =>
      let edge := new_Edge "selects" (v_id ingredient_cuisine_vertex) (v_id recipe_vertex)
                    {[ "count" := PInt 1 ]} in
      _ ← add_update_edge edge;
      let edge := new_Edge "has" (v_id recipe_vertex) (v_id ingredient_cuisine_vertex) ∅ in
      add_edge_if_not_exists edge
  | None => mret ()
  end.

(** [add_recipe] *)
Definition add_recipe (recipe_id : PropVal) (recipe_title recipe_detail : string)
    (ingredient_cuisine_vertex : option Vertex) (user_vertex : Vertex) : M Vertex :=
  let recipe_vertex := new_Vertex "recipe"
    {[ "name" := PStr (get_unique_recipe_name recipe_id);
       "title" := PStr (PyStr.strip recipe_title);
       "detail" := PStr recipe_detail ]} in
  recipe_vertex ← add_vertex_if_not_exists recipe_vertex "name";
  _ ← record_recipe_request_for_user recipe_vertex ingredient_cuisine_vertex user_vertex;
  mret recipe_vertex.

(** The loop of [find_favorite_recipes_for_user]. *)
Fixpoint favorite_recipes_loop (recipe_vertices : list Response) : M (list Recipe) :=
  match recipe_vertices with
  | [] => mret []
  | r :: rest =>
      recipe_vertex ← as_element r;
      recipes ← favorite_recipes_loop rest;
      mret (mkRecipe (get_property_value recipe_vertex "name")
                     (get_property_value recipe_vertex "title") :: recipes)
  end.

(** [find_favorite_recipes_for_user] *)
Definition find_favorite_recipes_for_user (user_vertex : Vertex) (count : Z)
    : M (list Recipe) :=
  let query := mkQuery
    [g_V; hasLabel "person";
     has "name" (P_eq (py_format (get_property_value (EV user_vertex) "name")));
     outE; order_by_decr "count"; inV; hasLabel "recipe"; limit count] false in
  recipe_vertices ← run_gremlin_query query;
  if bool_decide (0 < length recipe_vertices)%nat
  then favorite_recipes_loop recipe_vertices
  else mret [].

(** [existing_recipes[0]['recommendedUserCount'] += 1]: the dictionary
    that [filter] finds first is the very object that sits in
    [recipes], so the first entry of [recipes] with that [id] changes. *)
Fixpoint increment_first (recipe_id : option PropVal) (recipes : list Recommendation)
    : list Recommendation :=
  match recipes with
  | [] => []
  | x :: rest =>
      if decide (rc_id x = recipe_id)
      then mkRecommendation (rc_id x) (rc_title x) (recommendedUserCount x + 1) :: rest
      else x :: increment_first recipe_id rest
  end.

(** One turn of the loop of [get_recommended_recipes]. *)
Definition recommend_step (count : Z) (recipes : list Recommendation) (path : Response)
    : M (list Recommendation) :=
  recipe_vertex ← path_object path 1;
  let recipe_id := get_property_value recipe_vertex "name" in
  let existing_recipes := filter (λ x, rc_id x = recipe_id) recipes in
  if bool_decide (length existing_recipes = 0%nat) then
    if Z.of_nat (length recipes) >=? count then mret recipes
    else mret (recipes ++ [mkRecommendation recipe_id
                             (get_property_value recipe_vertex "title") 1])
  else mret (increment_first recipe_id recipes).

Fixpoint recommend_loop (count : Z) (recipes : list Recommendation) (paths : list Response)
    : M (list Recommendation) :=
  match paths with
  | [] => mret recipes
  | path :: rest =>
      recipes ← recommend_step count recipes path;
      recommend_loop count recipes rest
  end.

(** [get_recommended_recipes] *)
Definition get_recommended_recipes (query : Query) (count : Z) : M (list Recommendation) :=
  paths ← run_gremlin_query query;
  if bool_decide (0 < length paths)%nat
  then recommend_loop count [] paths
  else mret [].

(** The traversal of [find_recommended_recipes_for_ingredient] and of
    [find_recommended_recipes_for_cuisine], which differ in the label
    of the anchor only. *)
Definition recommended_query (anchor_label name : string) (user_vertex : Vertex) : Query :=
  mkQuery
    [g_V; hasLabel anchor_label; has "name" (P_eq name);
     in_ "has";
     inE; has "count" (P_gt 1); order_by_decr "count";
     outV; hasLabel "person";
     has "name" (P_neq (py_format (get_property_value (EV user_vertex) "name")))]
    true.

(** [find_recommended_recipes_for_ingredient] *)
Definition find_recommended_recipes_for_ingredient (ingredients_str : string)
    (user_vertex : Vertex) (count : Z) : M (list Recommendation) :=
  let ingredients_str := get_unique_ingredients_name ingredients_str in
  let query := recommended_query "ingredient" ingredients_str user_vertex in
  get_recommended_recipes query count.

(** [find_recommended_recipes_for_cuisine] *)
Definition find_recommended_recipes_for_cuisine (cuisine : string)
    (user_vertex : Vertex) (count : Z) : M (list Recommendation) :=
  let cuisine := get_unique_cuisine_name cuisine in
  let query := recommended_query "cuisine" cuisine user_vertex in
  get_recommended_recipes query count.

End store.
End GraphRecipeStore.

(** ** A service for running examples

    Merge sort is one admissible way to order: it is stable, so equal
    keys keep the order in which the traversal reached them. *)
Definition key_ge (a b : Z * Traverser) : Prop := b.1 ≤ a.1.

#[global] Instance key_ge_dec : RelDecision key_ge.
Proof. intros a b. unfold key_ge. apply _. Defined.

#[global] Instance key_ge_total : Total key_ge.
Proof. intros a b. unfold key_ge. lia. Qed.

Definition stable_order : GremlinOrder :=
  {| order_decr := merge_sort key_ge;
     order_decr_perm := merge_sort_Permutation key_ge;
     order_decr_sorted := Sorted_merge_sort key_ge |}.

(** ** Notions used to state the properties *)

(** A function applied to the first, respectively the last, element of
    a list. *)
Definition apply_head {A} (f : A → A) (l : list A) : list A :=
  match l with
  | [] => []
  | x :: xs => f x :: xs
  end.

Fixpoint apply_last {A} (f : A → A) (l : list A) : list A :=
  match l with
  | [] => []
  | [x] => [f x]
  | x :: xs => x :: apply_last f xs
  end.

(** What is left of one comma-separated piece of the input once case
    and surrounding white space are gone. *)
Definition normalize_token (t : string) : string := PyStr.strip (PyStr.lower t).

(** The ingredients a raw string names: its comma-separated pieces, each
    normalised.  Two strings are variants of each other when these lists
    are permutations of one another. *)
Definition ingredient_tokens (s : string) : list string :=
  normalize_token <$> PyStr.split "," s.

(** The client after one more request that changes no graph. *)
Definition logged (c : Call) (cl : Client) : Client :=
  mkClient (c_graphs cl) (c_active cl) (c_calls cl ++ [c]).

(** The client after a request that leaves the selected graph as [g]. *)
Definition stored (c : Call) (g : GraphData) (cl : Client) : Client :=
  mkClient (<[c_active cl := g]> (c_graphs cl)) (c_active cl) (c_calls cl ++ [c]).

(** The recipe of a path of the recommendation traversal: its second
    object. *)
Definition path_recipe (p : Response) : option Element :=
  match p with
  | RPath objects => objects !! 1%nat
  | RElement _ => None
  end.

(** The reducer of the recommendation engine in the words of the
    design: a pair whose recipe is listed adds one to the count of the
    entry of that recipe; a pair whose recipe is not listed is appended
    with count 1 while fewer than [limit] recipes are listed, and is
    discarded otherwise. *)
Definition bump (recipe_id : option PropVal) (r : Recommendation) : Recommendation :=
  if decide (rc_id r = recipe_id)
  then mkRecommendation (rc_id r) (rc_title r) (recommendedUserCount r + 1)
  else r.

Definition reduce_step (limit : Z) (results : list Recommendation) (recipe : Element)
    : list Recommendation :=
  let recipe_id := get_property_value recipe "name" in
  if decide (recipe_id ∈ rc_id <$> results) then bump recipe_id <$> results
  else if decide (Z.of_nat (length results) < limit)
       then results ++ [mkRecommendation recipe_id (get_property_value recipe "title") 1]
       else results.

Definition reduce (limit : Z) (recipes : list Element) : list Recommendation :=
  fold_left (reduce_step limit) recipes [].

(** ** A small graph for examples

    One ingredient, three recipes found through it, three people who
    picked recipes more than once, and the user who asks. *)
Module Demo.

Definition vertex (i : Z) (label name title : string) : Vertex :=
  mkVertex (Some i) label {[ "name" := PStr name; "title" := PStr title ]}.

Definition has_edge (i from to : Z) : Edge :=
  mkEdge (Some i) "has" (Some from) (Some to) ∅.

Definition selects_edge (i from to count : Z) : Edge :=
  mkEdge (Some i) "selects" (Some from) (Some to) {[ "count" := PInt count ]}.

Definition egg : Vertex := vertex 1 "ingredient" "egg" "".
Definition X : Vertex := vertex 2 "recipe" "x" "Omelette".
Definition Y : Vertex := vertex 3 "recipe" "y" "Frittata".
Definition Z' : Vertex := vertex 4 "recipe" "z" "Quiche".
Definition ann : Vertex := vertex 5 "person" "ann" "".
Definition bob : Vertex := vertex 6 "person" "bob" "".
Definition cat : Vertex := vertex 7 "person" "cat" "".
Definition me : Vertex := vertex 8 "person" "me" "".

Definition graph : GraphData :=
  mkGraphData (Some (mkSchema (Some []) [] [] [] []))
    [egg; X; Y; Z'; ann; bob; cat; me]
    [has_edge 9 2 1; has_edge 10 3 1; has_edge 11 4 1;
     selects_edge 12 5 2 5; selects_edge 13 6 3 4;
     selects_edge 14 7 2 3; selects_edge 15 5 4 2;
     selects_edge 16 8 2 7; selects_edge 17 6 4 1]
    18.

Definition client : Client := mkClient {[ "recipes" := graph ]} "recipes" [].

(** A recipe that the graph does not hold, under two titles. *)
Definition waffles : Vertex :=
  new_Vertex "recipe" {[ "name" := PStr "w"; "title" := PStr "Waffles" ]}.
Definition wafers : Vertex :=
  new_Vertex "recipe" {[ "name" := PStr "w"; "title" := PStr "Wafers" ]}.

End Demo.

(** The schema of the design: the property keys [name], [title] and
    [detail], the four vertex labels, the edge label [selects], and a
    unique index on [name]. *)
Definition recipe_schema : Schema :=
  mkSchema
    (Some [mkPropertyKey "name" "String" "SINGLE";
           mkPropertyKey "title" "String" "SINGLE";
           mkPropertyKey "detail" "String" "SINGLE"])
    ["person"; "ingredient"; "cuisine"; "recipe"]
    ["selects"]
    [mkVertexIndex "vertexByName" ["name"] true true]
    [].

(** A client that has its graph selected, with a schema in place. *)
Definition initialised (graph_id : string) (cl : Client) : Prop :=
  c_active cl = graph_id
  ∧ ∃ g s keys, c_graphs cl !! graph_id = Some g ∧ g_schema g = Some s
                ∧ property_keys s = Some keys ∧ (0 < length keys)%nat.

(** The edges of [g] from vertex [a] to vertex [b], of any label, in
    the order the traversal meets them. *)
Definition edges_between (g : GraphData) (a b : Z) : list Edge :=
  filter (λ e, e_in_v e = Some b) (out_edges g (Some a)).

(** The vertices of [g] with label [l] whose property [k] is the
    string [s]. *)
Definition matching_vertices (g : GraphData) (l k s : string) : list Vertex :=
  filter (λ v, v_label v = l ∧ v_properties v !! k = Some (PStr s)) (g_vertices g).

(** The traversal by which [add_edge_if_not_exists] and [add_update_edge]
    look for an edge, and the one by which vertices are looked up. *)
Definition edge_query (out_v in_v : option Z) : Query :=
  mkQuery [g_V_id out_v; outE; inV; hasId in_v] true.

Definition vertex_query (l k s : string) : Query :=
  mkQuery [g_V; hasLabel l; has k (P_eq s)] false.

(** [recordInteraction(from, to)] of the design: what each of
    [record_ingredient_request_for_user], [record_cuisine_request_for_user]
    and [record_recipe_request_for_user] does for a pair of vertices. *)
Definition recordInteraction `{!GremlinOrder} (from to : option Z) : M unit :=
  GraphRecipeStore.add_update_edge (new_Edge "selects" from to {[ "count" := PInt 1 ]}).

(** [recordMembership(from, to)] of the design: the last step of
    [record_recipe_request_for_user]. *)
Definition recordMembership `{!GremlinOrder} (from to : option Z) : M unit :=
  GraphRecipeStore.add_edge_if_not_exists (new_Edge "has" from to ∅).

(** [m], [n] times in succession. *)
Fixpoint times (n : nat) (m : M unit) : M unit :=
  match n with
  | O => mret ()
  | S n' => _ ← m; times n' m
  end.

(** The integer that [add_update_edge] reads from an edge: a missing
    count is 0. *)
Definition count_of (e : Edge) : option Z :=
  match e_properties e !! "count" with
  | None => Some 0
  | Some (PInt n) => Some n
  | Some (PStr _) => None
  end.

(** A stored edge from [a] to [b] whose only property is its count. *)
Definition counted_edge (i : Z) (label : string) (a b : Z) (count : Z) : Edge :=
  mkEdge (Some i) label (Some a) (Some b) {[ "count" := PInt count ]}.

(** At most one edge, of whatever label, from any vertex to any other. *)
Definition at_most_one_edge (g : GraphData) : Prop :=
  ∀ a b, (length (edges_between g a b) ≤ 1)%nat.

(** What a call of either operation that returns has done to the
    selected graph: nothing, or one edge more between end points that
    had none, or the properties of an edge with a new count on the edges
    of its identifier, which stay where they are. *)
Definition edge_written (edge : Edge) (g g' : GraphData) : Prop :=
  g' = g
  ∨ (∃ a b, e_out_v edge = Some a ∧ e_in_v edge = Some b
            ∧ edges_between g a b = []
            ∧ g_vertices g' = g_vertices g ∧ g_next g' = g_next g + 1
            ∧ g_edges g' = g_edges g ++ [mkEdge (Some (g_next g)) (e_label edge) (Some a)
                                            (Some b) (e_properties edge)])
  ∨ (∃ e0 c, g_vertices g' = g_vertices g ∧ g_next g' = g_next g
             ∧ g_edges g' = overwrite_properties (set_property_value e0 "count" (PInt c))
                              <$> g_edges g).

(** The traversal of [find_favorite_recipes_for_user]. *)
Definition favorite_query (user_vertex : Vertex) (count : Z) : Query :=
  mkQuery
    [g_V; hasLabel "person";
     has "name" (P_eq (py_format (get_property_value (EV user_vertex) "name")));
     outE; order_by_decr "count"; inV; hasLabel "recipe"; limit count] false.

(** ** Notions used for the favourites and the recommendations *)

(** The weight of an edge: its integer count. *)
Definition weight (e : Edge) : Z :=
  match e_properties e !! "count" with
  | Some (PInt k) => k
  | _ => 0
  end.

Definition has_weight (e : Edge) : Prop :=
  ∃ k, e_properties e !! "count" = Some (PInt k).

(** Heavier edges first. *)
Definition heavier (e1 e2 : Edge) : Prop := weight e2 ≤ weight e1.

#[global] Instance heavier_dec : RelDecision heavier.
Proof. intros e1 e2. unfold heavier. apply _. Defined.

(** The edges that leave the person vertices named [n]. *)
Definition user_out_edges (g : GraphData) (n : string) : list Edge :=
  p ← matching_vertices g "person" "name" n; out_edges g (v_id p).

(** The recipe vertices that the edges [es] lead to, edge by edge. *)
Definition recipe_destinations (g : GraphData) (es : list Edge) : list Vertex :=
  e ← es; filter (λ v, v_label v = "recipe") (vertices_with_id g (e_in_v e)).

(** The dictionary that [find_favorite_recipes_for_user] makes of a
    vertex. *)
Definition recipe_entry (v : Vertex) : Recipe :=
  mkRecipe (v_properties v !! "name") (v_properties v !! "title").

(** The key by which a traverser is ordered, 0 if it has none. *)
Definition key_or_0 (k : string) (t : Traverser) : Z :=
  match sort_key k t with
  | Ok n => n
  | Raise _ => 0
  end.

(** The edge a traverser sits on. *)
Definition edge_of (t : Traverser) : option Edge :=
  match t with
  | EE e :: _ => Some e
  | _ => None
  end.

(** The traversers that sit on the out-edges of the persons named [n]. *)
Definition on_out_edges (g : GraphData) (n : string) : list Traverser :=
  p ← matching_vertices g "person" "name" n;
  (λ e, [EE e; EV p]) <$> out_edges g (v_id p).

(** The recipe vertices one edge leads to. *)
Definition edge_recipes (g : GraphData) (t : Traverser) : list Vertex :=
  from_option (λ e, filter (λ v, v_label v = "recipe") (vertices_with_id g (e_in_v e)))
    [] (edge_of t).

#[global] Instance key_order_trans : Transitive (λ a b : Z * Traverser, b.1 ≤ a.1).
Proof. intros a b c. lia. Qed.

Module DemoFavorites.

Definition dan : Vertex := Demo.vertex 1 "person" "dan" "".
Definition A : Vertex := Demo.vertex 2 "recipe" "a" "Apple pie".
Definition B : Vertex := Demo.vertex 3 "recipe" "b" "Bread".
Definition C : Vertex := Demo.vertex 4 "recipe" "c" "Curry".
Definition flour : Vertex := Demo.vertex 5 "ingredient" "flour" "".

(** dan picked A five times, B twice, C five times, and asked for
    flour nine times. *)
Definition graph : GraphData :=
  mkGraphData (Some (mkSchema (Some []) [] [] [] []))
    [dan; A; B; C; flour]
    [Demo.selects_edge 6 1 2 5; Demo.selects_edge 7 1 3 2;
     Demo.selects_edge 8 1 4 5; Demo.selects_edge 9 1 5 9]
    10.

Definition client : Client := mkClient {[ "recipes" := graph ]} "recipes" [].

End DemoFavorites.

(** A path of the recommendation traversal for the anchor named [name]
    of label [anchor_label], asked for by the user named [user_name]: an
    anchor [a], a vertex [r] with a "has" edge [h] to it, an edge [e]
    into [r] with a count above 1, and the person [p] at the source of
    [e], whose name is not [user_name]. *)
Definition recommended_path (g : GraphData) (anchor_label name user_name : string)
    (a r : Vertex) (h e : Edge) (p : Vertex) : Prop :=
  a ∈ matching_vertices g anchor_label "name" name
  ∧ r ∈ g_vertices g
  ∧ h ∈ g_edges g ∧ e_label h = "has" ∧ e_out_v h = v_id r ∧ e_in_v h = v_id a
  ∧ e ∈ g_edges g ∧ e_in_v e = v_id r
  ∧ (∃ k, e_properties e !! "count" = Some (PInt k) ∧ 1 < k)
  ∧ p ∈ g_vertices g ∧ v_id p = e_out_v e ∧ v_label p = "person"
  ∧ (∃ w, v_properties p !! "name" = Some w ∧ w ≠ PStr user_name).

(** The traversers of the recommendation traversal, stage by stage. *)
Definition at_anchor (g : GraphData) (anchor_label name : string) (t : Traverser) : Prop :=
  ∃ a, t = [EV a] ∧ a ∈ matching_vertices g anchor_label "name" name.

Definition at_recipe (g : GraphData) (anchor_label name : string) (t : Traverser) : Prop :=
  ∃ a r h, t = [EV r; EV a]
    ∧ a ∈ matching_vertices g anchor_label "name" name
    ∧ r ∈ g_vertices g
    ∧ h ∈ g_edges g ∧ e_label h = "has" ∧ e_out_v h = v_id r ∧ e_in_v h = v_id a.

Definition at_edge (g : GraphData) (anchor_label name : string) (t : Traverser) : Prop :=
  ∃ e r rest, t = EE e :: EV r :: rest
    ∧ at_recipe g anchor_label name (EV r :: rest)
    ∧ e ∈ g_edges g ∧ e_in_v e = v_id r.

Definition on_heavy_edge (t : Traverser) : Prop :=
  ∃ e rest k, t = EE e :: rest ∧ e_properties e !! "count" = Some (PInt k) ∧ 1 < k.

Definition at_source (g : GraphData) (anchor_label name : string) (t : Traverser) : Prop :=
  ∃ p e rest, t = EV p :: EE e :: rest
    ∧ at_edge g anchor_label name (EE e :: rest)
    ∧ on_heavy_edge (EE e :: rest)
    ∧ p ∈ g_vertices g ∧ v_id p = e_out_v e.

Definition on_person (t : Traverser) : Prop :=
  ∃ p rest, t = EV p :: rest ∧ v_label p = "person".

Definition on_other (user_name : string) (t : Traverser) : Prop :=
  ∃ p rest w, t = EV p :: rest ∧ v_properties p !! "name" = Some w ∧ w ≠ PStr user_name.

(** What a call of [add_vertex_if_not_exists] that returns [r] has done
    to the selected graph: nothing, [r] being a vertex of it, or [r] is
    the given vertex, stored under a fresh identifier. *)
Definition vertex_written (vertex r : Vertex) (g g' : GraphData) : Prop :=
  (g' = g ∧ r ∈ g_vertices g ∧ v_label r = v_label vertex)
  ∨ (r = mkVertex (Some (g_next g)) (v_label vertex) (v_properties vertex)
     ∧ g_vertices g' = g_vertices g ++ [r]
     ∧ g_edges g' = g_edges g
     ∧ g_next g' = g_next g + 1).

(** What the graph service and the write path of the store keep true
    of a graph: identifiers of vertices are issued below the counter and
    never twice, an edge that is not a "selects" edge starts at a recipe
    vertex, a "selects" edge carries an integer count, and no two edges
    join the same vertices in the same direction. *)
Definition store_invariant (g : GraphData) : Prop :=
  Forall (λ v, ∃ i, v_id v = Some i ∧ i < g_next g) (g_vertices g)
  ∧ NoDup (v_id <$> g_vertices g)
  ∧ Forall (λ e, e_label e = "selects"
                 ∨ ∃ v, v ∈ g_vertices g ∧ v_id v = e_out_v e ∧ v_label v = "recipe")
      (g_edges g)
  ∧ Forall (λ e, e_label e = "selects" → has_weight e) (g_edges g)
  ∧ at_most_one_edge g.

(** The edge passed to an edge operation fits the invariant. *)
Definition edge_fits (edge : Edge) (g : GraphData) : Prop :=
  (e_label edge = "selects"
   ∨ ∃ v, v ∈ g_vertices g ∧ v_id v = e_out_v edge ∧ v_label v = "recipe")
  ∧ (e_label edge = "selects" → has_weight edge).

(** Edges that leave a person vertex are "selects" edges. *)
Definition person_edges_select (g : GraphData) : Prop :=
  ∀ e p, e ∈ g_edges g → p ∈ g_vertices g → v_id p = e_out_v e →
         v_label p = "person" → e_label e = "selects".

(** The clients that the store has written: [init] on a service that
    does not have the graph yet, then any of the adding methods. *)
Inductive store_built `{!GremlinOrder} : Client → Prop :=
  | built_init cl graph_id cl' :
      c_graphs cl !! graph_id = None →
      GraphRecipeStore.init graph_id cl = Ok ((), cl') →
      store_built cl'
  | built_add_user cl user_id r cl' :
      store_built cl →
      GraphRecipeStore.add_user user_id cl = Ok (r, cl') →
      store_built cl'
  | built_add_ingredient cl ingredients_str matching_recipes user_vertex r cl' :
      store_built cl →
      GraphRecipeStore.add_ingredient ingredients_str matching_recipes user_vertex cl
      = Ok (r, cl') →
      store_built cl'
  | built_add_cuisine cl cuisine matching_recipes user_vertex r cl' :
      store_built cl →
      GraphRecipeStore.add_cuisine cuisine matching_recipes user_vertex cl = Ok (r, cl') →
      store_built cl'
  | built_add_recipe cl recipe_id recipe_title recipe_detail ingredient_cuisine_vertex
      user_vertex r cl' :
      store_built cl →
      GraphRecipeStore.add_recipe recipe_id recipe_title recipe_detail
        ingredient_cuisine_vertex user_vertex cl = Ok (r, cl') →
      store_built cl'.

(** A session with the store on a service without graphs: ann asks for
    egg and picks recipe 7 twice, then bob asks for egg. *)
Module Session.

Definition result {A} (d : A) (m : M A) (cl : Client) : A :=
  match m cl with
  | Ok (a, _) => a
  | Raise _ => d
  end.

Definition after {A} (m : M A) (cl : Client) : Client :=
  match m cl with
  | Ok (_, cl') => cl'
  | Raise _ => cl
  end.

Definition nobody : Vertex := new_Vertex "" ∅.

Definition cl0 : Client := mkClient ∅ "" [].
Definition cl1 : Client := after (GraphRecipeStore.init "recipes") cl0.
Definition add_ann : M Vertex := GraphRecipeStore.add_user (H := stable_order) "ann".
Definition ann : Vertex := result nobody add_ann cl1.
Definition cl2 : Client := after add_ann cl1.
Definition add_bob : M Vertex := GraphRecipeStore.add_user (H := stable_order) "bob".
Definition bob : Vertex := result nobody add_bob cl2.
Definition cl3 : Client := after add_bob cl2.
Definition ann_asks : M Vertex :=
  GraphRecipeStore.add_ingredient (H := stable_order) " Egg" "[]" ann.
Definition egg : Vertex := result nobody ann_asks cl3.
Definition cl4 : Client := after ann_asks cl3.
Definition ann_picks : M Vertex :=
  GraphRecipeStore.add_recipe (H := stable_order) (PInt 7) "Omelette" "beat, fry"
    (Some egg) ann.
Definition omelette : Vertex := result nobody ann_picks cl4.
Definition cl5 : Client := after ann_picks cl4.
Definition cl6 : Client := after ann_picks cl5.
Definition bob_asks : M Vertex :=
  GraphRecipeStore.add_ingredient (H := stable_order) "egg " "[]" bob.
Definition cl7 : Client := after bob_asks cl6.

End Session.

(** ** Notions used for the further properties *)

(** [c in s] for a character. *)
Fixpoint occurs (c : ascii) (s : string) : bool :=
  match s with
  | EmptyString => false
  | String c' s' => bool_decide (c' = c) || occurs c s'
  end.

(** Every character of [s] passes the test. *)
Fixpoint all_chars (P : ascii → bool) (s : string) : bool :=
  match s with
  | EmptyString => true
  | String c s' => P c && all_chars P s'
  end.

(** The characters of [str(n)] for an integer. *)
Definition decimal_char (c : ascii) : bool :=
  bool_decide (c ∈ ["0"; "1"; "2"; "3"; "4"; "5"; "6"; "7"; "8"; "9"; "-"]%char).

(** What identifies an edge and where it lies: all of it but its
    properties. *)
Definition edge_frame (e : Edge) : option Z * string * option Z * option Z :=
  (e_id e, e_label e, e_out_v e, e_in_v e).

(** The graph [g'] holds the vertices of [g], unchanged and in place,
    and the edges of [g] with their identifiers, labels and end points,
    maybe with new properties, followed by what is new. *)
Definition grows (g g' : GraphData) : Prop :=
  g_vertices g `prefix_of` g_vertices g'
  ∧ (edge_frame <$> g_edges g) `prefix_of` (edge_frame <$> g_edges g')
  ∧ g_next g ≤ g_next g'.

(** A computation that, when it returns, has let the selected graph
    grow and done nothing else to it. *)
Definition keeps {A} (m : M A) : Prop :=
  ∀ cl r cl' g, active_graph cl = Some g → m cl = Ok (r, cl') →
    ∃ g', active_graph cl' = Some g' ∧ grows g g'.

(** A computation that, when it returns, has sent one traversal and
    changed no graph. *)
Definition only_looks {A} (m : M A) : Prop :=
  ∀ cl r cl', m cl = Ok (r, cl') →
    c_graphs cl' = c_graphs cl ∧ c_active cl' = c_active cl
    ∧ ∃ q, c_calls cl' = c_calls cl ++ [CRunGremlinQuery q].

(** The sum of the user counts of a result. *)
Definition total_count (rs : list Recommendation) : Z :=
  foldr Z.add 0 (recommendedUserCount <$> rs).

(** The number of recipes of the given name among the recipes of the paths. *)
Definition paths_through (i : option PropVal) (vs : list Element) : nat :=
  length (filter (λ v, get_property_value v "name" = i) vs).

(** The names of the recipes of the paths, path by path. *)
Definition recipe_names (vs : list Element) : list (option PropVal) :=
  (λ v, get_property_value v "name") <$> vs.

(** What the result holds once the recipes [seen] have gone through:
    one entry for each name met, with the number of times it was met. *)
Definition tallies (seen : list Element) (rs : list Recommendation) : Prop :=
  NoDup (rc_id <$> rs)
  ∧ (∀ i, i ∈ rc_id <$> rs ↔ i ∈ recipe_names seen)
  ∧ Forall (λ r, recommendedUserCount r = Z.of_nat (paths_through (rc_id r) seen)) rs
  ∧ total_count rs = Z.of_nat (length seen).

(** A schema with at least one property key: what [init] takes for a
    schema that exists. *)
Definition has_schema (g : GraphData) : Prop :=
  ∃ s k keys, g_schema g = Some s ∧ property_keys s = Some (k :: keys).

(** ** More of Python's [str], for the orchestrator *)
Module PyText.

(** [s.startswith(p)] *)
Fixpoint startswith (p s : string) : bool :=
  match p, s with
  | EmptyString, _ => true
  | String a p', String b s' => bool_decide (a = b) && startswith p' s'
  | String _ _, EmptyString => false
  end.

(** [sub in s] *)
Fixpoint contains (sub s : string) : bool :=
  startswith sub s ||
  match s with
  | EmptyString => false
  | String _ s' => contains sub s'
  end.

(** The scan of [s.split(sep)] for a separator that is not empty: [acc]
    is the piece being read, [skip] the number of characters of a
    separator just met that are still to be passed over.  Separators
    are taken from the left and do not overlap. *)
Fixpoint split_scan (sep : string) (skip : nat) (acc : string) (s : string) : list string :=
  match s with
  | EmptyString => [acc]
  | String c s' =>
      match skip with
      | S k => split_scan sep k acc s'
      | O =>
          if startswith sep s
          then acc :: split_scan sep (String.length sep - 1) EmptyString s'
          else split_scan sep 0 (acc +:+ String c EmptyString) s'
      end
  end.

(** [s.split(sep)]: [None] stands for the [ValueError] that an empty
    separator raises. *)
Definition split (sep s : string) : option (list string) :=
  match sep with
  | EmptyString => None
  | _ => Some (split_scan sep 0 EmptyString s)
  end.

(** The line feed. *)
Definition nl : string := String "010"%char EmptyString.

(** [s[:-2]] *)
Definition but_last_two (s : string) : string :=
  substring 0 (String.length s - 2) s.

(** [s.isdigit()] for a byte string. *)
Definition is_digit (c : ascii) : bool :=
  let n := N_of_ascii c in ((48 <=? n) && (n <=? 57))%N.

Fixpoint all_digits (s : string) : bool :=
  match s with
  | EmptyString => true
  | String c s' => is_digit c && all_digits s'
  end.

Definition isdigit (s : string) : bool :=
  match s with
  | EmptyString => false
  | _ => all_digits s
  end.

(** [int(s)] for a string of digits, most significant digit first. *)
Fixpoint int_digits (acc : Z) (s : string) : Z :=
  match s with
  | EmptyString => acc
  | String c s' => int_digits (10 * acc + (Z.of_N (N_of_ascii c) - 48)) s'
  end.

Definition int_of_digits (s : string) : Z := int_digits 0 s.

(** [l[i]] for a Python integer: a negative index counts from the
    end. *)
Definition index {A} (l : list A) (i : Z) : option A :=
  if decide (0 ≤ i) then l !! Z.to_nat i
  else if decide (- Z.of_nat (length l) ≤ i) then l !! Z.to_nat (Z.of_nat (length l) + i)
  else None.

End PyText.


(** ** The orchestrator: [souschef/souschef.py], [class SousChef]

    Modelled from the spec: the chat service, the conversation service
    and the recipe service are not part of the repository, and neither is
    the class [UserState].  The answers of the services are functions of
    an outside world that they may change, and the constructor of
    [UserState] is given.  [recipe_graph] is the object that the
    constructor of the class receives; the one method that the class
    calls on it, [add_user_vertex], is a collaborator like the others
    (the store above has no method of this name).

    The JSON objects that the code reads are records of the keys it
    reads, with the types it uses them at; a key that may be absent is
    an option.  Texts are byte strings as in the store.  The calls to
    [print] are left out, and so is [run], the loop that reads the chat
    for ever and hands each message to [handle_message]. *)
Module SousChef.

(** What Python raises in this class. *)
Inductive Exn :=
  | KeyError (key : string)
  | IndexError
  | ValueError
  | AttributeError (name : string).

Inductive Outcome (A : Type) :=
  | Val (a : A)
  | Exc (e : Exn).

Arguments Val {A} a.
Arguments Exc {A} e.

(** One event of [slack_client.rtm_read()]: a dictionary, of which
    the keys [text], [user] and [channel] and the presence of
    [user_profile] are read.  An event that is [None] or empty has none of
    them. *)
Record SlackEvent := mkSlackEvent {
  ev_text : option string;
  ev_user_profile : bool;
  ev_user : option string;
  ev_channel : option string
}.

(** A recipe as the recipe service lists it. *)
Record RecipeSummary := mkRecipeSummary {
  rs_id : PropVal;
  rs_title : string
}.

(** [recipe_info] and [recipe_steps] of the recipe service. *)
Record RecipeInfo := mkRecipeInfo {
  readyInMinutes : Z;
  servings : Z;
  ri_title : string
}.

Record Equipment := mkEquipment { eq_name : string }.

Record RecipeStep := mkRecipeStep {
  st_equipment : list Equipment;
  st_step : string
}.

Record StepsGroup := mkStepsGroup { sg_steps : list RecipeStep }.

(** The context of the conversation: the keys that the class reads or
    writes. *)
Record Context := mkContext {
  is_favorites : option bool;
  is_ingredients : option bool;
  is_selection : option bool;
  get_recipes : option bool;
  recipes : option (list RecipeSummary);
  selection : option string;
  selection_valid : option bool
}.

(** The answer of the conversation service: [context], [entities]
    (entity and value of each) and [output.text]. *)
Record WatsonResponse := mkWatsonResponse {
  wr_context : Context;
  wr_entities : list (string * string);
  wr_output_text : list string
}.

Section orchestrator.

(** The outside world and the vertices of the recipe graph. *)
Variables (Ext V : Type).

(** The object of class [UserState]. *)
Record UserState := mkUserState {
  user_id : string;
  conversation_context : Context;
  user_vertex : option V
}.

(** The collaborators. *)
Record Services := mkServices {
  new_UserState : string → UserState;
  conversation_message : string → string → Context → Ext → WatsonResponse * Ext;
  find_by_ingredients : string → Ext → list RecipeSummary * Ext;
  find_by_cuisine : string → Ext → list RecipeSummary * Ext;
  get_info_by_id : PropVal → Ext → RecipeInfo * Ext;
  get_steps_by_id : PropVal → Ext → list StepsGroup * Ext;
  add_user_vertex : string → Ext → V * Ext
}.

(** The bot: [self.user_state_map], what it has posted to the chat
    service (channel and text), and the outside world. *)
Record Bot := mkBot {
  user_state_map : gmap string UserState;
  posted : list (string * string);
  ext : Ext
}.

(** A method of the bot.  What it has done before it raises stays
    done. *)
Definition SM (A : Type) : Type := Bot → Outcome A * Bot.

#[global] Instance SM_ret : MRet SM := λ A a b, (Val a, b).

#[global] Instance SM_bind : MBind SM := λ A B f m b,
  match m b with
  | (Val a, b') => f a b'
  | (Exc e, b') => (Exc e, b')
  end.

Definition throw {A} (e : Exn) : SM A := λ b, (Exc e, b).

(** [d[key]] *)
Definition item {A} (key : string) (x : option A) : SM A :=
  match x with
  | Some a => mret a
  | None => throw (KeyError key)
  end.

(** A call of a collaborator. *)
Definition call {A} (f : Ext → A * Ext) : SM A := λ b,
  (Val (f (ext b)).1, mkBot (user_state_map b) (posted b) (f (ext b)).2).

(** The [state] object of a user is shared with [self.user_state_map]:
    reading and writing it goes through the map. *)
Definition get_state (sender : string) : SM UserState := λ b,
  match user_state_map b !! sender with
  | Some st => (Val st, b)
  | None => (Exc (KeyError sender), b)
  end.

Definition set_state (sender : string) (st : UserState) : SM unit := λ b,
  (Val (), mkBot (<[sender := st]> (user_state_map b)) (posted b) (ext b)).

Definition set_context (sender : string) (ctx : Context) : SM unit :=
  st ← get_state sender;
  set_state sender (mkUserState (user_id st) ctx (user_vertex st)).

Definition get_context (sender : string) : SM Context :=
  st ← get_state sender; mret (conversation_context st).

Variable services : Services.
Variables (bot_id workspace_id : string).

(** [self.at_bot] *)
Definition at_bot : string := "<@" +:+ bot_id +:+ ">:".

(** [parse_slack_output] *)
Fixpoint parse_slack_output (slack_rtm_output : list SlackEvent)
    : Outcome (option (string * string * string)) :=
  match slack_rtm_output with
  | [] => Val None
  | output :: rest =>
      match ev_text output with
      | Some text =>
          if ev_user_profile output then parse_slack_output rest
          else if PyText.contains at_bot text then
            match PyText.split at_bot text with
            | None => Exc ValueError
            | Some pieces =>
                match pieces !! 1%nat with
                | None => Exc IndexError
                | Some piece =>
                    match ev_user output, ev_channel output with
                    | None, _ => Exc (KeyError "user")
                    | Some _, None => Exc (KeyError "channel")
                    | Some user, Some channel =>
                        Val (Some (PyStr.lower (PyStr.strip piece), user, channel))
                    end
                end
            end
          else
            match ev_user output, ev_channel output with
            | None, _ => Exc (KeyError "user")
            | Some _, None => Exc (KeyError "channel")
            | Some user, Some channel => Val (Some (PyStr.lower text, user, channel))
            end
      | None => parse_slack_output rest
      end
  end.

(** [post_to_slack] *)
Definition post_to_slack (response channel : string) : SM unit := λ b,
  (Val (), mkBot (user_state_map b) (posted b ++ [(channel, response)]) (ext b)).

(** The inner loop of [make_formatted_steps], over the equipment of a
    step. *)
Definition equipment_loop (equipment : list Equipment) : string :=
  fold_left (λ equip_str e, equip_str +:+ eq_name e +:+ ", ") equipment "".

Definition equipment_str (equipment : list Equipment) : string :=
  let equip_str := equipment_loop equipment in
  if decide (equip_str = "") then "None" else PyText.but_last_two equip_str.

(** The outer loop, with the index of [enumerate]. *)
Fixpoint steps_loop (i : nat) (steps : list RecipeStep) (response : string) : string :=
  match steps with
  | [] => response
  | r_step :: rest =>
      steps_loop (S i) rest
        (response +:+ ("*Step " +:+ PyStr.str_of_int (Z.of_nat i + 1) +:+ "*:" +:+ PyText.nl
                       +:+ "_Equipment_: " +:+ equipment_str (st_equipment r_step) +:+ PyText.nl
                       +:+ "_Action_: " +:+ st_step r_step +:+ PyText.nl +:+ PyText.nl))
  end.

(** [make_formatted_steps] *)
Definition make_formatted_steps (recipe_info : RecipeInfo) (recipe_steps : list StepsGroup)
    : string :=
  let response :=
    "Ok, it takes *" +:+ PyStr.str_of_int (readyInMinutes recipe_info)
    +:+ "* minutes to make *" +:+ PyStr.str_of_int (servings recipe_info)
    +:+ "* servings of *" +:+ ri_title recipe_info +:+ "*. Here are the steps:"
    +:+ PyText.nl +:+ PyText.nl in
  let response :=
    match recipe_steps with
    | group :: _ =>
        match sg_steps group with
        | _ :: _ => steps_loop 0 (sg_steps group) response
        | [] => response +:+ "_No instructions available for this recipe._"
                         +:+ PyText.nl +:+ PyText.nl
        end
    | [] => response +:+ "_No instructions available for this recipe._"
                     +:+ PyText.nl +:+ PyText.nl
    end in
  response +:+ "*Say anything to me to start over...*".

(** [handle_start_message] *)
Definition handle_start_message (sender : string) (watson_response : WatsonResponse)
    : SM string :=
  state ← get_state sender;
  _ ← match user_vertex state with
      | None =>
          v ← call (add_user_vertex services (user_id state));
          set_state sender (mkUserState (user_id state) (conversation_context state) (Some v))
      | Some _ => mret ()
      end;
  mret (fold_left (λ response text, response +:+ text +:+ PyText.nl)
          (wr_output_text watson_response) "").

(** The loop that lists the recipes, with the index of [enumerate]. *)
Fixpoint recipes_loop (i : nat) (l : list RecipeSummary) (response : string) : string :=
  match l with
  | [] => response
  | recipe :: rest =>
      recipes_loop (S i) rest
        (response +:+ PyStr.str_of_int (Z.of_nat i + 1) +:+ ". " +:+ rs_title recipe
         +:+ PyText.nl)
  end.

Definition recipes_response (l : list RecipeSummary) : string :=
  recipes_loop 0 l ("Lets see here..." +:+ PyText.nl
                    +:+ "I've found these recipes: " +:+ PyText.nl)
  +:+ PyText.nl +:+ "Please enter the corresponding number of your choice.".

Definition with_recipes (ctx : Context) (l : list RecipeSummary) : Context :=
  mkContext (is_favorites ctx) (is_ingredients ctx) (is_selection ctx) (get_recipes ctx)
    (Some l) (selection ctx) (selection_valid ctx).

Definition with_selection_valid (ctx : Context) (v : bool) : Context :=
  mkContext (is_favorites ctx) (is_ingredients ctx) (is_selection ctx) (get_recipes ctx)
    (recipes ctx) (selection ctx) (Some v).

(** [handle_ingredients_message] *)
Definition handle_ingredients_message (sender message : string) : SM string :=
  ctx ← get_context sender;
  get ← item "get_recipes" (get_recipes ctx);
  _ ← (if get : bool then
         l ← call (find_by_ingredients services message);
         set_context sender (with_recipes ctx l)
       else mret ());
  ctx ← get_context sender;
  l ← item "recipes" (recipes ctx);
  mret (recipes_response l).

(** [handle_cuisine_message] *)
Definition handle_cuisine_message (sender cuisine : string) : SM string :=
  ctx ← get_context sender;
  get ← item "get_recipes" (get_recipes ctx);
  _ ← (if get : bool then
         l ← call (find_by_cuisine services cuisine);
         set_context sender (with_recipes ctx l)
       else mret ());
  ctx ← get_context sender;
  l ← item "recipes" (recipes ctx);
  mret (recipes_response l).

(** [handle_selection_message] *)
Definition handle_selection_message (sender : string) (selection : Z) : SM string :=
  ctx ← get_context sender;
  l ← item "recipes" (recipes ctx);
  recipe ← match PyText.index l (selection - 1) with
           | Some r => mret r
           | None => throw IndexError
           end;
  let recipe_id := rs_id recipe in
  recipe_info ← call (get_info_by_id services recipe_id);
  recipe_steps ← call (get_steps_by_id services recipe_id);
  mret (make_formatted_steps recipe_info recipe_steps).

(** The test ['k' in d.keys() and d['k']]. *)
Definition flag (x : option bool) : bool := default false x.

(** The branches of [handle_message].  The class has no method
    [handle_favorites_message]: looking it up raises. *)
Definition dispatch (message message_sender : string) (watson_response : WatsonResponse)
    (ctx : Context) : SM string :=
  if flag (is_favorites ctx) then throw (AttributeError "handle_favorites_message")
  else if flag (is_ingredients ctx) then handle_ingredients_message message_sender message
  else if flag (is_selection ctx) then
    _ ← set_context message_sender (with_selection_valid ctx false);
    ctx ← get_context message_sender;
    sel ← item "selection" (selection ctx);
    if PyText.isdigit sel then
      let selection := PyText.int_of_digits sel in
      if bool_decide (1 ≤ selection) && bool_decide (selection ≤ 5) then
        _ ← set_context message_sender (with_selection_valid ctx true);
        handle_selection_message message_sender selection
      else mret ("Invalid selection! " +:+ "Say anything to see your choices again...")
    else mret ("Invalid selection! " +:+ "Say anything to see your choices again...")
  else
    match wr_entities watson_response with
    | (entity, value) :: _ =>
        if decide (entity = "cuisine") then handle_cuisine_message message_sender value
        else handle_start_message message_sender watson_response
    | [] => handle_start_message message_sender watson_response
    end.

(** [handle_message] *)
Definition handle_message (message message_sender channel : string) : SM unit :=
  _ ← (λ b, match user_state_map b !! message_sender with
            | Some _ => (Val (), b)
            | None => set_state message_sender (new_UserState services message_sender) b
            end);
  state ← get_state message_sender;
  watson_response ←
    call (conversation_message services workspace_id message (conversation_context state));
  _ ← set_context message_sender (wr_context watson_response);
  ctx ← get_context message_sender;
  response ← dispatch message message_sender watson_response ctx;
  post_to_slack response channel.

End orchestrator.

Arguments mkUserState {V} _ _ _.
Arguments user_id {V} _.
Arguments conversation_context {V} _.
Arguments user_vertex {V} _.
Arguments mkBot {Ext V} _ _ _.
Arguments user_state_map {Ext V} _.
Arguments posted {Ext V} _.
Arguments ext {Ext V} _.
Arguments new_UserState {Ext V} _ _.
Arguments conversation_message {Ext V} _ _ _ _ _.
Arguments find_by_ingredients {Ext V} _ _ _.
Arguments find_by_cuisine {Ext V} _ _ _.
Arguments get_info_by_id {Ext V} _ _ _.
Arguments get_steps_by_id {Ext V} _ _ _.
Arguments add_user_vertex {Ext V} _ _ _.
Arguments throw {Ext V A} _ _.
Arguments item {Ext V A} _ _ _.
Arguments call {Ext V A} _ _.
Arguments get_state {Ext V} _ _.
Arguments set_state {Ext V} _ _ _.
Arguments set_context {Ext V} _ _ _.
Arguments get_context {Ext V} _ _.
Arguments post_to_slack {Ext V} _ _ _.
Arguments handle_start_message {Ext V} _ _ _ _.
Arguments handle_ingredients_message {Ext V} _ _ _ _.
Arguments handle_cuisine_message {Ext V} _ _ _ _.
Arguments handle_selection_message {Ext V} _ _ _ _.
Arguments dispatch {Ext V} _ _ _ _ _ _.
Arguments handle_message {Ext V} _ _ _ _ _ _.

End SousChef.

(** ** Notions used to state the properties of the orchestrator *)

(** The strings of a list, one after the other. *)
Definition concat_str (l : list string) : string := foldr String.append "" l.

Module SousChefNotions.
Import SousChef.

(** An event that [parse_slack_output] stops at: it has a text and no
    user profile. *)
Definition eligible (ev : SlackEvent) : Prop :=
  is_Some (ev_text ev) ∧ ev_user_profile ev = false.

(** The equipment of a step as the message shows it. *)
Definition equipment_text (equipment : list Equipment) : string :=
  match equipment with
  | [] => "None"
  | _ => PyStr.join ", " (eq_name <$> equipment)
  end.

(** The lines of the step with index [i]. *)
Definition step_block (i : nat) (r_step : RecipeStep) : string :=
  "*Step " +:+ PyStr.str_of_int (Z.of_nat i + 1) +:+ "*:" +:+ PyText.nl
  +:+ "_Equipment_: " +:+ equipment_text (st_equipment r_step) +:+ PyText.nl
  +:+ "_Action_: " +:+ st_step r_step +:+ PyText.nl +:+ PyText.nl.

Definition steps_header (recipe_info : RecipeInfo) : string :=
  "Ok, it takes *" +:+ PyStr.str_of_int (readyInMinutes recipe_info)
  +:+ "* minutes to make *" +:+ PyStr.str_of_int (servings recipe_info)
  +:+ "* servings of *" +:+ ri_title recipe_info +:+ "*. Here are the steps:"
  +:+ PyText.nl +:+ PyText.nl.

Definition no_instructions : string :=
  "_No instructions available for this recipe._" +:+ PyText.nl +:+ PyText.nl.

Definition steps_footer : string := "*Say anything to me to start over...*".

(** The line of the recipe with index [i] in a list of recipes. *)
Definition recipe_line (i : nat) (recipe : RecipeSummary) : string :=
  PyStr.str_of_int (Z.of_nat i + 1) +:+ ". " +:+ rs_title recipe +:+ PyText.nl.

Definition recipes_header : string :=
  "Lets see here..." +:+ PyText.nl +:+ "I've found these recipes: " +:+ PyText.nl.

Definition recipes_footer : string :=
  PyText.nl +:+ "Please enter the corresponding number of your choice.".


Section notions.
Context {Ext V : Type}.
Variable services : Services Ext V.
Variable workspace_id : string.

(** The state of a user when a message of theirs comes in: the one
    in the map, or a new one. *)
Definition state_of (sender : string) (b : Bot Ext V) : UserState V :=
  default (new_UserState services sender) (user_state_map b !! sender).

(** What the conversation service answers to the message, and the
    outside world after that. *)
Definition heard (message sender : string) (b : Bot Ext V) : WatsonResponse * Ext :=
  conversation_message services workspace_id message
    (conversation_context (state_of sender b)) (ext b).

(** The bot once the context of the answer is the context of the
    user. *)
Definition answered (message sender : string) (b : Bot Ext V) (ctx : Context) : Bot Ext V :=
  mkBot (<[sender := mkUserState (user_id (state_of sender b)) ctx
                       (user_vertex (state_of sender b))]> (user_state_map b))
    (posted b) (heard message sender b).2.

Definition invalid_selection : string :=
  "Invalid selection! " +:+ "Say anything to see your choices again...".

(** A selection that [handle_message] accepts. *)
Definition valid_selection (sel : string) : Prop :=
  PyText.isdigit sel = true ∧ 1 ≤ PyText.int_of_digits sel ≤ 5.

(** The bot has posted nothing more and has left the other users
    alone. *)
Definition frame (sender : string) (b b' : Bot Ext V) : Prop :=
  posted b' = posted b
  ∧ (∀ other, other ≠ sender → user_state_map b' !! other = user_state_map b !! other)
  ∧ (is_Some (user_state_map b !! sender) → is_Some (user_state_map b' !! sender)).

(** A computation that posts nothing and leaves the other users
    alone. *)
Definition local {A} (sender : string) (m : SM Ext V A) : Prop :=
  ∀ b, frame sender b (m b).2.

End notions.
End SousChefNotions.

(** ** A chat for examples

    The outside world is the number of calls made so far.  The
    conversation service takes "favorites" for a request of the
    favourites and any other message for the choice of a recipe out of
    two. *)
Module DemoChat.
Import SousChef.

Definition soup : RecipeSummary := mkRecipeSummary (PInt 11) "Soup".
Definition stew : RecipeSummary := mkRecipeSummary (PInt 12) "Stew".

Definition no_context : Context := mkContext None None None None None None None.

Definition context_of (text : string) : Context :=
  if decide (text = "favorites")
  then mkContext (Some true) None None None None None None
  else mkContext None None (Some true) (Some false) (Some [soup; stew]) (Some text) None.

Definition stew_steps : list StepsGroup :=
  [mkStepsGroup [mkRecipeStep [mkEquipment "pot"; mkEquipment "spoon"] "Boil.";
                 mkRecipeStep [] "Serve."]].

Definition services : Services nat Z :=
  mkServices nat Z
    (λ sender, mkUserState sender no_context None)
    (λ _ text _ n, (mkWatsonResponse (context_of text) [] ["Hi"; "there"], S n))
    (λ _ n, ([soup; stew], S n))
    (λ _ n, ([stew], S n))
    (λ _ n, (mkRecipeInfo 30 4 "Stew", S n))
    (λ _ n, (stew_steps, S n))
    (λ _ n, (7, S n)).

Definition bot : Bot nat Z := mkBot ∅ [] 0%nat.

(** ann, who asks for recipes, and bob, whose recipes are in place. *)
Definition asking : Context :=
  mkContext None (Some true) None (Some true) None None None.
Definition listed : Context :=
  mkContext None (Some true) None (Some false) (Some [soup; stew]) None None.

Definition ann_bob : Bot nat Z :=
  mkBot {[ "ann" := mkUserState "ann" asking None;
           "bob" := mkUserState "bob" listed (Some 3) ]} [] 0%nat.

(** A conversation service that takes a message with "thai" for a
    cuisine and any other message for ingredients. *)
Definition cook : Services nat Z :=
  mkServices nat Z
    (λ sender, mkUserState sender no_context None)
    (λ _ text _ n,
       (if PyText.contains "thai" text
        then mkWatsonResponse (mkContext None None None (Some true) None None None)
               [("cuisine", "thai"); ("time", "now")] ["Thai it is"]
        else mkWatsonResponse asking [] ["Let me look"], S n))
    (λ _ n, ([soup; stew], S n))
    (λ _ n, ([stew], S n))
    (λ _ n, (mkRecipeInfo 30 4 "Stew", S n))
    (λ _ n, (stew_steps, S n))
    (λ _ n, (7, S n)).

End DemoChat.

(* ===================================================================== *)
(** * Properties *)
(* ===================================================================== *)

(** ** The key normaliser *)
Module PyStrFacts.
Import PyStr.

Lemma lower_char_space c : Ascii.is_space (lower_char c) = Ascii.is_space c.
Proof. by destruct c as [[] [] [] [] [] [] [] []]. Qed.

Lemma lower_char_comma c : lower_char c = ","%char ↔ c = ","%char.
Proof. destruct c as [[] [] [] [] [] [] [] []]; vm_compute; split; congruence. Qed.

Lemma lower_lstrip s : lstrip (lower s) = lower (lstrip s).
Proof.
  induction s as [|c s IH]; [done|].
  cbn [lower lstrip]. rewrite lower_char_space.
  by destruct (Ascii.is_space c).
Qed.

Lemma lower_rstrip s : rstrip (lower s) = lower (rstrip s).
Proof.
  induction s as [|c s IH]; [done|].
  cbn [lower rstrip]. rewrite IH, lower_char_space.
  destruct (rstrip s); [|done].
  by destruct (Ascii.is_space c).
Qed.

Lemma lower_strip s : strip (lower s) = lower (strip s).
Proof. unfold strip. by rewrite lower_lstrip, lower_rstrip. Qed.

Lemma lower_cons_head c l : cons_head (lower_char c) (lower <$> l) = lower <$> cons_head c l.
Proof. by destruct l. Qed.

Lemma lower_split s : split "," (lower s) = lower <$> split "," s.
Proof.
  induction s as [|c s IH]; [done|].
  cbn [lower split]. rewrite IH.
  destruct (decide (c = ","%char)) as [->|Hc].
  - done.
  - rewrite decide_False by (by rewrite lower_char_comma).
    apply lower_cons_head.
Qed.

(** [rstrip], one character at a time. *)
Lemma rstrip_cons c s :
  rstrip (String c s) =
    if Ascii.is_space c && bool_decide (rstrip s = EmptyString)
    then EmptyString else String c (rstrip s).
Proof.
  cbn [rstrip]. destruct (rstrip s); [|by rewrite andb_false_r].
  by destruct (Ascii.is_space c).
Qed.

Lemma rstrip_idemp s : rstrip (rstrip s) = rstrip s.
Proof.
  induction s as [|c s IH]; [done|].
  rewrite rstrip_cons.
  destruct (Ascii.is_space c) eqn:Hc; cbn [andb].
  - case_bool_decide as Hs; [done|].
    rewrite rstrip_cons, IH, Hc. cbn [andb]. by rewrite bool_decide_eq_false_2.
  - rewrite rstrip_cons, IH, Hc. done.
Qed.

Lemma lstrip_idemp s : lstrip (lstrip s) = lstrip s.
Proof.
  induction s as [|c s IH]; [done|].
  cbn [lstrip]. destruct (Ascii.is_space c) eqn:Hc; [done|].
  cbn [lstrip]. by rewrite Hc.
Qed.

(** The two ends are stripped independently. *)
Lemma lstrip_rstrip s : lstrip (rstrip s) = rstrip (lstrip s).
Proof.
  induction s as [|c s IH]; [done|].
  rewrite rstrip_cons. cbn [lstrip].
  destruct (Ascii.is_space c) eqn:Hc; cbn [andb].
  - case_bool_decide as Hs.
    + rewrite <-IH, Hs. done.
    + cbn [lstrip]. by rewrite Hc.
  - cbn [lstrip]. rewrite Hc. rewrite rstrip_cons, Hc. done.
Qed.

Lemma strip_lstrip s : strip (lstrip s) = strip s.
Proof. unfold strip. by rewrite lstrip_idemp. Qed.

Lemma strip_rstrip s : strip (rstrip s) = strip s.
Proof. unfold strip. by rewrite lstrip_rstrip, rstrip_idemp. Qed.

End PyStrFacts.

Module SplitFacts.
Import PyStr PyStrFacts.

Lemma split_nonempty sep s : ∃ t ts, split sep s = t :: ts.
Proof.
  destruct s as [|c s]; [by eexists _, _|].
  cbn [split]. case_decide; [by eexists _, _|].
  destruct (split sep s); by eexists _, _.
Qed.

Lemma split_singleton_empty sep s : split sep s = [EmptyString] → s = EmptyString.
Proof.
  destruct s as [|c s]; [done|].
  cbn [split]. case_decide.
  - destruct (split_nonempty sep s) as (t & ts & ->). done.
  - by destruct (split sep s).
Qed.

Lemma split_lstrip s : split "," (lstrip s) = apply_head lstrip (split "," s).
Proof.
  induction s as [|c s IH]; [done|].
  cbn [lstrip split].
  destruct (Ascii.is_space c) eqn:Hc.
  - rewrite decide_False by (intros ->; done).
    rewrite IH. destruct (split_nonempty "," s) as (t & ts & ->).
    cbn. by rewrite Hc.
  - cbn [split]. case_decide; [done|].
    destruct (split_nonempty "," s) as (t & ts & ->).
    cbn. by rewrite Hc.
Qed.

Lemma split_rstrip s : split "," (rstrip s) = apply_last rstrip (split "," s).
Proof.
  induction s as [|c s IH]; [done|].
  rewrite rstrip_cons.
  destruct (Ascii.is_space c && bool_decide (rstrip s = EmptyString)) eqn:Hcs.
  - apply andb_true_iff in Hcs as [Hc Hs%bool_decide_eq_true].
    rewrite Hs in IH. cbn [split] in *.
    rewrite decide_False by (intros ->; done).
    destruct (split "," s) as [|t [|t2 ts]]; [done| |by destruct ts].
    cbn in IH. injection IH as Ht.
    cbn [cons_head apply_last]. by rewrite rstrip_cons, Hc, <-Ht.
  - cbn [split]. destruct (decide (c = ","%char)) as [->|Hne].
    + rewrite IH. by destruct (split_nonempty "," s) as (t & ts & ->).
    + rewrite IH. destruct (split_nonempty "," s) as (t & ts & Hsp).
      rewrite Hsp in *. destruct ts as [|t2 ts]; [|done].
      cbn [cons_head apply_last]. rewrite rstrip_cons.
      destruct (Ascii.is_space c && bool_decide (rstrip t = EmptyString)) eqn:Hct; [|done].
      apply andb_true_iff in Hct as [Hc Ht%bool_decide_eq_true].
      cbn in IH. rewrite Ht in IH. apply split_singleton_empty in IH.
      by rewrite Hc, IH in Hcs.
Qed.

Lemma strip_apply_head l : strip <$> apply_head lstrip l = strip <$> l.
Proof. destruct l; [done|]. cbn. by rewrite strip_lstrip. Qed.

Lemma strip_apply_last l : strip <$> apply_last rstrip l = strip <$> l.
Proof.
  induction l as [|t [|t2 ts] IH]; [done| |].
  - cbn. by rewrite strip_rstrip.
  - change (apply_last rstrip (t :: t2 :: ts)) with (t :: apply_last rstrip (t2 :: ts)).
    rewrite !(fmap_cons _ t). by rewrite IH.
Qed.

(** Stripping the whole string before it is split changes nothing once
    every piece is stripped. *)
Lemma strip_split_strip s : strip <$> split "," (strip s) = strip <$> split "," s.
Proof.
  unfold strip at 2.
  by rewrite split_rstrip, strip_apply_last, split_lstrip, strip_apply_head.
Qed.

End SplitFacts.

Section normaliser.
Import PyStr PyStrFacts SplitFacts GraphRecipeStore.

(** The pieces that the code sorts are the normalised pieces of the raw
    string: lower-casing and stripping the whole string first does not
    change them. *)
Lemma code_tokens s :
  strip <$> split "," (strip (lower s)) = ingredient_tokens s.
Proof.
  rewrite strip_split_strip, lower_split. unfold ingredient_tokens.
  rewrite <-list_fmap_compose. done.
Qed.

Lemma get_unique_ingredients_name_tokens s :
  get_unique_ingredients_name s = join "," (sort (ingredient_tokens s)).
Proof. unfold get_unique_ingredients_name. by rewrite code_tokens. Qed.

Lemma sort_Permutation_eq (l1 l2 : list string) : l1 ≡ₚ l2 → sort l1 = sort l2.
Proof.
  intros Hp. apply (Sorted_unique String.le).
  - apply Sorted_merge_sort, _.
  - apply Sorted_merge_sort, _.
  - unfold sort. by rewrite !merge_sort_Permutation.
Qed.

(** C3: raw ingredient strings whose comma-separated pieces agree up to
    order, letter case and surrounding white space get the same key; the
    key is the ascending sorted list of the normalised pieces joined by
    single commas; "Egg, Flour" and "flour,egg" both give "egg,flour"; a
    string that is empty once stripped gives the empty key. *)
Theorem get_unique_ingredients_name_canonical :
  (∀ s1 s2, ingredient_tokens s1 ≡ₚ ingredient_tokens s2 →
     get_unique_ingredients_name s1 = get_unique_ingredients_name s2)
  ∧ (∀ s, ∃ l, Sorted String.le l ∧ l ≡ₚ ingredient_tokens s
            ∧ get_unique_ingredients_name s = join "," l)
  ∧ get_unique_ingredients_name "Egg, Flour" = "egg,flour"
  ∧ get_unique_ingredients_name "flour,egg" = "egg,flour"
  ∧ (∀ s, strip s = "" → get_unique_ingredients_name s = "").
Proof.
  split_and!.
  - intros s1 s2 Hp. rewrite !get_unique_ingredients_name_tokens.
    by rewrite (sort_Permutation_eq _ _ Hp).
  - intros s. exists (sort (ingredient_tokens s)). split_and!.
    + apply Sorted_merge_sort, _.
    + apply merge_sort_Permutation.
    + apply get_unique_ingredients_name_tokens.
  - by vm_compute.
  - by vm_compute.
  - intros s Hs. unfold get_unique_ingredients_name.
    by rewrite lower_strip, Hs.
Qed.

(** The two spellings of the example are variants of each other, and
    the theorem gives them one key. *)
Lemma get_unique_ingredients_name_canonical_witness :
  ingredient_tokens "Egg, Flour" ≡ₚ ingredient_tokens "flour,egg"
  ∧ get_unique_ingredients_name "Egg, Flour" = get_unique_ingredients_name "flour,egg".
Proof.
  assert (ingredient_tokens "Egg, Flour" ≡ₚ ingredient_tokens "flour,egg") as Hp.
  { vm_compute. apply perm_swap. }
  split; [exact Hp|].
  exact (proj1 get_unique_ingredients_name_canonical _ _ Hp).
Defined.

End normaliser.

(** ** The client monad *)

Lemma bind_Ok {A B} (m : M A) (f : A → M B) cl a cl' :
  m cl = Ok (a, cl') → (m ≫= f) cl = f a cl'.
Proof. intros Hm. unfold mbind, M_bind. by rewrite Hm. Qed.

Lemma ret_bind {A B} (a : A) (f : A → M B) cl : (mret a ≫= f) cl = f a cl.
Proof. done. Qed.

Lemma bind_Raise {A B} (m : M A) (f : A → M B) cl e :
  m cl = Raise e → (m ≫= f) cl = Raise e.
Proof. intros Hm. unfold mbind, M_bind. by rewrite Hm. Qed.

Lemma bind_inv {A B} (m : M A) (f : A → M B) cl b cl'' :
  (m ≫= f) cl = Ok (b, cl'') → ∃ a cl', m cl = Ok (a, cl') ∧ f a cl' = Ok (b, cl'').
Proof.
  unfold mbind, M_bind. destruct (m cl) as [[a cl']|e]; [|done].
  intros Hf. by exists a, cl'.
Qed.

Lemma on_active_Ok {A} c (f : GraphData → Result (A * GraphData)) cl g a g' :
  active_graph cl = Some g → f g = Ok (a, g') → on_active c f cl = Ok (a, stored c g' cl).
Proof. intros Hg Hf. unfold on_active. by rewrite Hg, Hf. Qed.

Lemma on_active_inv {A} c (f : GraphData → Result (A * GraphData)) cl a cl' :
  on_active c f cl = Ok (a, cl') →
  ∃ g g', active_graph cl = Some g ∧ f g = Ok (a, g') ∧ cl' = stored c g' cl.
Proof.
  unfold on_active. destruct (active_graph cl) as [g|]; [|done].
  destruct (f g) as [[a' g']|e] eqn:Hf; [|done].
  intros [= <- <-]. by exists g, g'.
Qed.

Lemma stored_same c g cl : active_graph cl = Some g → stored c g cl = logged c cl.
Proof. intros Hg. unfold stored, logged. f_equal. by apply insert_id. Qed.

Lemma active_graph_stored c g cl : active_graph (stored c g cl) = Some g.
Proof. unfold active_graph, stored. cbn. apply lookup_insert_eq. Qed.

Lemma active_graph_logged c cl : active_graph (logged c cl) = active_graph cl.
Proof. done. Qed.

Section client_facts.
Context `{!GremlinOrder}.

Lemma run_gremlin_query_Ok q cl g r :
  active_graph cl = Some g → eval_query g q = Ok r →
  run_gremlin_query q cl = Ok (r, logged (CRunGremlinQuery q) cl).
Proof.
  intros Hg Hq. unfold run_gremlin_query.
  erewrite on_active_Ok; [|done|by rewrite Hq].
  by rewrite stored_same.
Qed.

Lemma run_gremlin_query_inv q cl r cl' :
  run_gremlin_query q cl = Ok (r, cl') →
  ∃ g, active_graph cl = Some g ∧ eval_query g q = Ok r
       ∧ cl' = logged (CRunGremlinQuery q) cl.
Proof.
  intros (g & g' & Hg & Hf & ->)%on_active_inv.
  destruct (eval_query g q) as [r'|] eqn:Hq; [|done].
  cbn in Hf. injection Hf as <- <-.
  exists g. by rewrite stored_same.
Qed.

End client_facts.

(** ** The recommendation reducer *)
Section reducer.
Import GraphRecipeStore.
Context `{!GremlinOrder}.

Lemma rc_id_bump i r : rc_id (bump i r) = rc_id r.
Proof. unfold bump. by case_decide. Qed.

Lemma ids_bump i (rs : list Recommendation) : rc_id <$> (bump i <$> rs) = rc_id <$> rs.
Proof.
  rewrite <-list_fmap_compose. apply list_fmap_ext.
  intros _ r _. apply rc_id_bump.
Qed.

Lemma bump_absent i (rs : list Recommendation) : i ∉ rc_id <$> rs → bump i <$> rs = rs.
Proof.
  induction rs as [|r rs IH]; [done|].
  rewrite fmap_cons, not_elem_of_cons. intros [Hr Hrs].
  rewrite fmap_cons, IH by done. unfold bump. by rewrite decide_False.
Qed.

(** The first entry with an identifier is the only one when no
    identifier is listed twice, so changing the dictionary that [filter]
    finds first changes "the" entry of the recipe. *)
Lemma increment_first_bump i (rs : list Recommendation) :
  NoDup (rc_id <$> rs) → increment_first i rs = bump i <$> rs.
Proof.
  induction rs as [|r rs IH]; [done|].
  rewrite fmap_cons, NoDup_cons. intros [Hr Hrs].
  cbn [increment_first]. rewrite fmap_cons. unfold bump at 1.
  case_decide as Hi.
  - subst i. by rewrite bump_absent.
  - by rewrite IH.
Qed.

Lemma filter_id_length i (rs : list Recommendation) :
  length (filter (λ x, rc_id x = i) rs) = 0%nat ↔ i ∉ rc_id <$> rs.
Proof.
  induction rs as [|r rs IH].
  - split; [intros _; apply not_elem_of_nil|done].
  - rewrite fmap_cons, not_elem_of_cons, filter_cons. case_decide as Hr.
    + split; [done|]. intros [Hne _]. by destruct Hne.
    + rewrite IH. split; [done|]. by intros [_ ?].
Qed.

(** One turn of the loop does what the design says, as long as no
    identifier is listed twice. *)
Lemma recommend_step_reduce count rs p v cl :
  path_recipe p = Some v → NoDup (rc_id <$> rs) →
  recommend_step count rs p cl = Ok (reduce_step count rs v, cl).
Proof.
  intros Hp Hnd. unfold recommend_step, reduce_step.
  destruct p as [x|objects]; [done|]. cbn in Hp.
  unfold path_object. rewrite Hp, ret_bind.
  case_bool_decide as Hlen.
  - apply filter_id_length in Hlen. rewrite decide_False by done.
    destruct (Z.geb_spec (Z.of_nat (length rs)) count).
    + by rewrite decide_False by lia.
    + by rewrite decide_True by lia.
  - rewrite filter_id_length in Hlen. apply dec_stable in Hlen.
    rewrite decide_True by done. by rewrite increment_first_bump.
Qed.

Lemma reduce_step_NoDup limit rs v :
  NoDup (rc_id <$> rs) → NoDup (rc_id <$> reduce_step limit rs v).
Proof.
  intros Hnd. unfold reduce_step. case_decide as Hin.
  - by rewrite ids_bump.
  - case_decide; [|done].
    rewrite fmap_app. apply NoDup_app. split_and!; [done| |apply NoDup_singleton].
    intros i Hi ->%list_elem_of_singleton. done.
Qed.

Lemma reduce_step_length limit rs v :
  (length rs ≤ length (reduce_step limit rs v))%nat.
Proof.
  unfold reduce_step. repeat case_decide.
  - by rewrite length_fmap.
  - rewrite length_app. lia.
  - done.
Qed.

(** Once the list is full the listed recipes never change. *)
Lemma reduce_step_full limit rs v :
  ¬ Z.of_nat (length rs) < limit →
  rc_id <$> reduce_step limit rs v = rc_id <$> rs
  ∧ length (reduce_step limit rs v) = length rs.
Proof.
  intros Hfull. unfold reduce_step. case_decide.
  - by rewrite ids_bump, length_fmap.
  - by rewrite decide_False.
Qed.

Lemma fold_reduce_step_full limit vs rs :
  ¬ Z.of_nat (length rs) < limit →
  rc_id <$> fold_left (reduce_step limit) vs rs = rc_id <$> rs.
Proof.
  revert rs. induction vs as [|v vs IH]; intros rs Hfull; [done|].
  cbn [fold_left]. destruct (reduce_step_full limit rs v Hfull) as [Hids Hlen].
  rewrite IH, Hids; [done|]. by rewrite Hlen.
Qed.

Lemma fold_reduce_step_NoDup limit vs rs :
  NoDup (rc_id <$> rs) → NoDup (rc_id <$> fold_left (reduce_step limit) vs rs).
Proof.
  revert rs. induction vs as [|v vs IH]; intros rs Hnd; [done|].
  cbn [fold_left]. by apply IH, reduce_step_NoDup.
Qed.

Lemma recommend_loop_reduce count rs paths vs cl :
  Forall2 (λ p v, path_recipe p = Some v) paths vs →
  NoDup (rc_id <$> rs) →
  recommend_loop count rs paths cl = Ok (fold_left (reduce_step count) vs rs, cl).
Proof.
  intros Hall. revert rs. induction Hall as [|p v paths vs Hp Hall IH]; intros rs Hnd.
  - done.
  - cbn [recommend_loop fold_left].
    erewrite bind_Ok by by apply recommend_step_reduce.
    by apply IH, reduce_step_NoDup.
Qed.

End reducer.

Section reducer_claim.
Import GraphRecipeStore.

(** C1: [get_recommended_recipes] takes the pairs of the traversal in
    the order they arrive.  A pair whose recipe is listed adds one to
    the count of that (single) entry, whatever the length of the list; a
    pair whose recipe is not listed is appended with count 1 while fewer
    than [count] recipes are listed and is dropped otherwise, and a
    recipe dropped from a full list never gets in later.  The order
    X, Y, X, Z with limit 2 gives X with 2 and Y with 1. *)
Theorem get_recommended_recipes_streaming_cap `{!GremlinOrder}
    (query : Query) (count : Z) (cl : Client) (g : GraphData)
    (paths : list Response) (vs : list Element) :
  active_graph cl = Some g →
  eval_query g query = Ok paths →
  Forall2 (λ p v, path_recipe p = Some v) paths vs →
  get_recommended_recipes query count cl
    = Ok (reduce count vs, logged (CRunGremlinQuery query) cl)
  ∧ (∀ seen v, reduce count (seen ++ [v]) = reduce_step count (reduce count seen) v)
  ∧ NoDup (rc_id <$> reduce count vs)
  ∧ (∀ seen v later, vs = seen ++ v :: later →
       get_property_value v "name" ∉ rc_id <$> reduce count seen →
       ¬ Z.of_nat (length (reduce count seen)) < count →
       get_property_value v "name" ∉ rc_id <$> reduce count vs)
  ∧ (∀ x y z,
       get_property_value x "name" ≠ get_property_value y "name" →
       get_property_value x "name" ≠ get_property_value z "name" →
       get_property_value y "name" ≠ get_property_value z "name" →
       vs = [x; y; x; z] → count = 2 →
       reduce count vs =
         [mkRecommendation (get_property_value x "name") (get_property_value x "title") 2;
          mkRecommendation (get_property_value y "name") (get_property_value y "title") 1]).
Proof.
  intros Hg Hq Hall. split_and!.
  - unfold get_recommended_recipes.
    erewrite bind_Ok by by eapply run_gremlin_query_Ok.
    case_bool_decide as Hlen.
    + apply recommend_loop_reduce; [done|]. apply NoDup_nil_2.
    + destruct Hall; [done|]. cbn in Hlen. lia.
  - intros seen v. unfold reduce. by rewrite fold_left_app.
  - apply fold_reduce_step_NoDup, NoDup_nil_2.
  - intros seen v later -> Hout Hfull. unfold reduce in *.
    rewrite fold_left_app. by rewrite fold_reduce_step_full.
  - intros x y z Hxy Hxz Hyz -> ->. unfold reduce. cbn [fold_left].
    unfold reduce_step at 4. cbn [fmap list_fmap length].
    rewrite decide_False by apply not_elem_of_nil.
    rewrite decide_True by done. cbn [app].
    unfold reduce_step at 3. cbn [fmap list_fmap length rc_id].
    rewrite decide_False by (rewrite list_elem_of_singleton; congruence).
    rewrite decide_True by done. cbn [app].
    unfold reduce_step at 2. cbn [fmap list_fmap length rc_id].
    rewrite decide_True by (rewrite !elem_of_cons; auto).
    cbn [rc_id].
    unfold bump. rewrite decide_True by done. rewrite decide_False by done.
    unfold reduce_step. cbn [fmap list_fmap length rc_id recommendedUserCount rc_title].
    rewrite decide_False by (rewrite !elem_of_cons, elem_of_nil; intros [?|[?|[]]]; congruence).
    rewrite decide_False by lia. done.
Qed.

(** The example graph, asked for two recommendations for "egg" on behalf
    of "me": the traversal reaches x, y, x, z in this order. *)
Lemma get_recommended_recipes_streaming_cap_witness :
  get_recommended_recipes (H := stable_order)
    (recommended_query "ingredient" "egg" Demo.me) 2 Demo.client
  = Ok ([mkRecommendation (Some (PStr "x")) (Some (PStr "Omelette")) 2;
         mkRecommendation (Some (PStr "y")) (Some (PStr "Frittata")) 1],
        logged (CRunGremlinQuery (recommended_query "ingredient" "egg" Demo.me)) Demo.client).
Proof.
  pose (q := recommended_query "ingredient" "egg" Demo.me).
  pose (vs := [EV Demo.X; EV Demo.Y; EV Demo.X; EV Demo.Z']).
  destruct (get_recommended_recipes_streaming_cap (H := stable_order)
              q 2 Demo.client Demo.graph
              (RPath <$> [[EV Demo.egg; EV Demo.X; EE (Demo.selects_edge 12 5 2 5); EV Demo.ann];
                          [EV Demo.egg; EV Demo.Y; EE (Demo.selects_edge 13 6 3 4); EV Demo.bob];
                          [EV Demo.egg; EV Demo.X; EE (Demo.selects_edge 14 7 2 3); EV Demo.cat];
                          [EV Demo.egg; EV Demo.Z'; EE (Demo.selects_edge 15 5 4 2); EV Demo.ann]])
              vs)
    as (Hrun & _).
  - reflexivity.
  - vm_compute. reflexivity.
  - repeat constructor.
  - subst q vs. exact Hrun.
Defined.

End reducer_claim.

(** ** The schema bootstrapper *)
Section bootstrap.
Import GraphRecipeStore.

Lemma elem_of_graph_ids (m : gmap string GraphData) graph_id :
  graph_id ∈ (map_to_list m).*1 ↔ is_Some (m !! graph_id).
Proof.
  rewrite list_elem_of_fmap. split.
  - intros ([k g] & -> & Hin%elem_of_map_to_list). by exists g.
  - intros [g Hg]. exists (graph_id, g). split; [done|]. by apply elem_of_map_to_list.
Qed.

(** On an initialised client [init] only looks. *)
Lemma init_initialised graph_id cl :
  initialised graph_id cl →
  init graph_id cl =
    Ok ((), mkClient (c_graphs cl) graph_id
              (c_calls cl ++ [CGetGraphs; CSetGraph graph_id; CGetSchema])).
Proof.
  intros (Hact & g & s & keys & Hg & Hs & Hk & Hlen).
  unfold init, get_graphs, set_graph, get_schema, on_active, active_graph.
  unfold mbind, M_bind, mret, M_ret. cbn.
  rewrite bool_decide_eq_true_2 by (apply elem_of_graph_ids; eauto).
  cbn. rewrite Hg. cbn. rewrite Hs, Hk.
  rewrite bool_decide_eq_true_2 by done. cbn.
  rewrite insert_id by done. by rewrite <-!app_assoc.
Qed.

(** Where the graph does not exist yet, [init] creates it and saves the
    schema. *)
Lemma init_creates graph_id cl :
  c_graphs cl !! graph_id = None →
  init graph_id cl =
    Ok ((), mkClient
              (<[graph_id := mkGraphData (Some recipe_schema) [] [] 1]> (c_graphs cl))
              graph_id
              (c_calls cl ++ [CGetGraphs; CCreateGraph graph_id; CSetGraph graph_id;
                              CGetSchema; CSaveSchema recipe_schema])).
Proof.
  intros Habsent.
  unfold init, get_graphs, create_graph, set_graph, get_schema, save_schema,
    on_active, active_graph.
  unfold mbind, M_bind, mret, M_ret. cbn.
  rewrite bool_decide_eq_false_2
    by (rewrite elem_of_graph_ids, Habsent; by intros [? ?]).
  cbn. rewrite Habsent. cbn. rewrite lookup_insert_eq. cbn.
  rewrite (bool_decide_eq_false_2 (0 < 0)%nat) by lia. cbn.
  rewrite lookup_insert_eq.
  rewrite !insert_insert_eq. by rewrite <-!app_assoc.
Qed.

(** A run of [init] that returns leaves the client initialised. *)
Lemma init_establishes graph_id cl cl1 :
  init graph_id cl = Ok ((), cl1) → initialised graph_id cl1.
Proof.
  unfold init, get_graphs, create_graph, set_graph, get_schema, save_schema,
    on_active, active_graph.
  unfold mbind, M_bind, mret, M_ret. cbn.
  intros Hinit. repeat (case_match; simplify_eq/=);
    (split; [done|]); cbn;
    repeat match goal with
           | H : negb _ = true |- _ => apply negb_true_iff in H
           | H : negb _ = false |- _ => apply negb_false_iff in H
           | H : bool_decide _ = true |- _ => apply bool_decide_eq_true in H
           | H : bool_decide _ = false |- _ => apply bool_decide_eq_false in H
           end;
    rewrite lookup_insert_eq; eexists _, _, _; split_and!; try done; cbn; lia.
Qed.

End bootstrap.

Section bootstrap_claim.
Import GraphRecipeStore.

(** C9: [init] is idempotent.  Where the graph does not exist yet, a
    first run creates it and saves the schema of the design (property
    keys name, title, detail; vertex labels person, ingredient, cuisine,
    recipe; edge label selects; a unique index on name).  A second run,
    right after any run that returned, sends the three look-ups only
    (no create-graph, no save-schema) and leaves every graph as it was. *)
Theorem init_idempotent (graph_id : string) (cl : Client) :
  (c_graphs cl !! graph_id = None →
     init graph_id cl =
       Ok ((), mkClient
                 (<[graph_id := mkGraphData (Some recipe_schema) [] [] 1]> (c_graphs cl))
                 graph_id
                 (c_calls cl ++ [CGetGraphs; CCreateGraph graph_id; CSetGraph graph_id;
                                 CGetSchema; CSaveSchema recipe_schema])))
  ∧ (pk_name <$> default [] (property_keys recipe_schema) = ["name"; "title"; "detail"]
     ∧ vertex_labels recipe_schema = ["person"; "ingredient"; "cuisine"; "recipe"]
     ∧ edge_labels recipe_schema = ["selects"]
     ∧ (∃ i, vertex_indexes recipe_schema = [i]
             ∧ vi_property_keys i = ["name"] ∧ vi_unique i = true))
  ∧ (∀ cl1, init graph_id cl = Ok ((), cl1) →
       init graph_id cl1 =
         Ok ((), mkClient (c_graphs cl1) (c_active cl1)
                   (c_calls cl1 ++ [CGetGraphs; CSetGraph graph_id; CGetSchema]))).
Proof.
  split_and!.
  - apply init_creates.
  - done.
  - done.
  - done.
  - by eexists.
  - intros cl1 Hrun. pose proof (init_establishes _ _ _ Hrun) as Hinit.
    rewrite (init_initialised _ _ Hinit). by destruct Hinit as [-> _].
Qed.

(** A service without graphs: the first run creates and saves, the
    second one only looks. *)
Lemma init_idempotent_witness :
  ∃ cl1,
    init "recipes" (mkClient ∅ "g" []) = Ok ((), cl1)
    ∧ c_calls cl1 = [CGetGraphs; CCreateGraph "recipes"; CSetGraph "recipes";
                     CGetSchema; CSaveSchema recipe_schema]
    ∧ init "recipes" cl1 =
        Ok ((), mkClient (c_graphs cl1) (c_active cl1)
                  (c_calls cl1 ++ [CGetGraphs; CSetGraph "recipes"; CGetSchema])).
Proof.
  destruct (init_idempotent "recipes" (mkClient ∅ "g" [])) as (Hfirst & _ & Hsecond).
  eexists. split_and!.
  - apply Hfirst. reflexivity.
  - reflexivity.
  - apply Hsecond, Hfirst. reflexivity.
Defined.

End bootstrap_claim.

(** ** Lists as the traversers of a traversal *)
Module ListFacts.
Section bind.
Context {A B C : Type}.
Implicit Types (l : list A) (f : A → list B).

Lemma bind_assoc l f (g : B → list C) : (l ≫= f) ≫= g = l ≫= (λ x, f x ≫= g).
Proof.
  induction l as [|x l IH]; [done|].
  by rewrite !bind_cons, bind_app, IH.
Qed.

Lemma filter_bind (P : B → Prop) `{!∀ y, Decision (P y)} l f :
  filter P (l ≫= f) = l ≫= (λ x, filter P (f x)).
Proof.
  induction l as [|x l IH]; [done|].
  by rewrite !bind_cons, filter_app, IH.
Qed.

Lemma omap_bind (h : B → option C) l f :
  omap h (l ≫= f) = l ≫= (λ x, omap h (f x)).
Proof.
  induction l as [|x l IH]; [done|].
  by rewrite !bind_cons, omap_app, IH.
Qed.

Lemma bind_nil_const l : l ≫= (λ _, @nil B) = [].
Proof. induction l as [|x l IH]; [done|]. by rewrite bind_cons, IH. Qed.

Lemma bind_ext_in l f f' : (∀ x, x ∈ l → f x = f' x) → l ≫= f = l ≫= f'.
Proof.
  induction l as [|x l IH]; intros Hf; [done|].
  rewrite !bind_cons, Hf, IH; [done| |apply list_elem_of_here].
  intros y Hy. apply Hf. by apply list_elem_of_further.
Qed.

(** Elements that contribute nothing can be filtered out first. *)
Lemma bind_filter (P : A → Prop) `{!∀ x, Decision (P x)} l f :
  (∀ x, x ∈ l → ¬ P x → f x = []) → l ≫= f = filter P l ≫= f.
Proof.
  induction l as [|x l IH]; intros Hf; [done|].
  rewrite bind_cons, filter_cons, IH
    by (intros y Hy; apply Hf; by apply list_elem_of_further).
  case_decide as HP.
  - by rewrite bind_cons.
  - by rewrite Hf by (done || apply list_elem_of_here).
Qed.

End bind.

Lemma filter_fmap {A B} (P : B → Prop) `{!∀ y, Decision (P y)} (f : A → B) (l : list A) :
  filter P (f <$> l) = f <$> filter (P ∘ f) l.
Proof.
  induction l as [|x l IH]; [done|].
  rewrite fmap_cons, !filter_cons, IH. cbn. by case_decide.
Qed.

Lemma omap_fmap_Some {A B C} (h : B → option C) (f : A → B) (k : A → C) (l : list A) :
  (∀ x, h (f x) = Some (k x)) → omap h (f <$> l) = k <$> l.
Proof.
  intros Hh. induction l as [|x l IH]; [done|].
  cbn. by rewrite Hh, IH.
Qed.

Lemma filter_all {A} (P : A → Prop) `{!∀ x, Decision (P x)} (l : list A) :
  (∀ x, x ∈ l → P x) → filter P l = l.
Proof.
  induction l as [|x l IH]; intros HP; [done|].
  rewrite filter_cons, decide_True by (apply HP, list_elem_of_here).
  rewrite IH; [done|]. intros y Hy. by apply HP, list_elem_of_further.
Qed.

Lemma filter_none {A} (P : A → Prop) `{!∀ x, Decision (P x)} (l : list A) :
  (∀ x, x ∈ l → ¬ P x) → filter P l = [].
Proof.
  induction l as [|x l IH]; intros HP; [done|].
  rewrite filter_cons, decide_False by (apply HP, list_elem_of_here).
  apply IH. intros y Hy. by apply HP, list_elem_of_further.
Qed.

Lemma bind_fmap_singleton {A B} (f : A → B) (l : list A) : l ≫= (λ x, [f x]) = f <$> l.
Proof. induction l as [|x l IH]; [done|]. by rewrite bind_cons, IH. Qed.

End ListFacts.

(** ** What the look-up traversals return *)
Section lookups.
Import ListFacts.
Context `{!GremlinOrder}.

Lemma vertices_with_id_id g i v : v ∈ vertices_with_id g i → v_id v = i.
Proof.
  unfold vertices_with_id. destruct i; [|by intros ?%elem_of_nil].
  by intros [? _]%list_elem_of_filter.
Qed.

(** The edge look-up walks from every vertex [a] over every edge to [b]
    to every vertex [b]; with unique identifiers that is one path for
    each edge between the two. *)
Lemma edge_query_eval g a b :
  eval_query g (edge_query (Some a) (Some b)) =
    Ok (va ← vertices_with_id g (Some a);
        e ← edges_between g a b;
        vb ← vertices_with_id g (Some b);
        [RPath [EV va; EE e; EV vb]]).
Proof.
  unfold eval_query, edge_query.
  cbn [q_steps q_path eval_steps eval_step mbind Result_bind].
  f_equal.
  change (list_bind _ _ ?f [[]]) with ([[]] ≫= f).
  rewrite bind_singleton, list_fmap_bind, bind_assoc, filter_bind, omap_bind.
  apply bind_ext_in. intros va Hva. cbn.
  rewrite (vertices_with_id_id _ _ _ Hva).
  rewrite list_fmap_bind, filter_bind, omap_bind.
  unfold edges_between.
  rewrite (bind_filter (λ e, e_in_v e = Some b)).
  - apply bind_ext_in. intros e [He _]%list_elem_of_filter. cbn. rewrite He.
    rewrite filter_fmap, (omap_fmap_Some _ _ (λ vb, RPath [EV va; EE e; EV vb])) by done.
    rewrite <-bind_fmap_singleton. f_equal.
    apply filter_all. intros vb Hvb. cbn.
    apply bool_decide_pack. by apply list_elem_of_filter in Hvb as [? _].
  - intros e _ He. cbn.
    rewrite filter_fmap, filter_none; [done|].
    intros vb Hvb%vertices_with_id_id. cbn. intros Hid%bool_decide_unpack.
    congruence.
Qed.

(** No edge between the two vertices: the look-up finds nothing. *)
Lemma edge_query_none g a b :
  edges_between g a b = [] → eval_query g (edge_query (Some a) (Some b)) = Ok [].
Proof.
  intros Hnone. rewrite edge_query_eval, Hnone. f_equal. apply bind_nil_const.
Qed.

(** Both vertices and an edge between them: the first path found runs
    over the first such edge. *)
Lemma edge_query_some g a b va vas e es vb vbs :
  vertices_with_id g (Some a) = va :: vas →
  edges_between g a b = e :: es →
  vertices_with_id g (Some b) = vb :: vbs →
  ∃ rest, eval_query g (edge_query (Some a) (Some b))
          = Ok (RPath [EV va; EE e; EV vb] :: rest).
Proof.
  intros Ha He Hb. rewrite edge_query_eval, Ha, He, Hb.
  rewrite !bind_cons. cbn. by eexists.
Qed.

(** A path found means both vertices exist and an edge joins them. *)
Lemma edge_query_found g a b r rest :
  eval_query g (edge_query (Some a) (Some b)) = Ok (r :: rest) →
  ∃ va vas e es vb vbs,
    vertices_with_id g (Some a) = va :: vas
    ∧ edges_between g a b = e :: es
    ∧ vertices_with_id g (Some b) = vb :: vbs
    ∧ r = RPath [EV va; EE e; EV vb].
Proof.
  rewrite edge_query_eval.
  destruct (vertices_with_id g (Some a)) as [|va vas]; [done|].
  destruct (edges_between g a b) as [|e es].
  { rewrite (bind_ext_in _ _ (λ _, [])), bind_nil_const by done. done. }
  destruct (vertices_with_id g (Some b)) as [|vb vbs].
  { rewrite (bind_ext_in _ _ (λ _, [])), bind_nil_const; [done|].
    intros ? _. apply bind_nil_const. }
  rewrite !bind_cons. cbn. intros [= <- _].
  by eexists _, _, _, _, _, _.
Qed.

Lemma vertex_query_eval g l k s :
  groovy_safe l → groovy_safe k → groovy_safe s →
  eval_query g (vertex_query l k s) = Ok (RElement ∘ EV <$> matching_vertices g l k s).
Proof.
  intros Hl Hk Hs. unfold eval_query, vertex_query.
  cbn [q_steps q_path eval_steps eval_step mbind Result_bind pred_safe].
  apply Is_true_true in Hl, Hk, Hs. rewrite Hl, Hk, Hs.
  cbn [andb eval_steps mbind Result_bind]. f_equal.
  change (list_bind _ _ ?f [[]]) with ([[]] ≫= f).
  rewrite bind_singleton, !filter_fmap, list_filter_filter.
  rewrite (omap_fmap_Some _ _ (RElement ∘ EV)) by done.
  f_equal. unfold matching_vertices. apply list_filter_iff.
  intros v. cbn. rewrite bool_decide_spec.
  unfold get_property_value. cbn.
  destruct (v_properties v !! k) as [w|]; cbn.
  - rewrite bool_decide_spec. split; [by intros [-> ?]|by intros [? [= ->]]].
  - split; [by intros [[] _]|by intros [_ ?]].
Qed.

Lemma vertex_query_inv g l k s r :
  eval_query g (vertex_query l k s) = Ok r →
  groovy_safe l ∧ groovy_safe k ∧ groovy_safe s.
Proof.
  unfold eval_query, vertex_query.
  cbn [q_steps q_path eval_steps eval_step mbind Result_bind pred_safe].
  destruct (groovy_safe l); [|done].
  cbn [eval_steps eval_step mbind Result_bind pred_safe].
  destruct (groovy_safe k); [|done]. destruct (groovy_safe s); [|done]. done.
Qed.

End lookups.

(** ** The entity repository *)
Section repository.
Import GraphRecipeStore.
Context `{!GremlinOrder}.

Lemma add_vertex_Ok v cl g :
  active_graph cl = Some g →
  add_vertex v cl =
    Ok (mkVertex (Some (g_next g)) (v_label v) (v_properties v),
        stored (CAddVertex v)
          (mkGraphData (g_schema g)
             (g_vertices g ++ [mkVertex (Some (g_next g)) (v_label v) (v_properties v)])
             (g_edges g) (g_next g + 1)) cl).
Proof. intros Hg. unfold add_vertex. by erewrite on_active_Ok. Qed.

(** What one call does: it returns the first vertex that matches, or
    stores the given one when none does. *)
Lemma add_vertex_if_not_exists_run (vertex : Vertex) k s cl g :
  active_graph cl = Some g →
  groovy_safe (v_label vertex) → groovy_safe k → groovy_safe s →
  get_property_value (EV vertex) k = Some (PStr s) →
  add_vertex_if_not_exists vertex k cl =
    match matching_vertices g (v_label vertex) k s with
    | v :: _ => Ok (v, logged (CRunGremlinQuery (vertex_query (v_label vertex) k s)) cl)
    | [] => add_vertex vertex (logged (CRunGremlinQuery (vertex_query (v_label vertex) k s)) cl)
    end.
Proof.
  intros Hg Hl Hk Hs Hkey. unfold add_vertex_if_not_exists. rewrite Hkey.
  change (mkQuery _ false) with (vertex_query (v_label vertex) k s).
  erewrite bind_Ok by (eapply run_gremlin_query_Ok; [done|by apply vertex_query_eval]).
  by destruct (matching_vertices g (v_label vertex) k s).
Qed.

End repository.

Section repository_claim.
Import GraphRecipeStore.

(** C4: two calls of [add_vertex_if_not_exists] with the same label
    and the same (string) key.  The first returns a vertex of the graph:
    the one found or, when none matches, the given one under a fresh
    identifier.  The second returns that same vertex, whatever title and
    detail it was given, and leaves every graph as the first call left
    it. *)
Theorem add_vertex_if_not_exists_first_writer_wins `{!GremlinOrder}
    (v1 v2 : Vertex) (k s : string) (cl : Client) (g : GraphData) :
  active_graph cl = Some g →
  groovy_safe (v_label v1) → groovy_safe k → groovy_safe s →
  v_label v2 = v_label v1 →
  get_property_value (EV v1) k = Some (PStr s) →
  get_property_value (EV v2) k = Some (PStr s) →
  ∃ r1 cl1 g1 cl2,
    add_vertex_if_not_exists v1 k cl = Ok (r1, cl1)
    ∧ active_graph cl1 = Some g1
    ∧ r1 ∈ g_vertices g1
    ∧ (matching_vertices g (v_label v1) k s = [] →
         r1 = mkVertex (Some (g_next g)) (v_label v1) (v_properties v1))
    ∧ add_vertex_if_not_exists v2 k cl1 = Ok (r1, cl2)
    ∧ c_graphs cl2 = c_graphs cl1
    ∧ c_active cl2 = c_active cl1.
Proof.
  intros Hg Hl Hk Hs Hlab Hk1 Hk2.
  rewrite (add_vertex_if_not_exists_run v1 k s cl g) by done.
  destruct (matching_vertices g (v_label v1) k s) as [|v vs] eqn:Hm.
  - rewrite (add_vertex_Ok _ _ g) by done.
    set (v' := mkVertex (Some (g_next g)) (v_label v1) (v_properties v1)).
    set (g1 := mkGraphData _ _ _ _). set (cl1 := stored _ g1 _).
    assert (active_graph cl1 = Some g1) as Hg1 by apply active_graph_stored.
    assert (matching_vertices g1 (v_label v1) k s = [v']) as Hm1.
    { unfold matching_vertices in *. cbn. rewrite filter_app, Hm, filter_cons.
      by rewrite decide_True. }
    exists v', cl1, g1, (logged (CRunGremlinQuery (vertex_query (v_label v1) k s)) cl1).
    split_and!; try done.
    + cbn. apply elem_of_app. right. apply list_elem_of_here.
    + rewrite (add_vertex_if_not_exists_run v2 k s cl1 g1) by (by rewrite ?Hlab).
      by rewrite Hlab, Hm1.
  - set (cl1 := logged _ cl).
    exists v, cl1, g, (logged (CRunGremlinQuery (vertex_query (v_label v1) k s)) cl1).
    split_and!; try done.
    + assert (v ∈ matching_vertices g (v_label v1) k s) as Hin
        by (rewrite Hm; apply list_elem_of_here).
      by apply list_elem_of_filter in Hin as [_ ?].
    + rewrite (add_vertex_if_not_exists_run v2 k s cl1 g) by (by rewrite ?Hlab).
      by rewrite Hlab, Hm.
Qed.

(** The recipe "w" is added to the example graph twice, under two
    titles: both calls return vertex 18, which keeps the first title. *)
Lemma add_vertex_if_not_exists_first_writer_wins_witness :
  ∃ cl1 cl2,
    add_vertex_if_not_exists (H := stable_order) Demo.waffles "name" Demo.client
      = Ok (mkVertex (Some 18) "recipe" (v_properties Demo.waffles), cl1)
    ∧ add_vertex_if_not_exists (H := stable_order) Demo.wafers "name" cl1
      = Ok (mkVertex (Some 18) "recipe" (v_properties Demo.waffles), cl2)
    ∧ c_graphs cl2 = c_graphs cl1.
Proof.
  destruct (add_vertex_if_not_exists_first_writer_wins (H := stable_order)
              Demo.waffles Demo.wafers "name" "w" Demo.client Demo.graph)
    as (r1 & cl1 & g1 & cl2 & Hfirst & _ & _ & Hnew & Hsecond & Hsame & _);
    try reflexivity.
  rewrite (Hnew eq_refl) in Hfirst, Hsecond.
  by exists cl1, cl2.
Defined.

End repository_claim.

(** ** The relationship ledger *)
Section ledger.
Import GraphRecipeStore ListFacts.
Context `{!GremlinOrder}.

Lemma add_edge_Ok e cl g :
  active_graph cl = Some g →
  vertices_with_id g (e_out_v e) ≠ [] → vertices_with_id g (e_in_v e) ≠ [] →
  add_edge e cl =
    Ok (mkEdge (Some (g_next g)) (e_label e) (e_out_v e) (e_in_v e) (e_properties e),
        stored (CAddEdge e)
          (mkGraphData (g_schema g) (g_vertices g)
             (g_edges g ++ [mkEdge (Some (g_next g)) (e_label e) (e_out_v e) (e_in_v e)
                              (e_properties e)])
             (g_next g + 1)) cl).
Proof.
  intros Hg Ha Hb. unfold add_edge. erewrite on_active_Ok; [done..|].
  destruct (vertices_with_id g (e_out_v e)); [done|].
  by destruct (vertices_with_id g (e_in_v e)).
Qed.

Lemma update_edge_Ok e cl g :
  active_graph cl = Some g → is_Some (e_id e) →
  (∃ s, s ∈ g_edges g ∧ e_id s = e_id e) →
  update_edge e cl =
    Ok (e, stored (CUpdateEdge e)
             (mkGraphData (g_schema g) (g_vertices g)
                (overwrite_properties e <$> g_edges g) (g_next g)) cl).
Proof.
  intros Hg [i Hi] (s & Hs & Hid). unfold update_edge.
  erewrite on_active_Ok; [done..|]. rewrite Hi.
  destruct (filter _ _) as [|] eqn:Hf; [|done].
  assert (s ∈ filter (λ s, e_id s = Some i) (g_edges g)) as Hin
    by (apply list_elem_of_filter; split; congruence).
  rewrite Hf in Hin. by apply elem_of_nil in Hin.
Qed.

Lemma overwrite_properties_ends e s :
  e_out_v (overwrite_properties e s) = e_out_v s
  ∧ e_in_v (overwrite_properties e s) = e_in_v s
  ∧ e_label (overwrite_properties e s) = e_label s
  ∧ e_id (overwrite_properties e s) = e_id s.
Proof. unfold overwrite_properties. by case_decide. Qed.

Lemma overwrite_properties_self e : overwrite_properties e e = e.
Proof. unfold overwrite_properties. rewrite decide_True by done. by destruct e. Qed.

(** The edges between two vertices, in terms of the whole edge list. *)
Lemma edges_between_filter g a b :
  edges_between g a b
  = filter (λ e, e_out_v e = Some a ∧ e_in_v e = Some b) (g_edges g).
Proof.
  unfold edges_between, out_edges. rewrite list_filter_filter.
  apply list_filter_iff. intros e. tauto.
Qed.

Lemma edges_between_elem g a b e :
  e ∈ edges_between g a b ↔ e ∈ g_edges g ∧ e_out_v e = Some a ∧ e_in_v e = Some b.
Proof. rewrite edges_between_filter, list_elem_of_filter. tauto. Qed.

(** A new edge shows up between its own end points only. *)
Lemma edges_between_add g g' e a b :
  g_edges g' = g_edges g ++ [e] →
  edges_between g' a b
  = edges_between g a b
    ++ (if decide (e_out_v e = Some a ∧ e_in_v e = Some b) then [e] else []).
Proof.
  intros Hg'. rewrite !edges_between_filter, Hg'. by rewrite filter_app.
Qed.

(** Overwriting properties moves no edge. *)
Lemma edges_between_overwrite g g' e a b :
  g_edges g' = overwrite_properties e <$> g_edges g →
  edges_between g' a b = overwrite_properties e <$> edges_between g a b.
Proof.
  intros Hg'. rewrite !edges_between_filter, Hg', filter_fmap.
  f_equal. apply list_filter_iff. intros x. cbn.
  destruct (overwrite_properties_ends e x) as (-> & -> & _). done.
Qed.

Lemma graph_eta g : mkGraphData (g_schema g) (g_vertices g) (g_edges g) (g_next g) = g.
Proof. by destruct g. Qed.

(** No edge between the end points: [add_update_edge] adds the edge. *)
Lemma add_update_edge_new edge a b cl g :
  e_out_v edge = Some a → e_in_v edge = Some b →
  active_graph cl = Some g →
  edges_between g a b = [] →
  add_update_edge edge cl =
    (add_edge edge ≫= λ _, mret ()) (logged (CRunGremlinQuery (edge_query (Some a) (Some b))) cl).
Proof.
  intros Ha Hb Hg Hnone. unfold add_update_edge. rewrite Ha, Hb.
  change (mkQuery _ true) with (edge_query (Some a) (Some b)).
  by erewrite bind_Ok by (eapply run_gremlin_query_Ok; [done|by apply edge_query_none]).
Qed.

(** An edge between the end points: [add_update_edge] writes its count,
    plus one, back to it. *)
Lemma add_update_edge_existing edge a b cl g va vas e es vb vbs c :
  e_out_v edge = Some a → e_in_v edge = Some b →
  active_graph cl = Some g →
  vertices_with_id g (Some a) = va :: vas →
  edges_between g a b = e :: es →
  vertices_with_id g (Some b) = vb :: vbs →
  count_of e = Some c →
  add_update_edge edge cl =
    (update_edge (set_property_value e "count" (PInt (c + 1))) ≫= λ _, mret ())
      (logged (CRunGremlinQuery (edge_query (Some a) (Some b))) cl).
Proof.
  intros Ha Hb Hg Hva He Hvb Hc. unfold add_update_edge. rewrite Ha, Hb.
  change (mkQuery _ true) with (edge_query (Some a) (Some b)).
  destruct (edge_query_some g a b _ _ _ _ _ _ Hva He Hvb) as [rest Hq].
  erewrite bind_Ok by (eapply run_gremlin_query_Ok; [done|exact Hq]).
  cbn [path_object lookup list_lookup]. rewrite ret_bind.
  unfold count_of in Hc. unfold get_property_value. cbn [el_properties].
  destruct (e_properties e !! "count") as [[?|n]|]; simplify_eq; done.
Qed.

End ledger.

Section ledger_steps.
Import GraphRecipeStore ListFacts.
Context `{!GremlinOrder}.

(** The first interaction creates the edge, with count 1. *)
Lemma recordInteraction_first a b cl g :
  active_graph cl = Some g →
  vertices_with_id g (Some a) ≠ [] → vertices_with_id g (Some b) ≠ [] →
  edges_between g a b = [] →
  ∃ cl' g',
    recordInteraction (Some a) (Some b) cl = Ok ((), cl')
    ∧ active_graph cl' = Some g'
    ∧ g_vertices g' = g_vertices g
    ∧ g_next g' = g_next g + 1
    ∧ edges_between g' a b = [counted_edge (g_next g) "selects" a b 1].
Proof.
  intros Hg Ha Hb Hnone. unfold recordInteraction.
  erewrite add_update_edge_new by done.
  erewrite bind_Ok by (by apply add_edge_Ok).
  eexists _, _. split_and!; [done|apply active_graph_stored|done|done|].
  erewrite (edges_between_add g) by (cbn; done). rewrite Hnone. cbn.
  by rewrite decide_True.
Qed.

(** A repeated interaction finds the edge and raises its count by one;
    a count that is missing is read as 0.  The label of the edge found
    plays no part. *)
Lemma add_update_edge_step edge a b cl g e es c :
  e_out_v edge = Some a → e_in_v edge = Some b →
  active_graph cl = Some g →
  vertices_with_id g (Some a) ≠ [] → vertices_with_id g (Some b) ≠ [] →
  edges_between g a b = e :: es →
  is_Some (e_id e) → count_of e = Some c →
  ∃ cl' g',
    add_update_edge edge cl = Ok ((), cl')
    ∧ active_graph cl' = Some g'
    ∧ g_vertices g' = g_vertices g
    ∧ g_next g' = g_next g
    ∧ g_edges g' = overwrite_properties (set_property_value e "count" (PInt (c + 1)))
                     <$> g_edges g
    ∧ edges_between g' a b
      = set_property_value e "count" (PInt (c + 1))
        :: (overwrite_properties (set_property_value e "count" (PInt (c + 1))) <$> es).
Proof.
  intros Hout Hin Hg Ha Hb He Hid Hc.
  destruct (vertices_with_id g (Some a)) as [|va vas] eqn:Hva; [done|].
  destruct (vertices_with_id g (Some b)) as [|vb vbs] eqn:Hvb; [done|].
  erewrite add_update_edge_existing by done.
  erewrite bind_Ok; cycle 1.
  { apply update_edge_Ok; [done|done|]. exists e. split; [|done].
    apply (edges_between_elem g a b). rewrite He. apply list_elem_of_here. }
  eexists _, _. split_and!; [done|apply active_graph_stored|done|done|done|].
  erewrite (edges_between_overwrite g) by (cbn; done). rewrite He, fmap_cons. f_equal.
  unfold overwrite_properties, set_property_value. cbn. by rewrite decide_True.
Qed.

(** [n] further interactions on an edge that holds count [k]. *)
Lemma recordInteraction_times n a b cl g i label k :
  active_graph cl = Some g →
  vertices_with_id g (Some a) ≠ [] → vertices_with_id g (Some b) ≠ [] →
  edges_between g a b = [counted_edge i label a b k] →
  ∃ cl' g',
    times n (recordInteraction (Some a) (Some b)) cl = Ok ((), cl')
    ∧ active_graph cl' = Some g'
    ∧ g_vertices g' = g_vertices g
    ∧ edges_between g' a b = [counted_edge i label a b (k + Z.of_nat n)].
Proof.
  revert cl g k. induction n as [|n IH]; intros cl g k Hg Ha Hb He.
  - exists cl, g. by rewrite Z.add_0_r.
  - destruct (add_update_edge_step
                (new_Edge "selects" (Some a) (Some b) {[ "count" := PInt 1 ]})
                a b cl g _ _ k eq_refl eq_refl Hg Ha Hb He)
      as (cl1 & g1 & Hrun & Hg1 & Hv1 & _ & _ & He1); [by eexists|done|].
    destruct (IH cl1 g1 (k + 1)) as (cl' & g' & Hrun' & Hg' & Hv' & He').
    + done.
    + unfold vertices_with_id in *. by rewrite Hv1.
    + unfold vertices_with_id in *. by rewrite Hv1.
    + rewrite He1. cbn. unfold set_property_value, counted_edge. cbn.
      by rewrite insert_singleton_eq.
    + exists cl', g'. split_and!; [|done|congruence|].
      * cbn [times]. unfold recordInteraction in *. by erewrite bind_Ok.
      * rewrite He'. do 2 f_equal. lia.
Qed.

End ledger_steps.

Section ledger_claims.
Import GraphRecipeStore.

(** C2: [N] interactions in succession between two vertices that no
    edge joins yet leave a single edge between them, with count [N]:
    the first call creates it with count 1, every later call reads the
    stored count and writes back one more.  In general a call that finds
    an edge reads a missing count as 0.  The methods
    [record_ingredient_request_for_user] and
    [record_cuisine_request_for_user], and [record_recipe_request_for_user]
    in its first step, are this operation. *)
Theorem recordInteraction_counts `{!GremlinOrder}
    (a b : Z) (N : nat) (cl : Client) (g : GraphData) :
  active_graph cl = Some g →
  vertices_with_id g (Some a) ≠ [] → vertices_with_id g (Some b) ≠ [] →
  edges_between g a b = [] →
  (0 < N)%nat →
  (∃ cl' g',
     times N (recordInteraction (Some a) (Some b)) cl = Ok ((), cl')
     ∧ active_graph cl' = Some g'
     ∧ g_vertices g' = g_vertices g
     ∧ edges_between g' a b = [counted_edge (g_next g) "selects" a b (Z.of_nat N)])
  ∧ (∃ cl1 g1,
       recordInteraction (Some a) (Some b) cl = Ok ((), cl1)
       ∧ active_graph cl1 = Some g1
       ∧ edges_between g1 a b = [counted_edge (g_next g) "selects" a b 1])
  ∧ (∀ cl1 g1 e es c,
       active_graph cl1 = Some g1 →
       g_vertices g1 = g_vertices g →
       edges_between g1 a b = e :: es →
       is_Some (e_id e) → count_of e = Some c →
       ∃ cl2 g2,
         recordInteraction (Some a) (Some b) cl1 = Ok ((), cl2)
         ∧ active_graph cl2 = Some g2
         ∧ head (edges_between g2 a b)
           = Some (set_property_value e "count" (PInt (c + 1))))
  ∧ (∀ e, e_properties e !! "count" = None → count_of e = Some 0)
  ∧ (∀ x u, record_ingredient_request_for_user x u = recordInteraction (v_id u) (v_id x))
  ∧ (∀ x u, record_cuisine_request_for_user x u = recordInteraction (v_id u) (v_id x))
  ∧ (∀ x u, record_recipe_request_for_user x None u
            = (recordInteraction (v_id u) (v_id x) ≫= λ _, mret ())).
Proof.
  intros Hg Ha Hb Hnone HN.
  destruct (recordInteraction_first a b cl g Hg Ha Hb Hnone)
    as (cl1 & g1 & Hrun1 & Hg1 & Hv1 & _ & He1).
  split_and!.
  - destruct N as [|n]; [lia|].
    destruct (recordInteraction_times n a b cl1 g1 (g_next g) "selects" 1)
      as (cl' & g' & Hrun & Hg' & Hv' & He'); try done.
    { unfold vertices_with_id in *. by rewrite Hv1. }
    { unfold vertices_with_id in *. by rewrite Hv1. }
    exists cl', g'. split_and!; [|done|congruence|].
    + cbn [times]. by erewrite bind_Ok.
    + rewrite He'. do 2 f_equal. lia.
  - by exists cl1, g1.
  - intros cl2 g2 e es c Hg2 Hv2 He Hid Hc.
    destruct (add_update_edge_step
                (new_Edge "selects" (Some a) (Some b) {[ "count" := PInt 1 ]})
                a b cl2 g2 e es c eq_refl eq_refl Hg2)
      as (cl3 & g3 & Hrun & Hg3 & _ & _ & _ & He3); try done.
    { unfold vertices_with_id in *. by rewrite Hv2. }
    { unfold vertices_with_id in *. by rewrite Hv2. }
    exists cl3, g3. split_and!; [done..|]. by rewrite He3.
  - intros e He. unfold count_of. by rewrite He.
  - done.
  - done.
  - done.
Qed.

(** In the example graph "me" (vertex 8) has no edge to recipe y
    (vertex 3); three interactions leave one edge there, with count 3. *)
Lemma recordInteraction_counts_witness :
  ∃ cl' g',
    times 3 (recordInteraction (H := stable_order) (Some 8) (Some 3)) Demo.client
      = Ok ((), cl')
    ∧ active_graph cl' = Some g'
    ∧ edges_between g' 8 3 = [counted_edge 18 "selects" 8 3 3].
Proof.
  destruct (recordInteraction_counts (H := stable_order) 8 3 3 Demo.client Demo.graph)
    as ((cl' & g' & Hrun & Hg' & _ & He) & _); [done|done|done|done|lia|].
  by exists cl', g'.
Defined.

End ledger_claims.

Section membership.
Import GraphRecipeStore ListFacts.
Context `{!GremlinOrder}.

Lemma add_edge_if_not_exists_new edge a b cl g :
  e_out_v edge = Some a → e_in_v edge = Some b →
  active_graph cl = Some g →
  edges_between g a b = [] →
  add_edge_if_not_exists edge cl =
    (add_edge edge ≫= λ _, mret ()) (logged (CRunGremlinQuery (edge_query (Some a) (Some b))) cl).
Proof.
  intros Ha Hb Hg Hnone. unfold add_edge_if_not_exists. rewrite Ha, Hb.
  change (mkQuery _ true) with (edge_query (Some a) (Some b)).
  by erewrite bind_Ok by (eapply run_gremlin_query_Ok; [done|by apply edge_query_none]).
Qed.

(** An edge of any label between the end points: nothing is written. *)
Lemma add_edge_if_not_exists_existing edge a b cl g e es :
  e_out_v edge = Some a → e_in_v edge = Some b →
  active_graph cl = Some g →
  vertices_with_id g (Some a) ≠ [] → vertices_with_id g (Some b) ≠ [] →
  edges_between g a b = e :: es →
  add_edge_if_not_exists edge cl
  = Ok ((), logged (CRunGremlinQuery (edge_query (Some a) (Some b))) cl).
Proof.
  intros Hout Hin Hg Ha Hb He. unfold add_edge_if_not_exists. rewrite Hout, Hin.
  change (mkQuery _ true) with (edge_query (Some a) (Some b)).
  destruct (vertices_with_id g (Some a)) as [|va vas] eqn:Hva; [done|].
  destruct (vertices_with_id g (Some b)) as [|vb vbs] eqn:Hvb; [done|].
  destruct (edge_query_some g a b _ _ _ _ _ _ Hva He Hvb) as [rest Hq].
  by erewrite bind_Ok by (eapply run_gremlin_query_Ok; [done|exact Hq]).
Qed.

Lemma recordMembership_first a b cl g :
  active_graph cl = Some g →
  vertices_with_id g (Some a) ≠ [] → vertices_with_id g (Some b) ≠ [] →
  edges_between g a b = [] →
  recordMembership (Some a) (Some b) cl =
    Ok ((), stored (CAddEdge (new_Edge "has" (Some a) (Some b) ∅))
              (mkGraphData (g_schema g) (g_vertices g)
                 (g_edges g ++ [mkEdge (Some (g_next g)) "has" (Some a) (Some b) ∅])
                 (g_next g + 1))
              (logged (CRunGremlinQuery (edge_query (Some a) (Some b))) cl)).
Proof.
  intros Hg Ha Hb Hnone. unfold recordMembership.
  erewrite add_edge_if_not_exists_new by done.
  by erewrite bind_Ok by (by apply add_edge_Ok).
Qed.

(** Once an edge is there, any number of further calls only look. *)
Lemma recordMembership_times n a b cl g e es :
  active_graph cl = Some g →
  vertices_with_id g (Some a) ≠ [] → vertices_with_id g (Some b) ≠ [] →
  edges_between g a b = e :: es →
  times n (recordMembership (Some a) (Some b)) cl =
    Ok ((), mkClient (c_graphs cl) (c_active cl)
              (c_calls cl
               ++ replicate n (CRunGremlinQuery (edge_query (Some a) (Some b))))).
Proof.
  revert cl. induction n as [|n IH]; intros cl Hg Ha Hb He.
  - cbn. rewrite app_nil_r. by destruct cl.
  - cbn [times]. unfold recordMembership in *.
    erewrite bind_Ok by (by eapply add_edge_if_not_exists_existing).
    rewrite IH by done. cbn. by rewrite <-app_assoc.
Qed.

End membership.

(** ** One edge for each ordered pair *)
Section single_edge.
Import GraphRecipeStore ListFacts.
Context `{!GremlinOrder}.

Lemma edge_query_ids g o i r :
  eval_query g (edge_query o i) = Ok r → ∃ a b, o = Some a ∧ i = Some b.
Proof.
  unfold eval_query, edge_query.
  cbn [q_steps q_path eval_steps eval_step mbind Result_bind].
  destruct o as [a|]; [|done]. cbn [eval_steps eval_step mbind Result_bind].
  destruct i as [b|]; [|done]. intros _. by exists a, b.
Qed.

Lemma add_edge_inv e cl e' cl' :
  add_edge e cl = Ok (e', cl') →
  ∃ g g', active_graph cl = Some g ∧ active_graph cl' = Some g'
          ∧ vertices_with_id g (e_out_v e) ≠ [] ∧ vertices_with_id g (e_in_v e) ≠ []
          ∧ g_vertices g' = g_vertices g ∧ g_next g' = g_next g + 1
          ∧ g_edges g' = g_edges g ++ [mkEdge (Some (g_next g)) (e_label e) (e_out_v e)
                                          (e_in_v e) (e_properties e)].
Proof.
  intros (g & g' & Hg & Hf & ->)%on_active_inv.
  destruct (vertices_with_id g (e_out_v e)) as [|va vas] eqn:Ha; [done|].
  destruct (vertices_with_id g (e_in_v e)) as [|vb vbs] eqn:Hb; [done|].
  injection Hf as <- <-.
  exists g. eexists.
  split_and!; [done|apply active_graph_stored|by rewrite Ha|by rewrite Hb|done..].
Qed.

Lemma update_edge_inv e cl e' cl' :
  update_edge e cl = Ok (e', cl') →
  ∃ g g', active_graph cl = Some g ∧ active_graph cl' = Some g'
          ∧ g_vertices g' = g_vertices g ∧ g_next g' = g_next g
          ∧ g_edges g' = overwrite_properties e <$> g_edges g.
Proof.
  intros (g & g' & Hg & Hf & ->)%on_active_inv.
  destruct (e_id e); [|done]. destruct (filter _ _); [done|].
  injection Hf as <- <-.
  exists g. eexists. split_and!; [done|apply active_graph_stored|done..].
Qed.

Lemma edge_query_empty g a b :
  eval_query g (edge_query (Some a) (Some b)) = Ok [] →
  vertices_with_id g (Some a) ≠ [] → vertices_with_id g (Some b) ≠ [] →
  edges_between g a b = [].
Proof.
  intros Hq Ha Hb.
  destruct (vertices_with_id g (Some a)) as [|va vas] eqn:Hva; [done|].
  destruct (vertices_with_id g (Some b)) as [|vb vbs] eqn:Hvb; [done|].
  destruct (edges_between g a b) as [|e es] eqn:He; [done|].
  destruct (edge_query_some g a b _ _ _ _ _ _ Hva He Hvb) as [rest Hq'].
  congruence.
Qed.

Lemma add_edge_if_not_exists_inv edge cl cl' :
  add_edge_if_not_exists edge cl = Ok ((), cl') →
  ∃ g g', active_graph cl = Some g ∧ active_graph cl' = Some g' ∧ edge_written edge g g'.
Proof.
  unfold add_edge_if_not_exists.
  intros (r & cl1 & (g & Hg & Hq & ->)%run_gremlin_query_inv & Hrest)%bind_inv.
  change (mkQuery _ true) with (edge_query (e_out_v edge) (e_in_v edge)) in Hq.
  destruct (edge_query_ids _ _ _ _ Hq) as (a & b & Ha & Hb). rewrite Ha, Hb in Hq.
  destruct r as [|r rest].
  - apply bind_inv in Hrest as (e' & cl2 & Hadd & [= <-]).
    apply add_edge_inv in Hadd as (g1 & g' & Hg1 & Hg' & Hva & Hvb & Hv & Hn & He).
    rewrite active_graph_logged, Hg in Hg1. injection Hg1 as <-.
    exists g, g'. split_and!; [done..|]. right; left. exists a, b.
    rewrite Ha, Hb in *. split_and!; [done|done| |done..].
    by apply edge_query_empty.
  - injection Hrest as <-. exists g, g. split_and!; [done..|]. by left.
Qed.

Lemma add_update_edge_inv edge cl cl' :
  add_update_edge edge cl = Ok ((), cl') →
  ∃ g g', active_graph cl = Some g ∧ active_graph cl' = Some g' ∧ edge_written edge g g'.
Proof.
  unfold add_update_edge.
  intros (r & cl1 & (g & Hg & Hq & ->)%run_gremlin_query_inv & Hrest)%bind_inv.
  change (mkQuery _ true) with (edge_query (e_out_v edge) (e_in_v edge)) in Hq.
  destruct (edge_query_ids _ _ _ _ Hq) as (a & b & Ha & Hb). rewrite Ha, Hb in Hq.
  destruct r as [|r rest].
  - apply bind_inv in Hrest as (e' & cl2 & Hadd & [= <-]).
    apply add_edge_inv in Hadd as (g1 & g' & Hg1 & Hg' & Hva & Hvb & Hv & Hn & He).
    rewrite active_graph_logged, Hg in Hg1. injection Hg1 as <-.
    exists g, g'. split_and!; [done..|]. right; left. exists a, b.
    rewrite Ha, Hb in *. split_and!; [done|done| |done..].
    by apply edge_query_empty.
  - apply bind_inv in Hrest as (x & cl2 & Hx & Hrest).
    destruct x as [v|e]; [done|].
    apply bind_inv in Hrest as (c & cl3 & Hc & Hrest).
    apply bind_inv in Hrest as (e' & cl4 & Hupd & [= <-]).
    apply update_edge_inv in Hupd as (g1 & g' & Hg1 & Hg' & Hv & Hn & He).
    assert (cl2 = logged (CRunGremlinQuery (edge_query (Some a) (Some b))) cl) as ->.
    { destruct r as [?|objects]; [done|]. cbn in Hx.
      destruct (objects !! 1%nat); [|done]. rewrite Ha, Hb in Hx. by injection Hx. }
    assert (cl3 = logged (CRunGremlinQuery (edge_query (Some a) (Some b))) cl) as ->.
    { destruct (get_property_value (EE e) "count") as [[?|?]|]; [done|..];
        by injection Hc. }
    rewrite active_graph_logged, Hg in Hg1. injection Hg1 as <-.
    exists g, g'. split_and!; [done..|]. right; right. by eexists _, _.
Qed.

Lemma edge_written_at_most_one edge g g' :
  edge_written edge g g' → at_most_one_edge g → at_most_one_edge g'.
Proof.
  intros [->|[(a & b & Ha & Hb & Hnone & _ & _ & He)|(e0 & c & _ & _ & He)]] Hone a' b';
    [done| |].
  - rewrite (edges_between_add g g' _ a' b' He). cbn [e_out_v e_in_v].
    case_decide as Hab.
    + destruct Hab as [[= <-] [= <-]]. by rewrite Hnone.
    + rewrite app_nil_r. apply Hone.
  - rewrite (edges_between_overwrite g g' _ a' b' He), length_fmap. apply Hone.
Qed.

End single_edge.

(** ** What the write path keeps true *)
Section invariant.
Import GraphRecipeStore ListFacts.
Context `{!GremlinOrder}.

Lemma store_invariant_empty : store_invariant empty_graph.
Proof. split_and!; cbn; [constructor|apply NoDup_nil_2|constructor..|intros a b; cbn; lia]. Qed.

Lemma store_invariant_person_edges g : store_invariant g → person_edges_select g.
Proof.
  intros (_ & Hnd & Hedges & _) e p He Hp Hid Hlab.
  eapply Forall_forall in Hedges as [Hsel|(v & Hv & Hvid & Hvlab)]; [done| |done].
  assert (v = p) as ->; [|congruence].
  apply list_elem_of_lookup in Hv as [i Hi], Hp as [j Hj].
  assert (i = j) as ->.
  { eapply NoDup_lookup; [exact Hnd|..]; rewrite list_lookup_fmap.
    - by rewrite Hi.
    - rewrite Hj. cbn. congruence. }
  congruence.
Qed.

Lemma edge_written_invariant edge g g' :
  edge_written edge g g' → edge_fits edge g → store_invariant g → store_invariant g'.
Proof.
  intros Hwritten [Hfits Hweight] (Hids & Hnd & Hedges & Hw & Hone).
  pose proof (edge_written_at_most_one _ _ _ Hwritten Hone) as Hone'.
  destruct Hwritten as [->|[(a & b & Ha & Hb & _ & Hv & Hn & He)|(e0 & c & Hv & Hn & He)]];
    [done| |].
  - split_and!; rewrite ?Hv, ?Hn, ?He.
    + eapply Forall_impl; [exact Hids|]. intros v (i & ? & ?). exists i. split; [done|lia].
    + done.
    + apply Forall_app. split; [done|]. apply Forall_singleton. cbn.
      destruct Hfits as [?|(v & ? & ? & ?)]; [by left|right].
      exists v. split_and!; [done| |done]. congruence.
    + apply Forall_app. split; [done|]. by apply Forall_singleton.
    + done.
  - split_and!; rewrite ?Hv, ?Hn, ?He; [done..| | |].
    + apply Forall_fmap. eapply Forall_impl; [exact Hedges|]. intros e Hfit. cbn.
      destruct (overwrite_properties_ends (set_property_value e0 "count" (PInt c)) e)
        as (-> & _ & -> & _). done.
    + apply Forall_fmap. eapply Forall_impl; [exact Hw|]. intros e He' Hsel. cbn in *.
      unfold overwrite_properties in *. case_decide; [|by apply He'].
      exists c. cbn. apply lookup_insert_eq.
    + done.
Qed.

Lemma vertex_written_invariant v r g g' :
  vertex_written v r g g' → store_invariant g →
  store_invariant g' ∧ r ∈ g_vertices g' ∧ v_label r = v_label v.
Proof.
  intros [(-> & Hr & Hlab)|(-> & Hv & He & Hn)] (Hids & Hnd & Hedges & Hws & Hone); [done|].
  split_and!; [split_and!|..]; rewrite ?Hv, ?Hn, ?He.
  - apply Forall_app. split.
    + eapply Forall_impl; [exact Hids|]. intros w (i & ? & ?). exists i. split; [done|lia].
    + apply Forall_singleton. exists (g_next g). split; [done|lia].
  - rewrite fmap_app. apply NoDup_app. split_and!; [done| |apply NoDup_singleton].
    intros i (w & Hi & Hw)%list_elem_of_fmap Hnew%list_elem_of_singleton.
    eapply Forall_forall in Hids as (j & Hj & Hlt); [|done]. cbn in Hnew.
    assert (j = g_next g) by congruence. lia.
  - eapply Forall_impl; [exact Hedges|]. intros e [?|(w & ? & ? & ?)]; [by left|right].
    exists w. split_and!; [|done..]. apply elem_of_app. by left.
  - done.
  - intros a b. unfold edges_between, out_edges. rewrite He. apply Hone.
  - apply elem_of_app. right. apply list_elem_of_here.
  - done.
Qed.

Lemma add_vertex_if_not_exists_inv v k cl r cl' :
  add_vertex_if_not_exists v k cl = Ok (r, cl') →
  ∃ g g', active_graph cl = Some g ∧ active_graph cl' = Some g' ∧ vertex_written v r g g'.
Proof.
  unfold add_vertex_if_not_exists.
  intros (resp & cl1 & (g & Hg & Hq & ->)%run_gremlin_query_inv & Hrest)%bind_inv.
  set (s := py_format _) in *.
  change (mkQuery _ false) with (vertex_query (v_label v) k s) in Hq.
  destruct (vertex_query_inv _ _ _ _ _ Hq) as (Hl & Hk & Hs).
  rewrite vertex_query_eval in Hq by done. injection Hq as <-.
  destruct (matching_vertices g (v_label v) k s) as [|v0 vs] eqn:Hm.
  - apply on_active_inv in Hrest as (g1 & g' & Hg1 & Hf & ->).
    rewrite active_graph_logged, Hg in Hg1. injection Hg1 as <-.
    injection Hf as <- <-.
    exists g. eexists. split_and!; [done|apply active_graph_stored|]. by right.
  - injection Hrest as <- <-. exists g, g. split_and!; [done..|]. left.
    assert (v0 ∈ matching_vertices g (v_label v) k s) as Hin
      by (rewrite Hm; apply list_elem_of_here).
    apply list_elem_of_filter in Hin as [[? ?] ?]. done.
Qed.

End invariant.

Section write_path.
Import GraphRecipeStore.
Context `{!GremlinOrder}.

Lemma edge_written_vertices edge g g' :
  edge_written edge g g' → g_vertices g' = g_vertices g.
Proof. by intros [->|[(a & b & _ & _ & _ & ? & _)|(e0 & c & ? & _)]]. Qed.

Lemma add_vertex_if_not_exists_invariant v k cl r cl' g :
  active_graph cl = Some g → store_invariant g →
  add_vertex_if_not_exists v k cl = Ok (r, cl') →
  ∃ g', active_graph cl' = Some g' ∧ store_invariant g'
        ∧ r ∈ g_vertices g' ∧ v_label r = v_label v.
Proof.
  intros Hg Hinv (g0 & g' & Hg0 & Hg' & Hw)%add_vertex_if_not_exists_inv.
  rewrite Hg in Hg0. injection Hg0 as <-.
  exists g'. split; [done|]. by eapply vertex_written_invariant.
Qed.

Lemma add_update_edge_invariant edge cl cl' g :
  active_graph cl = Some g → store_invariant g → edge_fits edge g →
  add_update_edge edge cl = Ok ((), cl') →
  ∃ g', active_graph cl' = Some g' ∧ store_invariant g' ∧ g_vertices g' = g_vertices g.
Proof.
  intros Hg Hinv Hfits (g0 & g' & Hg0 & Hg' & Hw)%add_update_edge_inv.
  rewrite Hg in Hg0. injection Hg0 as <-.
  exists g'. split_and!; [done| |by eapply edge_written_vertices].
  by eapply edge_written_invariant.
Qed.

Lemma add_edge_if_not_exists_invariant edge cl cl' g :
  active_graph cl = Some g → store_invariant g → edge_fits edge g →
  add_edge_if_not_exists edge cl = Ok ((), cl') →
  ∃ g', active_graph cl' = Some g' ∧ store_invariant g' ∧ g_vertices g' = g_vertices g.
Proof.
  intros Hg Hinv Hfits (g0 & g' & Hg0 & Hg' & Hw)%add_edge_if_not_exists_inv.
  rewrite Hg in Hg0. injection Hg0 as <-.
  exists g'. split_and!; [done| |by eapply edge_written_vertices].
  by eapply edge_written_invariant.
Qed.

Lemma selects_edge_fits a b g :
  edge_fits (new_Edge "selects" a b {[ "count" := PInt 1 ]}) g.
Proof. split; [by left|]. intros _. exists 1. cbn. apply lookup_singleton_eq. Qed.

Lemma add_user_invariant user_id cl r cl' g :
  active_graph cl = Some g → store_invariant g →
  add_user user_id cl = Ok (r, cl') →
  ∃ g', active_graph cl' = Some g' ∧ store_invariant g'.
Proof.
  intros Hg Hinv Hrun.
  destruct (add_vertex_if_not_exists_invariant _ _ _ _ _ _ Hg Hinv Hrun)
    as (g' & ? & ? & _). by exists g'.
Qed.

Lemma add_ingredient_invariant s m u cl r cl' g :
  active_graph cl = Some g → store_invariant g →
  add_ingredient s m u cl = Ok (r, cl') →
  ∃ g', active_graph cl' = Some g' ∧ store_invariant g'.
Proof.
  intros Hg Hinv (iv & cl1 & Hadd & Hrest)%bind_inv.
  apply bind_inv in Hrest as ([] & cl2 & Hrec & [= _ <-]).
  destruct (add_vertex_if_not_exists_invariant _ _ _ _ _ _ Hg Hinv Hadd)
    as (g1 & Hg1 & Hinv1 & _).
  eapply add_update_edge_invariant in Hrec as (g2 & ? & ? & _); [|done|done|apply selects_edge_fits].
  by exists g2.
Qed.

Lemma add_cuisine_invariant s m u cl r cl' g :
  active_graph cl = Some g → store_invariant g →
  add_cuisine s m u cl = Ok (r, cl') →
  ∃ g', active_graph cl' = Some g' ∧ store_invariant g'.
Proof.
  intros Hg Hinv (cv & cl1 & Hadd & Hrest)%bind_inv.
  apply bind_inv in Hrest as ([] & cl2 & Hrec & [= _ <-]).
  destruct (add_vertex_if_not_exists_invariant _ _ _ _ _ _ Hg Hinv Hadd)
    as (g1 & Hg1 & Hinv1 & _).
  eapply add_update_edge_invariant in Hrec as (g2 & ? & ? & _); [|done|done|apply selects_edge_fits].
  by exists g2.
Qed.

(** The "has" edge of [record_recipe_request_for_user] starts at the
    recipe vertex that [add_vertex_if_not_exists] has just returned. *)
Lemma add_recipe_invariant i t d ic u cl r cl' g :
  active_graph cl = Some g → store_invariant g →
  add_recipe i t d ic u cl = Ok (r, cl') →
  ∃ g', active_graph cl' = Some g' ∧ store_invariant g'.
Proof.
  intros Hg Hinv (rv & cl1 & Hadd & Hrest)%bind_inv.
  apply bind_inv in Hrest as ([] & cl2 & Hrec & [= _ <-]).
  destruct (add_vertex_if_not_exists_invariant _ _ _ _ _ _ Hg Hinv Hadd)
    as (g1 & Hg1 & Hinv1 & Hrv & Hlab).
  unfold record_recipe_request_for_user in Hrec.
  apply bind_inv in Hrec as ([] & cl3 & Hsel & Hrec).
  eapply add_update_edge_invariant in Hsel as (g2 & Hg2 & Hinv2 & Hv2);
    [|done|done|apply selects_edge_fits].
  destruct ic as [icv|]; [|injection Hrec as <-; by exists g2].
  apply bind_inv in Hrec as ([] & cl4 & Hsel' & Hhas).
  eapply add_update_edge_invariant in Hsel' as (g3 & Hg3 & Hinv3 & Hv3);
    [|done|done|apply selects_edge_fits].
  eapply add_edge_if_not_exists_invariant in Hhas as (g4 & ? & ? & _); [|done|done|].
  - by exists g4.
  - split; [|done]. right. exists rv. split_and!; [|done..]. by rewrite Hv3, Hv2.
Qed.

(** Every client that the store has written keeps the invariant. *)
Lemma store_built_invariant cl :
  store_built cl → ∃ g, active_graph cl = Some g ∧ store_invariant g.
Proof.
  induction 1 as [cl graph_id cl' Habsent Hinit
                 |cl user_id r cl' _ (g & Hg & Hinv) Hrun
                 |cl s m u r cl' _ (g & Hg & Hinv) Hrun
                 |cl s m u r cl' _ (g & Hg & Hinv) Hrun
                 |cl i t d ic u r cl' _ (g & Hg & Hinv) Hrun].
  - rewrite init_creates in Hinit by done. injection Hinit as <-.
    eexists. split; [apply lookup_insert_eq|].
    split_and!; cbn; [constructor|apply NoDup_nil_2|constructor..|intros a b; cbn; lia].
  - by eapply add_user_invariant.
  - by eapply add_ingredient_invariant.
  - by eapply add_cuisine_invariant.
  - by eapply add_recipe_invariant.
Qed.

(** Under the invariant the edges that leave a person carry a count. *)
Lemma store_invariant_weights g n :
  store_invariant g → Forall has_weight (user_out_edges g n).
Proof.
  intros Hinv. pose proof (store_invariant_person_edges g Hinv) as Hsel.
  destruct Hinv as (_ & _ & _ & Hw & _).
  apply Forall_forall. intros e (p & He & Hp)%list_elem_of_bind.
  apply list_elem_of_filter in Hp as [[Hlab _] Hp].
  unfold out_edges in He. destruct (v_id p) as [i|] eqn:Hi; [|by apply elem_of_nil in He].
  apply list_elem_of_filter in He as [Hout He].
  eapply Forall_forall in Hw; [apply Hw|done].
  eapply Hsel; [done|done| |done]. congruence.
Qed.

(** The session is one of the store: its last client is written by the
    store, and holds two persons, the ingredient and the recipe, with the
    edges of ann's two picks. *)
Lemma session_store_built : store_built (H := stable_order) Session.cl7.
Proof.
  eapply (built_add_ingredient Session.cl6 "egg " "[]" Session.bob Session.egg);
    [|by vm_compute].
  eapply (built_add_recipe Session.cl5 (PInt 7) "Omelette" "beat, fry"
            (Some Session.egg) Session.ann Session.omelette); [|by vm_compute].
  eapply (built_add_recipe Session.cl4 (PInt 7) "Omelette" "beat, fry"
            (Some Session.egg) Session.ann Session.omelette); [|by vm_compute].
  eapply (built_add_ingredient Session.cl3 " Egg" "[]" Session.ann Session.egg);
    [|by vm_compute].
  eapply (built_add_user Session.cl2 "bob" Session.bob); [|by vm_compute].
  eapply (built_add_user Session.cl1 "ann" Session.ann); [|by vm_compute].
  by eapply (built_init Session.cl0 "recipes").
Qed.

Lemma session_graph :
  ∃ g, active_graph Session.cl7 = Some g
       ∧ v_label <$> g_vertices g = ["person"; "person"; "ingredient"; "recipe"]
       ∧ (λ e, (e_label e, e_out_v e, e_in_v e, count_of e)) <$> g_edges g
         = [("selects", v_id Session.ann, v_id Session.egg, Some 1);
            ("selects", v_id Session.ann, v_id Session.omelette, Some 2);
            ("selects", v_id Session.egg, v_id Session.omelette, Some 2);
            ("has", v_id Session.omelette, v_id Session.egg, Some 0);
            ("selects", v_id Session.bob, v_id Session.egg, Some 1)].
Proof. eexists. split; [by vm_compute|]. by vm_compute. Qed.

End write_path.

Section membership_claim.
Import GraphRecipeStore.

(** C5: [N] calls of the membership operation between two vertices.
    Where no edge joins them yet, the first call adds one "has" edge
    without any property and the calls after it send the look-up and
    nothing else, so the graphs stay as the first call left them: one
    edge between the pair, written once, never changed.  Where one edge
    joins them already, no call writes anything.  A graph that the store
    has written is in one of these two cases. *)
Theorem recordMembership_once `{!GremlinOrder}
    (a b : Z) (N : nat) (cl : Client) (g : GraphData) :
  active_graph cl = Some g →
  vertices_with_id g (Some a) ≠ [] → vertices_with_id g (Some b) ≠ [] →
  (0 < N)%nat →
  (edges_between g a b = [] →
   ∃ cl1 cl' g',
     recordMembership (Some a) (Some b) cl = Ok ((), cl1)
     ∧ times N (recordMembership (Some a) (Some b)) cl = Ok ((), cl')
     ∧ c_graphs cl' = c_graphs cl1
     ∧ active_graph cl' = Some g'
     ∧ g_vertices g' = g_vertices g
     ∧ g_edges g' = g_edges g ++ [mkEdge (Some (g_next g)) "has" (Some a) (Some b) ∅]
     ∧ edges_between g' a b = [mkEdge (Some (g_next g)) "has" (Some a) (Some b) ∅]
     ∧ c_calls cl' =
         c_calls cl
         ++ [CRunGremlinQuery (edge_query (Some a) (Some b));
             CAddEdge (new_Edge "has" (Some a) (Some b) ∅)]
         ++ replicate (N - 1) (CRunGremlinQuery (edge_query (Some a) (Some b))))
  ∧ (∀ e, edges_between g a b = [e] →
       times N (recordMembership (Some a) (Some b)) cl =
         Ok ((), mkClient (c_graphs cl) (c_active cl)
                   (c_calls cl
                    ++ replicate N (CRunGremlinQuery (edge_query (Some a) (Some b))))))
  ∧ (store_built cl → edges_between g a b = [] ∨ ∃ e, edges_between g a b = [e]).
Proof.
  intros Hg Ha Hb HN. split_and!; [|intros e He; by eapply recordMembership_times|].
  2:{ intros (g0 & Hg0 & Hinv)%store_built_invariant.
      rewrite Hg in Hg0. injection Hg0 as <-.
      destruct Hinv as (_ & _ & _ & _ & Hone). specialize (Hone a b).
      destruct (edges_between g a b) as [|e [|e' es]]; [by left|right; by exists e|].
      cbn in Hone. lia. }
  intros Hnone. destruct N as [|n]; [lia|].
  pose proof (recordMembership_first a b cl g Hg Ha Hb Hnone) as Hfirst.
  set (g1 := mkGraphData _ _ _ _) in Hfirst. set (cl1 := stored _ g1 _) in Hfirst.
  assert (active_graph cl1 = Some g1) as Hg1 by apply active_graph_stored.
  assert (edges_between g1 a b = [mkEdge (Some (g_next g)) "has" (Some a) (Some b) ∅])
    as He1.
  { erewrite (edges_between_add g) by (cbn; done). rewrite Hnone. cbn.
    by rewrite decide_True. }
  pose proof (recordMembership_times n a b cl1 g1 _ _ Hg1 Ha Hb He1) as Hrest.
  eexists cl1, _, g1. split_and!.
  - exact Hfirst.
  - cbn [times]. erewrite bind_Ok by exact Hfirst. exact Hrest.
  - done.
  - exact Hg1.
  - done.
  - done.
  - exact He1.
  - cbn. rewrite Nat.sub_0_r. by rewrite <-!app_assoc.
Qed.

(** Recipe y (vertex 3) of the example graph has no edge to "me"
    (vertex 8); three membership calls add one "has" edge there. *)
Lemma recordMembership_once_witness :
  ∃ cl' g',
    times 3 (recordMembership (H := stable_order) (Some 3) (Some 8)) Demo.client
      = Ok ((), cl')
    ∧ active_graph cl' = Some g'
    ∧ edges_between g' 3 8 = [mkEdge (Some 18) "has" (Some 3) (Some 8) ∅]
    ∧ c_calls cl' =
        [CRunGremlinQuery (edge_query (Some 3) (Some 8));
         CAddEdge (new_Edge "has" (Some 3) (Some 8) ∅);
         CRunGremlinQuery (edge_query (Some 3) (Some 8));
         CRunGremlinQuery (edge_query (Some 3) (Some 8))].
Proof.
  destruct (recordMembership_once (H := stable_order) 3 8 3 Demo.client Demo.graph)
    as [Hnew _]; [done|done|done|lia|].
  destruct (Hnew eq_refl) as (cl1 & cl' & g' & _ & Hrun & _ & Hg' & _ & _ & He & Hcalls).
  by exists cl', g'.
Defined.

End membership_claim.

Section single_edge_claim.
Import GraphRecipeStore.

(** C10: the look-up of [add_edge_if_not_exists] and of
    [add_update_edge] goes by the two end points and by nothing else.
    Where an edge of whatever label joins them, [add_edge_if_not_exists]
    writes nothing and [add_update_edge] raises the count of that edge
    (a missing count reads as 0) and leaves its label alone, whatever the
    label of the edge passed in.  So neither operation ever puts a second
    edge between two vertices, and a graph that the store has written
    has at most one edge, of whatever label, from any vertex to any
    other. *)
Theorem edge_lookup_ignores_label `{!GremlinOrder}
    (edge : Edge) (a b : Z) (cl : Client) (g : GraphData) :
  e_out_v edge = Some a → e_in_v edge = Some b →
  active_graph cl = Some g →
  (∀ e es,
     vertices_with_id g (Some a) ≠ [] → vertices_with_id g (Some b) ≠ [] →
     edges_between g a b = e :: es →
     add_edge_if_not_exists edge cl
       = Ok ((), logged (CRunGremlinQuery (edge_query (Some a) (Some b))) cl)
     ∧ (∀ c, is_Some (e_id e) → count_of e = Some c →
          ∃ cl' g',
            add_update_edge edge cl = Ok ((), cl')
            ∧ active_graph cl' = Some g'
            ∧ g_edges g' = overwrite_properties (set_property_value e "count" (PInt (c + 1)))
                             <$> g_edges g
            ∧ edges_between g' a b
              = set_property_value e "count" (PInt (c + 1))
                :: (overwrite_properties (set_property_value e "count" (PInt (c + 1))) <$> es)
            ∧ e_label (set_property_value e "count" (PInt (c + 1))) = e_label e))
  ∧ (at_most_one_edge g →
     ∀ cl', add_edge_if_not_exists edge cl = Ok ((), cl')
            ∨ add_update_edge edge cl = Ok ((), cl') →
            ∃ g', active_graph cl' = Some g' ∧ at_most_one_edge g')
  ∧ (store_built cl → at_most_one_edge g).
Proof.
  intros Hout Hin Hg. split_and!.
  - intros e es Ha Hb He. split.
    + by eapply add_edge_if_not_exists_existing.
    + intros c Hid Hc.
      destruct (add_update_edge_step edge a b cl g e es c)
        as (cl' & g' & Hrun & Hg' & _ & _ & Hedges & Hbetween); try done.
      by exists cl', g'.
  - intros Hone cl' [Hrun|Hrun].
    + apply add_edge_if_not_exists_inv in Hrun as (g0 & g' & Hg0 & Hg' & Hw).
      rewrite Hg in Hg0. injection Hg0 as <-.
      exists g'. split; [done|]. by eapply edge_written_at_most_one.
    + apply add_update_edge_inv in Hrun as (g0 & g' & Hg0 & Hg' & Hw).
      rewrite Hg in Hg0. injection Hg0 as <-.
      exists g'. split; [done|]. by eapply edge_written_at_most_one.
  - intros (g0 & Hg0 & Hinv)%store_built_invariant.
    rewrite Hg in Hg0. injection Hg0 as <-. by destruct Hinv as (_ & _ & _ & _ & ?).
Qed.

(** In the example graph a "has" edge (number 9) runs from recipe x to
    the ingredient.  A "selects" edge between the same two vertices is
    not added by [add_edge_if_not_exists], and [add_update_edge] with it
    gives the "has" edge the count 1. *)
Lemma edge_lookup_ignores_label_witness :
  add_edge_if_not_exists (H := stable_order)
    (new_Edge "selects" (Some 2) (Some 1) {[ "count" := PInt 1 ]}) Demo.client
  = Ok ((), logged (CRunGremlinQuery (edge_query (Some 2) (Some 1))) Demo.client)
  ∧ ∃ cl' g',
      add_update_edge (H := stable_order)
        (new_Edge "selects" (Some 2) (Some 1) {[ "count" := PInt 1 ]}) Demo.client
      = Ok ((), cl')
      ∧ active_graph cl' = Some g'
      ∧ edges_between g' 2 1 = [counted_edge 9 "has" 2 1 1].
Proof.
  destruct (edge_lookup_ignores_label (H := stable_order)
              (new_Edge "selects" (Some 2) (Some 1) {[ "count" := PInt 1 ]})
              2 1 Demo.client Demo.graph eq_refl eq_refl eq_refl) as [Hfound _].
  destruct (Hfound (Demo.has_edge 9 2 1) []) as [Hnoop Hincr]; [done|done|done|].
  split; [exact Hnoop|].
  destruct (Hincr 0) as (cl' & g' & Hrun & Hg' & _ & He & _); [by eexists|done|].
  exists cl', g'. split_and!; [done..|]. by rewrite He.
Defined.

End single_edge_claim.

(** ** Traversals that find nothing *)
Section nothing_found.
Import GraphRecipeStore ListFacts.
Context `{!GremlinOrder}.

Lemma order_decr_nil : order_decr [] = [].
Proof. apply Permutation_nil_r, order_decr_perm. Qed.

Lemma outE_no_edges g ts : g_edges g = [] → eval_step g outE ts = Ok [].
Proof.
  intros Hg. cbn. f_equal. rewrite (bind_ext_in _ _ (λ _, [])); [apply bind_nil_const|].
  intros t _. destruct (current t) as [[v|e]|]; [|done..].
  unfold out_edges. rewrite Hg. by destruct (v_id v).
Qed.

Lemma in_no_edges g l ts : g_edges g = [] → groovy_safe l → eval_step g (in_ l) ts = Ok [].
Proof.
  intros Hg Hl%Is_true_true. cbn. rewrite Hl. f_equal.
  rewrite (bind_ext_in _ _ (λ _, [])); [apply bind_nil_const|].
  intros t _. destruct (current t) as [[v|e]|]; [|done..].
  unfold in_edges. rewrite Hg. by destruct (v_id v).
Qed.

Lemma eval_steps_app g ss1 ss2 ts :
  eval_steps g (ss1 ++ ss2) ts = eval_steps g ss1 ts ≫= eval_steps g ss2.
Proof.
  revert ts. induction ss1 as [|s ss1 IH]; intros ts; [done|].
  cbn [app eval_steps]. destruct (eval_step g s ts) as [ts'|e]; [|done].
  apply IH.
Qed.

Lemma eval_steps_singleton g s ts : eval_steps g [s] ts = eval_step g s ts.
Proof. cbn. by destruct (eval_step g s ts). Qed.

(** Without edges, the favourites traversal finds nothing. *)
Lemma favorite_query_no_edges g user_vertex count :
  g_edges g = [] →
  groovy_safe (py_format (get_property_value (EV user_vertex) "name")) →
  -1 ≤ count →
  eval_query g (favorite_query user_vertex count) = Ok [].
Proof.
  intros Hg Hs%Is_true_true Hc. unfold eval_query, favorite_query.
  cbn [q_steps q_path].
  change (g_V :: ?s1 :: ?s2 :: outE :: ?rest) with ([g_V; s1; s2] ++ [outE] ++ rest).
  rewrite eval_steps_app.
  assert (∃ ts, eval_steps g
                  [g_V; hasLabel "person";
                   has "name" (P_eq (py_format (get_property_value (EV user_vertex) "name")))]
                  [[]] = Ok ts) as [ts ->].
  { cbn [eval_steps eval_step pred_safe].
    change (groovy_safe "person") with true. change (groovy_safe "name") with true.
    rewrite Hs. by eexists. }
  cbn [mbind Result_bind]. rewrite eval_steps_app. cbn [eval_steps].
  rewrite outE_no_edges by done.
  cbn [mbind Result_bind eval_steps eval_step].
  change (groovy_safe "count") with true. change (groovy_safe "recipe") with true.
  cbn [sort_keys mbind Result_bind]. rewrite order_decr_nil.
  cbn [fmap list_fmap mbind Result_bind list_bind filter list_filter].
  case_bool_decide; [by rewrite take_nil|].
  by rewrite bool_decide_eq_true_2 by lia.
Qed.

(** Without edges, the recommendation traversal finds nothing. *)
Lemma recommended_query_no_edges g anchor_label name user_vertex :
  g_edges g = [] →
  groovy_safe anchor_label → groovy_safe name →
  groovy_safe (py_format (get_property_value (EV user_vertex) "name")) →
  eval_query g (recommended_query anchor_label name user_vertex) = Ok [].
Proof.
  intros Hg Hl%Is_true_true Hn%Is_true_true Hs%Is_true_true.
  unfold eval_query, recommended_query.
  cbn [q_steps q_path].
  change (g_V :: ?s1 :: ?s2 :: in_ ?l :: ?rest) with ([g_V; s1; s2] ++ [in_ l] ++ rest).
  rewrite eval_steps_app.
  assert (∃ ts, eval_steps g [g_V; hasLabel anchor_label; has "name" (P_eq name)] [[]]
                = Ok ts) as [ts ->].
  { cbn [eval_steps eval_step pred_safe].
    change (groovy_safe "name") with true. rewrite Hl, Hn. by eexists. }
  cbn [mbind Result_bind]. rewrite eval_steps_app. cbn [eval_steps].
  rewrite in_no_edges by done.
  cbn [mbind Result_bind eval_steps eval_step].
  change (groovy_safe "count") with true. change (groovy_safe "person") with true.
  change (groovy_safe "name") with true. cbn [pred_safe]. rewrite Hs.
  cbn [andb sort_keys mbind Result_bind list_bind filter list_filter].
  rewrite order_decr_nil. done.
Qed.

End nothing_found.

Section nothing_found_claim.
Import GraphRecipeStore.

(** C8: when the traversal finds nothing, [find_favorite_recipes_for_user],
    [get_recommended_recipes] and the two methods built on it return the
    empty list and raise nothing.  A graph without edges, the empty
    graph among them, is such a state. *)
Theorem nothing_found_empty_list `{!GremlinOrder}
    (user_vertex : Vertex) (count : Z) (query : Query) (cl : Client) (g : GraphData) :
  active_graph cl = Some g →
  (eval_query g (favorite_query user_vertex count) = Ok [] →
     find_favorite_recipes_for_user user_vertex count cl
     = Ok ([], logged (CRunGremlinQuery (favorite_query user_vertex count)) cl))
  ∧ (eval_query g query = Ok [] →
       get_recommended_recipes query count cl
       = Ok ([], logged (CRunGremlinQuery query) cl))
  ∧ (∀ s, eval_query g (recommended_query "ingredient" (get_unique_ingredients_name s)
                          user_vertex) = Ok [] →
       ∃ cl', find_recommended_recipes_for_ingredient s user_vertex count cl = Ok ([], cl'))
  ∧ (∀ s, eval_query g (recommended_query "cuisine" (get_unique_cuisine_name s)
                          user_vertex) = Ok [] →
       ∃ cl', find_recommended_recipes_for_cuisine s user_vertex count cl = Ok ([], cl'))
  ∧ (g_edges g = [] →
     groovy_safe (py_format (get_property_value (EV user_vertex) "name")) →
     (-1 ≤ count →
        ∃ cl', find_favorite_recipes_for_user user_vertex count cl = Ok ([], cl'))
     ∧ (∀ s, groovy_safe (get_unique_ingredients_name s) →
          ∃ cl', find_recommended_recipes_for_ingredient s user_vertex count cl
                 = Ok ([], cl'))
     ∧ (∀ s, groovy_safe (get_unique_cuisine_name s) →
          ∃ cl', find_recommended_recipes_for_cuisine s user_vertex count cl
                 = Ok ([], cl'))).
Proof.
  intros Hg.
  assert (∀ q, eval_query g q = Ok [] →
            get_recommended_recipes q count cl = Ok ([], logged (CRunGremlinQuery q) cl))
    as Hrec.
  { intros q Hq. unfold get_recommended_recipes.
    by erewrite bind_Ok by by eapply run_gremlin_query_Ok. }
  assert (eval_query g (favorite_query user_vertex count) = Ok [] →
          find_favorite_recipes_for_user user_vertex count cl
          = Ok ([], logged (CRunGremlinQuery (favorite_query user_vertex count)) cl))
    as Hfav.
  { intros Hq. unfold find_favorite_recipes_for_user.
    change (mkQuery _ false) with (favorite_query user_vertex count).
    by erewrite bind_Ok by by eapply run_gremlin_query_Ok. }
  split_and!.
  - exact Hfav.
  - apply Hrec.
  - intros s Hq. eexists. by apply Hrec.
  - intros s Hq. eexists. by apply Hrec.
  - intros He Hsafe. split_and!.
    + intros Hc. eexists. by apply Hfav, favorite_query_no_edges.
    + intros s Hs. eexists. by apply Hrec, recommended_query_no_edges.
    + intros s Hs. eexists. by apply Hrec, recommended_query_no_edges.
Qed.

(** A graph fresh from [create_graph]: favourites and recommendations
    are empty lists. *)
Lemma nothing_found_empty_list_witness :
  find_favorite_recipes_for_user (H := stable_order) Demo.me 5
    (mkClient {[ "recipes" := empty_graph ]} "recipes" [])
  = Ok ([], logged (CRunGremlinQuery (favorite_query Demo.me 5))
              (mkClient {[ "recipes" := empty_graph ]} "recipes" []))
  ∧ get_recommended_recipes (H := stable_order)
      (recommended_query "ingredient" "egg" Demo.me) 5
      (mkClient {[ "recipes" := empty_graph ]} "recipes" [])
    = Ok ([], logged (CRunGremlinQuery (recommended_query "ingredient" "egg" Demo.me))
                (mkClient {[ "recipes" := empty_graph ]} "recipes" [])).
Proof.
  destruct (nothing_found_empty_list (H := stable_order) Demo.me 5
              (recommended_query "ingredient" "egg" Demo.me)
              (mkClient {[ "recipes" := empty_graph ]} "recipes" []) empty_graph)
    as (Hfav & Hrec & _); [reflexivity|].
  split; [apply Hfav|apply Hrec]; by vm_compute.
Defined.

End nothing_found_claim.

(** ** The favourites *)
Section favorites.
Import GraphRecipeStore ListFacts.
Context `{!GremlinOrder}.

Lemma vertex_steps_eval g l k s :
  groovy_safe l → groovy_safe k → groovy_safe s →
  eval_steps g [g_V; hasLabel l; has k (P_eq s)] [[]]
  = Ok ((λ v, [EV v]) <$> matching_vertices g l k s).
Proof.
  intros Hl Hk Hs.
  cbn [eval_steps eval_step mbind Result_bind pred_safe].
  apply Is_true_true in Hl, Hk, Hs. rewrite Hl, Hk, Hs.
  cbn [andb eval_steps mbind Result_bind]. f_equal.
  change (list_bind _ _ ?f [[]]) with ([[]] ≫= f).
  rewrite bind_singleton, !filter_fmap, list_filter_filter.
  f_equal. unfold matching_vertices. apply list_filter_iff.
  intros v. cbn. rewrite bool_decide_spec.
  unfold get_property_value. cbn.
  destruct (v_properties v !! k) as [w|]; cbn.
  - rewrite bool_decide_spec. split; [by intros [-> ?]|by intros [? [= ->]]].
  - split; [by intros [[] _]|by intros [_ ?]].
Qed.

Lemma sort_keys_Ok k ts :
  Forall (λ t, ∃ n, sort_key k t = Ok n) ts →
  sort_keys k ts = Ok ((λ t, (key_or_0 k t, t)) <$> ts).
Proof.
  induction 1 as [|t ts [n Hn] _ IH]; [done|].
  cbn [sort_keys]. rewrite Hn, IH. cbn. unfold key_or_0. by rewrite Hn.
Qed.

Lemma StronglySorted_omap_in {A B} (R1 : relation A) (R2 : relation B)
    (f : A → option B) (l : list A) :
  (∀ x y a b, x ∈ l → y ∈ l → R1 x y → f x = Some a → f y = Some b → R2 a b) →
  StronglySorted R1 l → StronglySorted R2 (omap f l).
Proof.
  intros HR Hs. induction Hs as [|x l Hs IH Hx]; [constructor|].
  cbn. assert (StronglySorted R2 (omap f l)) as IH'.
  { apply IH. intros x' y' a' b' Hx' Hy'. apply HR; by apply list_elem_of_further. }
  destruct (f x) as [a|] eqn:Hfx; [|done].
  constructor; [done|]. apply Forall_forall. intros b (y & Hy & Hfy)%list_elem_of_omap.
  eapply (HR x y); [apply list_elem_of_here|by apply list_elem_of_further| |done..].
  by eapply Forall_forall in Hx.
Qed.

Lemma omap_then_bind {A B C} (f : A → option B) (g : B → list C) (l : list A) :
  omap f l ≫= g = l ≫= (λ x, from_option g [] (f x)).
Proof.
  induction l as [|x l IH]; [done|].
  cbn. destruct (f x); cbn; by rewrite ?bind_cons, IH.
Qed.

Lemma fmap_bind {A B C} (f : B → C) (g : A → list B) (l : list A) :
  f <$> (l ≫= g) = l ≫= (λ x, f <$> g x).
Proof.
  induction l as [|x l IH]; [done|].
  by rewrite !bind_cons, fmap_app, IH.
Qed.

Lemma omap_fmap {A B C} (f : B → option C) (g : A → B) (l : list A) :
  omap f (g <$> l) = omap (f ∘ g) l.
Proof. induction l as [|x l IH]; [done|]. cbn. by rewrite IH. Qed.

Lemma on_out_edges_form g n t :
  t ∈ on_out_edges g n → ∃ e p, t = [EE e; EV p].
Proof.
  intros (p & Ht & _)%list_elem_of_bind.
  apply list_elem_of_fmap in Ht as (e & -> & _). by exists e, p.
Qed.

Lemma on_out_edges_edges g n : omap edge_of (on_out_edges g n) = user_out_edges g n.
Proof.
  unfold on_out_edges, user_out_edges. rewrite omap_bind.
  apply list_bind_ext; [|done]. intros p.
  rewrite (omap_fmap_Some _ _ id) by done. apply list_fmap_id.
Qed.

Lemma outE_eval g n :
  eval_step g outE ((λ v, [EV v]) <$> matching_vertices g "person" "name" n)
  = Ok (on_out_edges g n).
Proof. cbn. f_equal. by rewrite list_fmap_bind. Qed.

Lemma sort_key_edge k e rest :
  sort_key k (EE e :: rest) =
    match e_properties e !! k with Some (PInt n) => Ok n | _ => Raise QueryError end.
Proof. done. Qed.

Lemma key_or_0_weight e rest : key_or_0 "count" (EE e :: rest) = weight e.
Proof.
  unfold key_or_0, weight. rewrite sort_key_edge.
  by destruct (e_properties e !! "count") as [[]|].
Qed.



Lemma order_by_count_eval g n :
  Forall has_weight (user_out_edges g n) →
  ∃ ts, eval_step g (order_by_decr "count") (on_out_edges g n) = Ok ts
        ∧ ts ≡ₚ on_out_edges g n
        ∧ StronglySorted heavier (omap edge_of ts).
Proof.
  intros Hw. cbn [eval_step]. change (groovy_safe "count") with true. cbv iota.
  rewrite sort_keys_Ok; cycle 1.
  { apply Forall_forall. intros t Ht.
    destruct (on_out_edges_form _ _ _ Ht) as (e & p & ->).
    assert (e ∈ user_out_edges g n) as He.
    { rewrite <-on_out_edges_edges. apply list_elem_of_omap. by eexists. }
    eapply Forall_forall in Hw as [k Hk]; [|done].
    exists k. by rewrite sort_key_edge, Hk. }
  cbn [mbind Result_bind].
  set (kts := (λ t, (key_or_0 "count" t, t)) <$> on_out_edges g n).
  assert ((order_decr kts).*2 ≡ₚ on_out_edges g n) as Hperm.
  { rewrite order_decr_perm. unfold kts. rewrite <-list_fmap_compose.
    by rewrite list_fmap_id. }
  eexists. split_and!; [done|done|].
  rewrite omap_fmap.
  apply (StronglySorted_omap_in (λ a b, b.1 ≤ a.1)).
  - intros x y a b Hx Hy Hxy Ha Hb.
    rewrite order_decr_perm in Hx, Hy.
    apply list_elem_of_fmap in Hx as (tx & -> & Htx), Hy as (ty & -> & Hty).
    destruct (on_out_edges_form _ _ _ Htx) as (ex & px & ->).
    destruct (on_out_edges_form _ _ _ Hty) as (ey & py & ->).
    cbn in Ha, Hb, Hxy. simplify_eq. rewrite !key_or_0_weight in Hxy. done.
  - apply Sorted_StronglySorted; [apply _|]. apply order_decr_sorted.
Qed.

Lemma omap_take_Some {A B} (f : A → option B) (k : nat) (l : list A) :
  (∀ x, x ∈ l → is_Some (f x)) → omap f (take k l) = take k (omap f l).
Proof.
  revert k. induction l as [|x l IH]; intros k Hf; [by destruct k|].
  destruct k as [|k]; [done|].
  destruct (Hf x (list_elem_of_here _ _)) as [y Hy].
  cbn. rewrite Hy. cbn. f_equal. apply IH.
  intros z Hz. by apply Hf, list_elem_of_further.
Qed.

Lemma favorite_tail_eval g count ts :
  0 ≤ count →
  (∀ t, t ∈ ts → ∃ e p, t = [EE e; EV p]) →
  ∃ L, eval_steps g [inV; hasLabel "recipe"; limit count] ts = Ok L
       ∧ omap (response_of false) L
         = RElement ∘ EV <$> take (Z.to_nat count) (recipe_destinations g (omap edge_of ts)).
Proof.
  intros Hc Hform.
  cbn [eval_steps eval_step mbind Result_bind].
  change (groovy_safe "recipe") with true. cbv iota.
  cbn [mbind Result_bind]. rewrite bool_decide_eq_true_2 by done.
  eexists. split; [done|].
  unfold recipe_destinations. rewrite omap_then_bind.
  change (ts ≫= _) with (ts ≫= edge_recipes g) at 2.
  rewrite filter_bind.
  match goal with
  | |- omap _ (take _ ?X) = _ =>
      assert (X = ts ≫= λ t, (λ v, EV v :: t) <$> edge_recipes g t) as ->
  end.
  { apply bind_ext_in. intros t Ht.
    destruct (Hform t Ht) as (e & p & ->). cbn.
    rewrite filter_fmap. f_equal.
    apply list_filter_iff. intros v. cbn. by rewrite bool_decide_spec. }
  rewrite omap_take_Some; cycle 1.
  { intros x (t & Hx & _)%list_elem_of_bind.
    by apply list_elem_of_fmap in Hx as (v & -> & _). }
  rewrite fmap_take. f_equal.
  rewrite omap_bind, fmap_bind. apply bind_ext_in. intros t _.
  by apply omap_fmap_Some.
Qed.

Lemma favorite_recipes_loop_vertices vs cl :
  favorite_recipes_loop (RElement ∘ EV <$> vs) cl = Ok (recipe_entry <$> vs, cl).
Proof.
  induction vs as [|v vs IH]; [done|].
  cbn [fmap list_fmap favorite_recipes_loop compose as_element].
  rewrite ret_bind. erewrite bind_Ok by exact IH. done.
Qed.

End favorites.

Section favorites_run.
Import GraphRecipeStore ListFacts.
Context `{!GremlinOrder}.

(** The whole of [find_favorite_recipes_for_user]: the out-edges of the
    user in some order of non-increasing count, the recipe vertices they
    lead to, the first [count] of those. *)
Lemma find_favorite_recipes_for_user_run user_vertex count n cl g :
  active_graph cl = Some g →
  get_property_value (EV user_vertex) "name" = Some (PStr n) →
  groovy_safe n →
  0 ≤ count →
  Forall has_weight (user_out_edges g n) →
  ∃ sorted,
    sorted ≡ₚ user_out_edges g n
    ∧ StronglySorted heavier sorted
    ∧ find_favorite_recipes_for_user user_vertex count cl
      = Ok (recipe_entry <$> take (Z.to_nat count) (recipe_destinations g sorted),
            logged (CRunGremlinQuery (favorite_query user_vertex count)) cl).
Proof.
  intros Hg Hn Hsafe Hc Hw.
  destruct (order_by_count_eval g n Hw) as (ts & Hsort & Hperm & Hsorted).
  destruct (favorite_tail_eval g count ts Hc) as (L & Htail & Hresp).
  { intros t Ht. rewrite Hperm in Ht. by eapply on_out_edges_form. }
  exists (omap edge_of ts). split_and!.
  - by rewrite Hperm, on_out_edges_edges.
  - done.
  - unfold find_favorite_recipes_for_user.
    change (mkQuery _ false) with (favorite_query user_vertex count).
    assert (eval_query g (favorite_query user_vertex count)
            = Ok (RElement ∘ EV <$> take (Z.to_nat count)
                    (recipe_destinations g (omap edge_of ts)))) as Hq.
    { unfold eval_query, favorite_query. cbn [q_steps q_path]. rewrite Hn. cbn [py_format].
      change (g_V :: ?s1 :: ?s2 :: outE :: ?s4 :: ?rest)
        with ([g_V; s1; s2] ++ [outE] ++ [s4] ++ rest).
      rewrite eval_steps_app, vertex_steps_eval by done. cbn [mbind Result_bind].
      rewrite eval_steps_app, eval_steps_singleton, outE_eval.
      cbn [mbind Result_bind]. rewrite eval_steps_app, eval_steps_singleton.
      rewrite Hsort. cbn [mbind Result_bind]. rewrite Htail. by rewrite Hresp. }
    erewrite bind_Ok by (by eapply run_gremlin_query_Ok).
    case_bool_decide as Hlen.
    + apply favorite_recipes_loop_vertices.
    + rewrite length_fmap in Hlen.
      destruct (take _ _); [done|]. cbn in Hlen. lia.
Qed.

End favorites_run.

Section favorites_claim.
Import GraphRecipeStore.

Lemma heavier_dec_false (l : list Edge) : bool_decide (StronglySorted heavier l) = false → ¬ StronglySorted heavier l.
Proof. apply bool_decide_eq_false_1. Qed.

(** C6: [find_favorite_recipes_for_user] takes the out-edges of the
    user in an order of non-increasing count (ties as the service
    pleases), keeps the destinations that are recipe vertices, and
    returns the first [count] of them in that order.  The edges are
    required to carry integer counts, which they do in every graph that
    the store has written.  For a user with edges to recipes A (5), B (2)
    and C (5), and limit 2, the result has two entries, A and C, and not
    B. *)
Theorem find_favorite_recipes_for_user_top `{!GremlinOrder} :
  (∀ user_vertex count n cl g,
     active_graph cl = Some g →
     get_property_value (EV user_vertex) "name" = Some (PStr n) →
     groovy_safe n →
     0 ≤ count →
     Forall has_weight (user_out_edges g n) →
     ∃ sorted,
       sorted ≡ₚ user_out_edges g n
       ∧ StronglySorted heavier sorted
       ∧ find_favorite_recipes_for_user user_vertex count cl
         = Ok (recipe_entry <$> take (Z.to_nat count) (recipe_destinations g sorted),
               logged (CRunGremlinQuery (favorite_query user_vertex count)) cl)
       ∧ (length (take (Z.to_nat count) (recipe_destinations g sorted)) ≤ Z.to_nat count)%nat)
  ∧ (∀ cl g n,
       store_built cl → active_graph cl = Some g →
       Forall has_weight (user_out_edges g n))
  ∧ (∃ rs cl',
       find_favorite_recipes_for_user DemoFavorites.dan 2 DemoFavorites.client = Ok (rs, cl')
       ∧ length rs = 2%nat
       ∧ recipe_entry DemoFavorites.A ∈ rs
       ∧ recipe_entry DemoFavorites.C ∈ rs
       ∧ recipe_entry DemoFavorites.B ∉ rs).
Proof.
  split_and!.
  - intros user_vertex count n cl g Hg Hn Hsafe Hc Hw.
    destruct (find_favorite_recipes_for_user_run user_vertex count n cl g)
      as (sorted & Hperm & Hsorted & Hrun); try done.
    exists sorted. split_and!; [done..|]. rewrite length_take. lia.
  - intros cl g n (g0 & Hg0 & Hinv)%store_built_invariant Hg.
    rewrite Hg in Hg0. injection Hg0 as <-. by apply store_invariant_weights.
  - destruct (find_favorite_recipes_for_user_run DemoFavorites.dan 2 "dan"
                DemoFavorites.client DemoFavorites.graph)
      as (sorted & Hperm & Hsorted & Hrun); [done|done|done|done| |].
    { vm_compute. repeat constructor; by eexists. }
    eexists _, _. split; [exact Hrun|].
    symmetry in Hperm. apply permutations_Permutation in Hperm.
    assert (user_out_edges DemoFavorites.graph "dan"
            = [Demo.selects_edge 6 1 2 5; Demo.selects_edge 7 1 3 2;
               Demo.selects_edge 8 1 4 5; Demo.selects_edge 9 1 5 9]) as HE
      by (by vm_compute).
    rewrite HE in Hperm. cbn in Hperm.
    repeat (apply elem_of_cons in Hperm as [->|Hperm]);
      try (by apply elem_of_nil in Hperm);
      try (exfalso; revert Hsorted; apply heavier_dec_false; by vm_compute).
    all: set (rs := recipe_entry <$> _);
      assert (rs = [recipe_entry DemoFavorites.A; recipe_entry DemoFavorites.C]
              ∨ rs = [recipe_entry DemoFavorites.C; recipe_entry DemoFavorites.A])
        as [-> | ->] by (vm_compute; auto).
    all: split_and!; [done|rewrite !elem_of_cons; auto..|].
    all: rewrite !not_elem_of_cons; split_and!; [by vm_compute..|apply not_elem_of_nil].
Qed.

(** With the stable order the two recipes of weight 5 come in the order
    of their edges: A, then C. *)
Lemma find_favorite_recipes_for_user_top_witness :
  find_favorite_recipes_for_user (H := stable_order) DemoFavorites.dan 2 DemoFavorites.client
  = Ok ([recipe_entry DemoFavorites.A; recipe_entry DemoFavorites.C],
        logged (CRunGremlinQuery (favorite_query DemoFavorites.dan 2)) DemoFavorites.client).
Proof.
  destruct (proj1 (find_favorite_recipes_for_user_top (H := stable_order))
              DemoFavorites.dan 2 "dan" DemoFavorites.client DemoFavorites.graph)
    as (sorted & _ & _ & Hrun & _); [done|done|done|done| |].
  { vm_compute. repeat constructor; by eexists. }
  rewrite Hrun. by vm_compute.
Defined.

End favorites_claim.

(** ** The recommendations *)
Section recommendations.
Import GraphRecipeStore ListFacts.
Context `{!GremlinOrder}.

Lemma vertices_with_id_elem g i v : v ∈ vertices_with_id g i → v ∈ g_vertices g ∧ v_id v = i.
Proof.
  unfold vertices_with_id. destruct i; [|by intros ?%elem_of_nil].
  by intros [? ?]%list_elem_of_filter.
Qed.

Lemma in_edges_elem g i e : e ∈ in_edges g i → e ∈ g_edges g ∧ e_in_v e = i.
Proof.
  unfold in_edges. destruct i; [|by intros ?%elem_of_nil].
  by intros [? ?]%list_elem_of_filter.
Qed.

Lemma in_has_stage g l n ts :
  Forall (at_anchor g l n) ts →
  ∃ ts', eval_step g (in_ "has") ts = Ok ts' ∧ Forall (at_recipe g l n) ts'.
Proof.
  intros Hts. cbn [eval_step]. change (groovy_safe "has") with true. cbv iota.
  eexists. split; [done|].
  apply Forall_bind. eapply Forall_impl; [exact Hts|].
  intros t (a & -> & Ha). cbn.
  apply Forall_bind, Forall_forall. intros h [Hlab [Hh Hin]%in_edges_elem]%list_elem_of_filter.
  apply Forall_fmap, Forall_forall. intros r [Hr Hid]%vertices_with_id_elem. cbn.
  by exists a, r, h.
Qed.

Lemma inE_stage g l n ts :
  Forall (at_recipe g l n) ts →
  ∃ ts', eval_step g inE ts = Ok ts' ∧ Forall (at_edge g l n) ts'.
Proof.
  intros Hts. cbn [eval_step]. eexists. split; [done|].
  apply Forall_bind. eapply Forall_impl; [exact Hts|].
  intros t Ht. destruct Ht as (a & r & h & -> & Hrest). cbn.
  apply Forall_fmap, Forall_forall. intros e [He Hin]%in_edges_elem. cbn.
  exists e, r, [EV a]. split_and!; [done| |done..]. by exists a, r, h.
Qed.

Lemma heavy_stage g l n ts :
  Forall (at_edge g l n) ts →
  ∃ ts', eval_step g (has "count" (P_gt 1)) ts = Ok ts'
         ∧ Forall (λ t, at_edge g l n t ∧ on_heavy_edge t) ts'.
Proof.
  intros Hts. cbn [eval_step]. change (groovy_safe "count") with true. cbn [pred_safe andb].
  eexists. split; [done|].
  apply Forall_forall. intros t [Hheavy Ht]%list_elem_of_filter.
  eapply Forall_forall in Hts; [|done]. split; [done|].
  destruct Hts as (e & r & rest & -> & _). cbn in Hheavy.
  unfold get_property_value in Hheavy. cbn in Hheavy.
  destruct (e_properties e !! "count") as [[s|k]|] eqn:Hk; try done.
  apply bool_decide_unpack in Hheavy. by exists e, (EV r :: rest), k.
Qed.

Lemma order_stage g ts :
  Forall on_heavy_edge ts →
  ∃ ts', eval_step g (order_by_decr "count") ts = Ok ts' ∧ ts' ≡ₚ ts.
Proof.
  intros Hts. cbn [eval_step]. change (groovy_safe "count") with true. cbv iota.
  rewrite sort_keys_Ok; cycle 1.
  { eapply Forall_impl; [exact Hts|]. intros t (e & rest & k & -> & Hk & _).
    exists k. by rewrite sort_key_edge, Hk. }
  cbn [mbind Result_bind]. eexists. split; [done|].
  rewrite order_decr_perm, <-list_fmap_compose. by rewrite list_fmap_id.
Qed.

Lemma outV_stage g l n ts :
  Forall (λ t, at_edge g l n t ∧ on_heavy_edge t) ts →
  ∃ ts', eval_step g outV ts = Ok ts' ∧ Forall (at_source g l n) ts'.
Proof.
  intros Hts. cbn [eval_step]. eexists. split; [done|].
  apply Forall_bind. eapply Forall_impl; [exact Hts|].
  intros t [Ht Hheavy]. destruct Ht as (e & r & rest & -> & Hrest). cbn.
  apply Forall_fmap, Forall_forall. intros p [Hp Hid]%vertices_with_id_elem. cbn.
  exists p, e, (EV r :: rest). split_and!; [done| |done..].
  by exists e, r, rest.
Qed.

Lemma person_stage g l n ts :
  Forall (at_source g l n) ts →
  ∃ ts', eval_step g (hasLabel "person") ts = Ok ts'
         ∧ Forall (λ t, at_source g l n t ∧ on_person t) ts'.
Proof.
  intros Hts. cbn [eval_step]. change (groovy_safe "person") with true. cbv iota.
  eexists. split; [done|].
  apply Forall_forall. intros t [Hlab Ht]%list_elem_of_filter.
  eapply Forall_forall in Hts; [|done]. split; [done|].
  destruct Hts as (p & e & rest & -> & _). cbn in Hlab.
  apply bool_decide_unpack in Hlab. by exists p, (EE e :: rest).
Qed.

Lemma other_stage g l n u ts :
  groovy_safe u →
  Forall (λ t, at_source g l n t ∧ on_person t) ts →
  ∃ ts', eval_step g (has "name" (P_neq u)) ts = Ok ts'
         ∧ Forall (λ t, at_source g l n t ∧ on_person t ∧ on_other u t) ts'.
Proof.
  intros Hu%Is_true_true Hts. cbn [eval_step pred_safe].
  change (groovy_safe "name") with true. rewrite Hu. cbn [andb].
  eexists. split; [done|].
  apply Forall_forall. intros t [Hneq Ht]%list_elem_of_filter.
  eapply Forall_forall in Hts as [Hsrc Hper]; [|done]. split_and!; [done..|].
  destruct Hsrc as (p & e & rest & -> & _). cbn in Hneq.
  unfold get_property_value in Hneq. cbn in Hneq.
  destruct (v_properties p !! "name") as [w|] eqn:Hw; [|done].
  apply bool_decide_unpack in Hneq. by exists p, (EE e :: rest), w.
Qed.

Lemma anchor_stage g l n :
  groovy_safe l → groovy_safe n →
  ∃ ts, eval_steps g [g_V; hasLabel l; has "name" (P_eq n)] [[]] = Ok ts
        ∧ Forall (at_anchor g l n) ts.
Proof.
  intros Hl Hn. rewrite vertex_steps_eval by done. eexists. split; [done|].
  apply Forall_fmap, Forall_forall. intros a Ha. by exists a.
Qed.

(** Every path the recommendation traversal returns is of the kind
    described by [recommended_path]. *)
Lemma recommended_query_eval g l n user_vertex :
  groovy_safe l → groovy_safe n →
  groovy_safe (py_format (get_property_value (EV user_vertex) "name")) →
  ∃ paths,
    eval_query g (recommended_query l n user_vertex) = Ok paths
    ∧ Forall (λ path, ∃ a r h e p,
                path = RPath [EV a; EV r; EE e; EV p]
                ∧ recommended_path g l n
                    (py_format (get_property_value (EV user_vertex) "name")) a r h e p)
        paths.
Proof.
  intros Hl Hn Hu. unfold eval_query, recommended_query. cbn [q_steps q_path].
  set (u := py_format _) in *.
  change (g_V :: ?s1 :: ?s2 :: ?s3 :: ?s4 :: ?s5 :: ?s6 :: ?s7 :: ?s8 :: ?s9 :: [])
    with ([g_V; s1; s2] ++ [s3] ++ [s4] ++ [s5] ++ [s6] ++ [s7] ++ [s8] ++ [s9]).
  rewrite eval_steps_app.
  destruct (anchor_stage g l n Hl Hn) as (t3 & -> & H3). cbn [mbind Result_bind].
  destruct (in_has_stage g l n t3 H3) as (t4 & E4 & H4).
  rewrite eval_steps_app, eval_steps_singleton, E4. cbn [mbind Result_bind].
  destruct (inE_stage g l n t4 H4) as (t5 & E5 & H5).
  rewrite eval_steps_app, eval_steps_singleton, E5. cbn [mbind Result_bind].
  destruct (heavy_stage g l n t5 H5) as (t6 & E6 & H6).
  rewrite eval_steps_app, eval_steps_singleton, E6. cbn [mbind Result_bind].
  destruct (order_stage g t6) as (t7 & E7 & H7).
  { eapply Forall_impl; [exact H6|]. by intros t [_ ?]. }
  rewrite eval_steps_app, eval_steps_singleton, E7. cbn [mbind Result_bind].
  rewrite <-H7 in H6.
  destruct (outV_stage g l n t7 H6) as (t8 & E8 & H8).
  rewrite eval_steps_app, eval_steps_singleton, E8. cbn [mbind Result_bind].
  destruct (person_stage g l n t8 H8) as (t9 & E9 & H9).
  rewrite eval_steps_app, eval_steps_singleton, E9. cbn [mbind Result_bind].
  destruct (other_stage g l n u t9 Hu H9) as (t10 & E10 & H10).
  rewrite eval_steps_singleton, E10.
  eexists. split; [done|].
  apply Forall_forall. intros path (t & Ht & Hpath)%list_elem_of_omap.
  eapply Forall_forall in H10 as (Hsrc & Hper & Hoth); [|done].
  destruct Hsrc as (p & e & rest & -> & Hedge & Hheavy & Hp & Hpid).
  destruct Hedge as (e' & r & rest' & [= <- ->] & Hrec & He & Hein).
  destruct Hrec as (a & r' & h & [= <- ->] & Ha & Hr & Hh & Hhl & Hho & Hhi).
  destruct Hheavy as (e' & rest' & k & [= <- <-] & Hk & Hk1).
  destruct Hper as (p' & rest' & [= <- <-] & Hpl).
  destruct Hoth as (p' & rest' & w & [= <- <-] & Hw & Hwu).
  cbn in Hpath. injection Hpath as <-.
  exists a, r, h, e, p. split; [done|].
  unfold recommended_path. split_and!; try done; by eexists.
Qed.

(** Every listed recipe is the recipe of some pair of the traversal. *)
Lemma reduce_step_ids limit rs v rcm :
  rcm ∈ reduce_step limit rs v →
  rc_id rcm ∈ rc_id <$> rs ∨ rc_id rcm = get_property_value v "name".
Proof.
  unfold reduce_step. case_decide as Hin.
  - intros Hr. left. rewrite <-(ids_bump (get_property_value v "name")).
    by apply list_elem_of_fmap_2.
  - case_decide.
    + intros [Hr| ->%list_elem_of_singleton]%elem_of_app; [|by right].
      left. by apply list_elem_of_fmap_2.
    + intros Hr. left. by apply list_elem_of_fmap_2.
Qed.

Lemma fold_reduce_step_ids limit vs rs rcm :
  rcm ∈ fold_left (reduce_step limit) vs rs →
  rc_id rcm ∈ rc_id <$> rs ∨ ∃ v, v ∈ vs ∧ rc_id rcm = get_property_value v "name".
Proof.
  revert rs. induction vs as [|v vs IH]; intros rs Hr.
  - left. by apply list_elem_of_fmap_2.
  - cbn [fold_left] in Hr. apply IH in Hr as [Hr|(w & Hw & Hr)].
    + apply list_elem_of_fmap in Hr as (rcm' & Hid & Hr).
      apply reduce_step_ids in Hr as [Hr|Hr]; rewrite <-Hid in Hr.
      * by left.
      * right. exists v. split; [apply list_elem_of_here|done].
    + right. exists w. split; [by apply list_elem_of_further|done].
Qed.

End recommendations.

Section recommendations_claim.
Import GraphRecipeStore.

Lemma get_recommended_recipes_run `{!GremlinOrder} query count cl g paths vs :
  active_graph cl = Some g →
  eval_query g query = Ok paths →
  Forall2 (λ p v, path_recipe p = Some v) paths vs →
  get_recommended_recipes query count cl
  = Ok (reduce count vs, logged (CRunGremlinQuery query) cl).
Proof.
  intros Hg Hq Hall. unfold get_recommended_recipes.
  erewrite bind_Ok by by eapply run_gremlin_query_Ok.
  case_bool_decide as Hlen.
  - apply recommend_loop_reduce; [done|]. apply NoDup_nil_2.
  - destruct Hall; [done|]. cbn in Hlen. lia.
Qed.

Lemma path_recipes_exist (paths : list Response) :
  Forall (λ p, is_Some (path_recipe p)) paths →
  ∃ vs, Forall2 (λ p v, path_recipe p = Some v) paths vs.
Proof.
  induction 1 as [|p paths [v Hv] _ [vs IH]]; [by exists []|].
  exists (v :: vs). by constructor.
Qed.

(** C7: the recommendations for an anchor (ingredient or cuisine) on
    behalf of a user.  Every listed recipe is backed by an edge into a
    vertex of that name whose count is above 1 and whose source is a
    person vertex with another name than the user's, hence not the
    user's own vertex; under the invariant of the write path, which
    holds of every graph that the store has written, that edge is a
    "selects" edge.  A recipe name whose vertices receive no edge of
    count above 1 from another person is not listed. *)
Theorem recommended_only_reinforced_by_others `{!GremlinOrder}
    (anchor_label name : string) (user_vertex : Vertex) (count : Z)
    (cl : Client) (g : GraphData) :
  active_graph cl = Some g →
  groovy_safe anchor_label → groovy_safe name →
  groovy_safe (py_format (get_property_value (EV user_vertex) "name")) →
  ∃ rs,
    get_recommended_recipes (recommended_query anchor_label name user_vertex) count cl
    = Ok (rs, logged (CRunGremlinQuery (recommended_query anchor_label name user_vertex)) cl)
    ∧ (∀ rcm, rcm ∈ rs →
         ∃ a r h e p,
           rc_id rcm = v_properties r !! "name"
           ∧ recommended_path g anchor_label name
               (py_format (get_property_value (EV user_vertex) "name")) a r h e p
           ∧ 1 < weight e
           ∧ ((∀ z, get_property_value (EV user_vertex) "name" ≠ Some (PInt z)) →
              p ≠ user_vertex)
           ∧ (store_invariant g → e_label e = "selects"))
    ∧ (∀ i,
         (∀ r e p w,
            r ∈ g_vertices g → v_properties r !! "name" = i →
            e ∈ g_edges g → e_in_v e = v_id r →
            p ∈ g_vertices g → v_id p = e_out_v e → v_label p = "person" →
            v_properties p !! "name" = Some w →
            w ≠ PStr (py_format (get_property_value (EV user_vertex) "name")) →
            weight e ≤ 1) →
         i ∉ rc_id <$> rs)
    ∧ (∀ s, find_recommended_recipes_for_ingredient s user_vertex count
            = get_recommended_recipes
                (recommended_query "ingredient" (get_unique_ingredients_name s) user_vertex)
                count)
    ∧ (∀ s, find_recommended_recipes_for_cuisine s user_vertex count
            = get_recommended_recipes
                (recommended_query "cuisine" (get_unique_cuisine_name s) user_vertex)
                count)
    ∧ (store_built cl → store_invariant g).
Proof.
  intros Hg Hl Hn Hu. set (u := py_format _) in *.
  destruct (recommended_query_eval g anchor_label name user_vertex Hl Hn Hu)
    as (paths & Hq & Hpaths).
  destruct (path_recipes_exist paths) as [vs Hvs].
  { eapply Forall_impl; [exact Hpaths|].
    intros path (a & r & h & e & p & -> & _). by eexists. }
  assert (∀ rcm, rcm ∈ reduce count vs →
            ∃ a r h e p, rc_id rcm = v_properties r !! "name"
                         ∧ recommended_path g anchor_label name u a r h e p) as Hback.
  { intros rcm Hr. apply fold_reduce_step_ids in Hr as [Hr|(v & Hv & Hid)].
    { by apply elem_of_nil in Hr. }
    apply list_elem_of_lookup in Hv as [k Hk].
    destruct (Forall2_lookup_r _ _ _ _ _ Hvs Hk) as (path & Hpath & Hrec).
    assert (path ∈ paths) as Hin by (by eapply list_elem_of_lookup_2).
    destruct (proj1 (Forall_forall _ _) Hpaths path Hin)
      as (a & r & h & e & p & -> & Hp).
    cbn in Hrec. injection Hrec as <-. by exists a, r, h, e, p. }
  exists (reduce count vs). split_and!.
  - by eapply get_recommended_recipes_run.
  - intros rcm Hr. destruct (Hback rcm Hr) as (a & r & h & e & p & Hid & Hp).
    exists a, r, h, e, p. split_and!; [done..| | |].
    + destruct Hp as (_ & _ & _ & _ & _ & _ & _ & _ & (k & Hk & Hk1) & _).
      unfold weight. by rewrite Hk.
    + intros Hname ->.
      destruct Hp as (_ & _ & _ & _ & _ & _ & _ & _ & _ & _ & _ & _ & (w & Hw & Hwu)).
      unfold u, get_property_value in *. cbn in *. rewrite Hw in *.
      destruct w as [s|z]; [done|]. by eapply Hname.
    + intros Hinv.
      destruct Hp as (_ & _ & _ & _ & _ & _ & He & _ & _ & Hpv & Hpid & Hplab & _).
      by eapply (store_invariant_person_edges g Hinv e p).
  - intros i Hlight (rcm & -> & Hr)%list_elem_of_fmap.
    destruct (Hback rcm Hr) as (a & r & h & e & p & Hid & Hp).
    destruct Hp as (_ & Hrv & _ & _ & _ & _ & He & Hein & (k & Hk & Hk1)
                    & Hpv & Hpid & Hplab & (w & Hw & Hwu)).
    specialize (Hlight r e p w Hrv (eq_sym Hid) He Hein Hpv Hpid Hplab Hw Hwu).
    unfold weight in Hlight. rewrite Hk in Hlight. lia.
  - done.
  - done.
  - intros (g0 & Hg0 & Hinv)%store_built_invariant. congruence.
Qed.

(** In the example graph ann and cat picked x more than once, bob
    picked y more than once and z once, ann picked z twice, and "me"
    picked x seven times: "me" is recommended x by two users, y by one,
    z by one. *)
Lemma recommended_only_reinforced_by_others_witness :
  get_recommended_recipes (H := stable_order)
    (recommended_query "ingredient" "egg" Demo.me) 5 Demo.client
  = Ok ([mkRecommendation (Some (PStr "x")) (Some (PStr "Omelette")) 2;
         mkRecommendation (Some (PStr "y")) (Some (PStr "Frittata")) 1;
         mkRecommendation (Some (PStr "z")) (Some (PStr "Quiche")) 1],
        logged (CRunGremlinQuery (recommended_query "ingredient" "egg" Demo.me)) Demo.client).
Proof.
  destruct (recommended_only_reinforced_by_others (H := stable_order)
              "ingredient" "egg" Demo.me 5 Demo.client Demo.graph)
    as (rs & Hrun & _); [done..|].
  rewrite Hrun. f_equal. f_equal.
  assert (Ok (A := list Recommendation * Client) (rs, logged (CRunGremlinQuery
            (recommended_query "ingredient" "egg" Demo.me)) Demo.client)
          = Ok ([mkRecommendation (Some (PStr "x")) (Some (PStr "Omelette")) 2;
                 mkRecommendation (Some (PStr "y")) (Some (PStr "Frittata")) 1;
                 mkRecommendation (Some (PStr "z")) (Some (PStr "Quiche")) 1],
                logged (CRunGremlinQuery (recommended_query "ingredient" "egg" Demo.me))
                  Demo.client)) as Heq
    by (rewrite <-Hrun; by vm_compute).
  by injection Heq.
Defined.

End recommendations_claim.

(* ===================================================================== *)
(** * Further properties of the store *)
(* ===================================================================== *)

Import PyStr PyStrFacts SplitFacts GraphRecipeStore ListFacts.

(** ** The keys are normal forms *)
Section normal_forms.
Import PyStr PyStrFacts SplitFacts GraphRecipeStore.

Lemma split_free sep s : occurs sep s = false → split sep s = [s].
Proof.
  induction s as [|c s IH]; [done|]. cbn [occurs split].
  intros [Hc Hs]%orb_false_iff. apply bool_decide_eq_false in Hc.
  rewrite decide_False by done. by rewrite IH.
Qed.

Lemma split_pieces_free sep s : Forall (λ t, occurs sep t = false) (split sep s).
Proof.
  induction s as [|c s IH]; [by repeat constructor|]. cbn [split].
  case_decide as Hc; [by constructor|].
  destruct IH as [|t ts Ht Hts]; cbn; constructor; try done.
  - cbn. by rewrite bool_decide_eq_false_2.
  - cbn. rewrite bool_decide_eq_false_2 by done. done.
Qed.

Lemma append_nil_l s : "" +:+ s = s.
Proof. done. Qed.

Lemma append_cons c s t : String c s +:+ t = String c (s +:+ t).
Proof. done. Qed.

Lemma split_app_sep sep t s :
  occurs sep t = false → split sep (t +:+ String sep s) = t :: split sep s.
Proof.
  induction t as [|c t IH]; rewrite ?append_nil_l, ?append_cons; cbn [occurs split].
  - intros _. by rewrite decide_True.
  - intros [Hc Ht]%orb_false_iff. apply bool_decide_eq_false in Hc.
    rewrite decide_False by done. by rewrite IH.
Qed.

Lemma split_join sep l :
  l ≠ [] → Forall (λ t, occurs sep t = false) l →
  split sep (join (String sep "") l) = l.
Proof.
  intros Hne Hl. induction Hl as [|t l Ht Hl IH]; [done|].
  destruct l as [|t2 l].
  - cbn. by apply split_free.
  - change (join (String sep "") (t :: t2 :: l))
      with (t +:+ String sep "" +:+ join (String sep "") (t2 :: l)).
    rewrite append_cons, append_nil_l, split_app_sep by done. by rewrite IH.
Qed.

Lemma occurs_lstrip c s : occurs c s = false → occurs c (lstrip s) = false.
Proof.
  induction s as [|c' s IH]; [done|]. cbn [lstrip].
  destruct (Ascii.is_space c'); [|done]. cbn. intros [_ ?]%orb_false_iff. auto.
Qed.

Lemma occurs_rstrip c s : occurs c s = false → occurs c (rstrip s) = false.
Proof.
  induction s as [|c' s IH]; [done|]. rewrite rstrip_cons.
  cbn [occurs]. intros [Hc Hs]%orb_false_iff.
  destruct (_ && _); [done|]. cbn. rewrite Hc. auto.
Qed.

Lemma occurs_strip c s : occurs c s = false → occurs c (strip s) = false.
Proof. intros. by apply occurs_rstrip, occurs_lstrip. Qed.

Lemma occurs_comma_lower s : occurs "," (lower s) = occurs "," s.
Proof.
  induction s as [|c s IH]; [done|]. cbn. rewrite IH. f_equal.
  apply bool_decide_ext. apply lower_char_comma.
Qed.

Lemma lower_char_idemp c : lower_char (lower_char c) = lower_char c.
Proof. by destruct c as [[] [] [] [] [] [] [] []]. Qed.

Lemma lower_idemp s : lower (lower s) = lower s.
Proof. induction s as [|c s IH]; [done|]. cbn. by rewrite lower_char_idemp, IH. Qed.

Lemma strip_idemp s : strip (strip s) = strip s.
Proof. unfold strip at 2. by rewrite strip_rstrip, strip_lstrip. Qed.

Lemma normalize_token_idemp t : normalize_token (normalize_token t) = normalize_token t.
Proof.
  unfold normalize_token. by rewrite (lower_strip t), lower_idemp, lower_strip, strip_idemp.
Qed.

Lemma ingredient_tokens_free s : Forall (λ t, occurs "," t = false) (ingredient_tokens s).
Proof.
  unfold ingredient_tokens. apply Forall_fmap.
  eapply Forall_impl; [apply split_pieces_free|]. intros t Ht. cbn.
  unfold normalize_token. apply occurs_strip. by rewrite occurs_comma_lower.
Qed.

Lemma ingredient_tokens_nonempty s : ingredient_tokens s ≠ [].
Proof.
  unfold ingredient_tokens. by destruct (split_nonempty "," s) as (t & ts & ->).
Qed.

Lemma ingredient_tokens_key s :
  ingredient_tokens (get_unique_ingredients_name s) = sort (ingredient_tokens s).
Proof.
  rewrite get_unique_ingredients_name_tokens. unfold ingredient_tokens at 1.
  assert (sort (ingredient_tokens s) ≡ₚ ingredient_tokens s) as Hp
    by apply merge_sort_Permutation.
  rewrite split_join.
  - apply list_eq. intros i. rewrite list_lookup_fmap.
    destruct (sort (ingredient_tokens s) !! i) as [t|] eqn:Ht; [|done]. cbn. f_equal.
    assert (t ∈ ingredient_tokens s) as Hin.
    { rewrite <-Hp. by eapply list_elem_of_lookup_2. }
    apply list_elem_of_fmap in Hin as (t0 & -> & _). apply normalize_token_idemp.
  - intros Hnil. rewrite Hnil in Hp. symmetry in Hp. apply Permutation_nil_r in Hp.
    by apply ingredient_tokens_nonempty in Hp.
  - rewrite Hp. apply ingredient_tokens_free.
Qed.

(** X1: the key of a list of ingredients splits back into the sorted
    normalised ingredients it was made of, and is its own key:
    normalising twice is normalising once. *)
Theorem get_unique_ingredients_name_idempotent (s : string) :
  ingredient_tokens (get_unique_ingredients_name s) = sort (ingredient_tokens s)
  ∧ get_unique_ingredients_name (get_unique_ingredients_name s)
    = get_unique_ingredients_name s.
Proof.
  split; [apply ingredient_tokens_key|].
  rewrite (get_unique_ingredients_name_tokens (get_unique_ingredients_name s)).
  rewrite ingredient_tokens_key, (get_unique_ingredients_name_tokens s).
  f_equal. apply sort_Permutation_eq, merge_sort_Permutation.
Qed.

Lemma get_unique_cuisine_name_idemp s :
  get_unique_cuisine_name (get_unique_cuisine_name s) = get_unique_cuisine_name s.
Proof.
  unfold get_unique_cuisine_name.
  by rewrite lower_strip, strip_idemp, lower_idemp.
Qed.

(** X2: the key of a cuisine is its own key and does not depend on the
    case of the letters or on white space around the text; for a text
    without a comma it is the key that [get_unique_ingredients_name] gives
    the same text. *)
Theorem get_unique_cuisine_name_normal (s : string) :
  get_unique_cuisine_name (get_unique_cuisine_name s) = get_unique_cuisine_name s
  ∧ get_unique_cuisine_name (lower s) = get_unique_cuisine_name s
  ∧ get_unique_cuisine_name (strip s) = get_unique_cuisine_name s
  ∧ (occurs "," s = false →
     get_unique_ingredients_name s = get_unique_cuisine_name s).
Proof.
  split_and!.
  - apply get_unique_cuisine_name_idemp.
  - unfold get_unique_cuisine_name. by rewrite <-lower_strip, lower_idemp, lower_strip.
  - unfold get_unique_cuisine_name. by rewrite strip_idemp.
  - intros Hfree. unfold get_unique_ingredients_name, get_unique_cuisine_name.
    rewrite split_free by (apply occurs_strip; by rewrite occurs_comma_lower).
    cbn. by rewrite strip_idemp, lower_strip.
Qed.

Lemma decimal_char_plain c :
  decimal_char c = true → Ascii.is_space c = false ∧ lower_char c = c.
Proof.
  intros Hc%bool_decide_eq_true. repeat (apply elem_of_cons in Hc as [->|Hc]; [done|]).
  by apply elem_of_nil in Hc.
Qed.

Lemma lower_decimal s : all_chars decimal_char s = true → lower s = s.
Proof.
  induction s as [|c s IH]; [done|]. cbn.
  intros [Hc Hs]%andb_true_iff. apply decimal_char_plain in Hc as [_ ->]. by rewrite IH.
Qed.

Lemma strip_decimal s : all_chars decimal_char s = true → strip s = s.
Proof.
  intros Hs. unfold strip.
  assert (lstrip s = s) as ->.
  { destruct s as [|c s]; [done|]. cbn in *. apply andb_true_iff in Hs as [Hc _].
    apply decimal_char_plain in Hc as [-> _]. done. }
  induction s as [|c s IH]; [done|]. cbn in Hs. apply andb_true_iff in Hs as [Hc Hs].
  rewrite rstrip_cons, IH by done. apply decimal_char_plain in Hc as [-> _]. done.
Qed.

Lemma string_of_uint_decimal d : all_chars decimal_char (NilEmpty.string_of_uint d) = true.
Proof. induction d; cbn; by rewrite ?IHd. Qed.

Lemma str_of_int_decimal n : all_chars decimal_char (str_of_int n) = true.
Proof.
  unfold str_of_int, NilZero.string_of_int, NilZero.string_of_uint.
  destruct (Z.to_int n) as [d|d]; destruct d; cbn; by rewrite ?string_of_uint_decimal.
Qed.

Lemma str_of_int_inj a b : str_of_int a = str_of_int b → a = b.
Proof.
  unfold str_of_int. intros Heq.
  assert (∀ z, Z.to_int z ≠ Decimal.Pos Decimal.Nil ∧ Z.to_int z ≠ Decimal.Neg Decimal.Nil)
    as Hnn.
  { intros [|p|p]; cbn; split; try done; intros [= Hp];
      by apply DecimalPos.Unsigned.to_uint_nonnil in Hp. }
  assert (Some (Z.to_int a) = Some (Z.to_int b)) as [= Hab].
  { destruct (Hnn a), (Hnn b).
    rewrite <-(NilZero.isi (Z.to_int a)), <-(NilZero.isi (Z.to_int b)) by done.
    by rewrite Heq. }
  rewrite <-(DecimalZ.of_to a), <-(DecimalZ.of_to b). by rewrite Hab.
Qed.

(** X3: the name of a recipe with an integer identifier is the decimal
    numeral of the integer, so recipes with different integer
    identifiers have different names; the numeral as a string has the
    same name as the integer; and a name is its own name. *)
Theorem get_unique_recipe_name_integers :
  (∀ n, get_unique_recipe_name (PInt n) = str_of_int n)
  ∧ (∀ a b, get_unique_recipe_name (PInt a) = get_unique_recipe_name (PInt b) → a = b)
  ∧ (∀ n, get_unique_recipe_name (PStr (str_of_int n)) = get_unique_recipe_name (PInt n))
  ∧ (∀ s, get_unique_recipe_name (PStr (get_unique_recipe_name (PStr s)))
          = get_unique_recipe_name (PStr s)).
Proof.
  assert (∀ n, get_unique_recipe_name (PInt n) = str_of_int n) as Hint.
  { intros n. unfold get_unique_recipe_name, py_str, py_format.
    by rewrite strip_decimal, lower_decimal by apply str_of_int_decimal. }
  split_and!.
  - done.
  - intros a b. rewrite !Hint. apply str_of_int_inj.
  - done.
  - intros s. unfold get_unique_recipe_name, py_str, py_format.
    by rewrite lower_strip, strip_idemp, lower_idemp.
Qed.


(** A cuisine in capitals with blanks around it. *)
Lemma get_unique_cuisine_name_normal_witness :
  get_unique_ingredients_name " THAI " = get_unique_cuisine_name " THAI "
  ∧ get_unique_cuisine_name " THAI " = "thai".
Proof.
  destruct (get_unique_cuisine_name_normal " THAI ") as (_ & _ & _ & Hsame).
  split; [by apply Hsame|done].
Defined.

(** Recipes 7 and 70. *)
Lemma get_unique_recipe_name_integers_witness :
  get_unique_recipe_name (PInt 7) = "7"
  ∧ get_unique_recipe_name (PInt 7) ≠ get_unique_recipe_name (PInt 70).
Proof.
  destruct get_unique_recipe_name_integers as (Hnum & Hinj & _).
  split; [by rewrite Hnum|]. intros Heq. by apply Hinj in Heq.
Defined.

End normal_forms.

(** ** Looking up what was added *)
Section lookup_after_add.
Import GraphRecipeStore ListFacts.
Context `{!GremlinOrder}.

Lemma find_vertex_run l k s cl g :
  active_graph cl = Some g →
  groovy_safe l → groovy_safe k → groovy_safe s →
  find_vertex l k s cl
  = Ok (head (matching_vertices g l k s), logged (CRunGremlinQuery (vertex_query l k s)) cl).
Proof.
  intros Hg Hl Hk Hs. unfold find_vertex.
  change (mkQuery _ false) with (vertex_query l k s).
  erewrite bind_Ok by (eapply run_gremlin_query_Ok; [done|by apply vertex_query_eval]).
  by destruct (matching_vertices g l k s).
Qed.

(** The vertex returned by [add_vertex_if_not_exists] is the first match
    afterwards. *)
Lemma add_vertex_if_not_exists_head (v : Vertex) k s cl r cl1 :
  get_property_value (EV v) k = Some (PStr s) →
  add_vertex_if_not_exists v k cl = Ok (r, cl1) →
  groovy_safe (v_label v) ∧ groovy_safe k ∧ groovy_safe s
  ∧ ∃ g1, active_graph cl1 = Some g1
          ∧ head (matching_vertices g1 (v_label v) k s) = Some r.
Proof.
  intros Hkey Hrun. pose proof Hrun as Hrun'. unfold add_vertex_if_not_exists in Hrun'.
  apply bind_inv in Hrun' as (resp & cl0 & (g & Hg & Hq & ->)%run_gremlin_query_inv & _).
  rewrite Hkey in Hq. cbn [py_format] in Hq.
  change (mkQuery _ false) with (vertex_query (v_label v) k s) in Hq.
  destruct (vertex_query_inv _ _ _ _ _ Hq) as (Hl & Hk & Hs).
  split_and!; [done..|].
  rewrite (add_vertex_if_not_exists_run v k s cl g) in Hrun by done.
  destruct (matching_vertices g (v_label v) k s) as [|v0 vs] eqn:Hm.
  - rewrite (add_vertex_Ok _ _ g) in Hrun by done. injection Hrun as <- <-.
    eexists. split; [apply active_graph_stored|].
    unfold matching_vertices in *. cbn. rewrite filter_app, Hm, filter_cons.
    by rewrite decide_True.
  - injection Hrun as <- <-. exists g. split; [done|]. by rewrite Hm.
Qed.

(** X4: [find_vertex] returns the first vertex with the label and the
    key, [None] when there is none; right after
    [add_vertex_if_not_exists] it returns the vertex that call
    returned. *)
Theorem find_vertex_round_trip (v : Vertex) (k s : string) (cl : Client) (g : GraphData) :
  active_graph cl = Some g →
  groovy_safe (v_label v) → groovy_safe k → groovy_safe s →
  get_property_value (EV v) k = Some (PStr s) →
  find_vertex (v_label v) k s cl
  = Ok (head (matching_vertices g (v_label v) k s),
        logged (CRunGremlinQuery (vertex_query (v_label v) k s)) cl)
  ∧ ∃ r cl1,
      add_vertex_if_not_exists v k cl = Ok (r, cl1)
      ∧ find_vertex (v_label v) k s cl1
        = Ok (Some r, logged (CRunGremlinQuery (vertex_query (v_label v) k s)) cl1).
Proof.
  intros Hg Hl Hk Hs Hkey. split; [by apply find_vertex_run|].
  assert (∃ r cl1, add_vertex_if_not_exists v k cl = Ok (r, cl1)) as (r & cl1 & Hadd).
  { rewrite (add_vertex_if_not_exists_run v k s cl g) by done.
    destruct (matching_vertices g (v_label v) k s); [|by eexists _, _].
    rewrite (add_vertex_Ok _ _ g) by done. by eexists _, _. }
  exists r, cl1. split; [done|].
  destruct (add_vertex_if_not_exists_head v k s cl r cl1 Hkey Hadd)
    as (_ & _ & _ & g1 & Hg1 & Hhead).
  rewrite (find_vertex_run _ _ _ _ g1) by done. by rewrite Hhead.
Qed.

End lookup_after_add.

(** The example graph has no recipe "w": it is not found, then added as
    vertex 18, then found. *)
Lemma find_vertex_round_trip_witness :
  find_vertex (H := stable_order) "recipe" "name" "w" Demo.client
  = Ok (None, logged (CRunGremlinQuery (vertex_query "recipe" "name" "w")) Demo.client)
  ∧ ∃ cl1,
      add_vertex_if_not_exists (H := stable_order) Demo.waffles "name" Demo.client
      = Ok (mkVertex (Some 18) "recipe" (v_properties Demo.waffles), cl1)
      ∧ find_vertex (H := stable_order) "recipe" "name" "w" cl1
        = Ok (Some (mkVertex (Some 18) "recipe" (v_properties Demo.waffles)),
              logged (CRunGremlinQuery (vertex_query "recipe" "name" "w")) cl1).
Proof.
  destruct (find_vertex_round_trip (H := stable_order) Demo.waffles "name" "w"
              Demo.client Demo.graph) as (Hnone & r & cl1 & Hadd & Hfind); [done..|].
  split; [exact Hnone|].
  assert (r = mkVertex (Some 18) "recipe" (v_properties Demo.waffles)) as ->.
  { assert (Ok (A := Vertex * Client) (r, cl1)
            = Ok (mkVertex (Some 18) "recipe" (v_properties Demo.waffles),
                  stored (CAddVertex Demo.waffles)
                    (mkGraphData (g_schema Demo.graph)
                       (g_vertices Demo.graph
                        ++ [mkVertex (Some 18) "recipe" (v_properties Demo.waffles)])
                       (g_edges Demo.graph) 19)
                    (logged (CRunGremlinQuery (vertex_query "recipe" "name" "w"))
                       Demo.client))) as Heq
      by (rewrite <-Hadd; by vm_compute).
    by injection Heq. }
  by exists cl1.
Defined.

(** ** The graph only grows *)
Section growth.
Import GraphRecipeStore ListFacts.
Context `{!GremlinOrder}.

Lemma grows_refl g : grows g g.
Proof. split_and!; [done..|lia]. Qed.

Lemma grows_trans g1 g2 g3 : grows g1 g2 → grows g2 g3 → grows g1 g3.
Proof.
  intros (? & ? & ?) (? & ? & ?). split_and!; [by etrans..|lia].
Qed.

Lemma vertex_written_grows v r g g' : vertex_written v r g g' → grows g g'.
Proof.
  intros [(-> & _)|(_ & Hv & He & Hn)]; [apply grows_refl|].
  split_and!; rewrite ?Hv, ?He, ?Hn; [by apply prefix_app_r|done|lia].
Qed.

Lemma edge_frame_overwrite e s : edge_frame (overwrite_properties e s) = edge_frame s.
Proof. unfold overwrite_properties. by case_decide. Qed.

Lemma edge_written_grows e g g' : edge_written e g g' → grows g g'.
Proof.
  intros [->|[(a & b & _ & _ & _ & Hv & Hn & He)|(e0 & c & Hv & Hn & He)]];
    [apply grows_refl| |].
  - split_and!; rewrite ?Hv, ?He, ?Hn; [done| |lia].
    rewrite fmap_app. by apply prefix_app_r.
  - split_and!; rewrite ?Hv, ?He, ?Hn; [done| |lia].
    rewrite <-list_fmap_compose.
    erewrite list_fmap_ext; [done|]. intros ? s _. symmetry. apply edge_frame_overwrite.
Qed.

Lemma keeps_ret {A} (a : A) : keeps (mret a).
Proof. intros cl r cl' g Hg [= <- <-]. exists g. split; [done|apply grows_refl]. Qed.

Lemma keeps_bind {A B} (m : M A) (f : A → M B) :
  keeps m → (∀ a, keeps (f a)) → keeps (m ≫= f).
Proof.
  intros Hm Hf cl r cl' g Hg (a & cl1 & Hrun & Hrest)%bind_inv.
  destruct (Hm _ _ _ _ Hg Hrun) as (g1 & Hg1 & Hgr1).
  destruct (Hf a _ _ _ _ Hg1 Hrest) as (g2 & Hg2 & Hgr2).
  exists g2. split; [done|]. by eapply grows_trans.
Qed.

Lemma keeps_add_vertex_if_not_exists v k : keeps (add_vertex_if_not_exists v k).
Proof.
  intros cl r cl' g Hg (g0 & g' & Hg0 & Hg' & Hw)%add_vertex_if_not_exists_inv.
  rewrite Hg in Hg0. injection Hg0 as <-.
  exists g'. split; [done|]. by eapply vertex_written_grows.
Qed.

Lemma keeps_add_update_edge e : keeps (add_update_edge e).
Proof.
  intros cl [] cl' g Hg (g0 & g' & Hg0 & Hg' & Hw)%add_update_edge_inv.
  rewrite Hg in Hg0. injection Hg0 as <-.
  exists g'. split; [done|]. by eapply edge_written_grows.
Qed.

Lemma keeps_add_edge_if_not_exists e : keeps (add_edge_if_not_exists e).
Proof.
  intros cl [] cl' g Hg (g0 & g' & Hg0 & Hg' & Hw)%add_edge_if_not_exists_inv.
  rewrite Hg in Hg0. injection Hg0 as <-.
  exists g'. split; [done|]. by eapply edge_written_grows.
Qed.

Lemma keeps_record_recipe_request_for_user rv ic u :
  keeps (record_recipe_request_for_user rv ic u).
Proof.
  unfold record_recipe_request_for_user.
  apply keeps_bind; [apply keeps_add_update_edge|]. intros _.
  destruct ic as [icv|]; [|apply keeps_ret].
  apply keeps_bind; [apply keeps_add_update_edge|]. intros _.
  apply keeps_add_edge_if_not_exists.
Qed.

Lemma keeps_add_user user_id : keeps (add_user user_id).
Proof. apply keeps_add_vertex_if_not_exists. Qed.

Lemma keeps_add_ingredient s m u : keeps (add_ingredient s m u).
Proof.
  unfold add_ingredient.
  apply keeps_bind; [apply keeps_add_vertex_if_not_exists|]. intros iv.
  apply keeps_bind; [apply keeps_add_update_edge|]. intros _. apply keeps_ret.
Qed.

Lemma keeps_add_cuisine s m u : keeps (add_cuisine s m u).
Proof.
  unfold add_cuisine.
  apply keeps_bind; [apply keeps_add_vertex_if_not_exists|]. intros iv.
  apply keeps_bind; [apply keeps_add_update_edge|]. intros _. apply keeps_ret.
Qed.

Lemma keeps_add_recipe i t d ic u : keeps (add_recipe i t d ic u).
Proof.
  unfold add_recipe.
  apply keeps_bind; [apply keeps_add_vertex_if_not_exists|]. intros rv.
  apply keeps_bind; [apply keeps_record_recipe_request_for_user|]. intros _.
  apply keeps_ret.
Qed.

(** X7: no method of the store that writes ever removes or changes a
    vertex, or removes, relabels or moves an edge, of the selected
    graph: when the method returns, the graph holds what it held (edges
    maybe with new properties), followed by what is new. *)
Theorem adders_keep :
  (∀ user_id, keeps (add_user user_id))
  ∧ (∀ s m u, keeps (add_ingredient s m u))
  ∧ (∀ s m u, keeps (add_cuisine s m u))
  ∧ (∀ i t d ic u, keeps (add_recipe i t d ic u))
  ∧ (∀ rv ic u, keeps (record_recipe_request_for_user rv ic u))
  ∧ (∀ v k, keeps (add_vertex_if_not_exists v k))
  ∧ (∀ e, keeps (add_update_edge e))
  ∧ (∀ e, keeps (add_edge_if_not_exists e)).
Proof.
  split_and!; intros.
  - apply keeps_add_user.
  - apply keeps_add_ingredient.
  - apply keeps_add_cuisine.
  - apply keeps_add_recipe.
  - apply keeps_record_recipe_request_for_user.
  - apply keeps_add_vertex_if_not_exists.
  - apply keeps_add_update_edge.
  - apply keeps_add_edge_if_not_exists.
Qed.

End growth.

(** ann's second pick of the omelette in the session. *)
Lemma adders_keep_witness :
  ∃ g g', active_graph Session.cl5 = Some g ∧ active_graph Session.cl6 = Some g'
          ∧ grows g g'.
Proof.
  destruct (active_graph Session.cl5) as [g|] eqn:Hg; [|by vm_compute in Hg].
  assert (GraphRecipeStore.add_recipe (H := stable_order) (PInt 7) "Omelette" "beat, fry"
            (Some Session.egg) Session.ann Session.cl5
          = Ok (Session.omelette, Session.cl6)) as Hrun by (by vm_compute).
  destruct (proj1 (proj2 (proj2 (proj2 (adders_keep (H := stable_order)))))
              (PInt 7) "Omelette" "beat, fry" (Some Session.egg) Session.ann
              Session.cl5 Session.omelette Session.cl6 g Hg Hrun) as (g' & Hg' & Hgrows).
  exists g, g'. split; [reflexivity|]. split; [exact Hg'|exact Hgrows].
Defined.

Section found_again.
Import GraphRecipeStore ListFacts.
Context `{!GremlinOrder}.

Lemma head_filter_prefix {A} (P : A → Prop) `{!∀ x, Decision (P x)} (l l' : list A) r :
  l `prefix_of` l' → head (filter P l) = Some r → head (filter P l') = Some r.
Proof.
  intros [k ->] Hr. rewrite filter_app. by destruct (filter P l).
Qed.

Lemma grows_head_matching g g' l k s r :
  grows g g' →
  head (matching_vertices g l k s) = Some r → head (matching_vertices g' l k s) = Some r.
Proof. intros (Hv & _). by apply head_filter_prefix. Qed.

(** A vertex added and then, after writes that keep the graph growing,
    looked up by its key. *)
Lemma find_vertex_after (v : Vertex) k s {A} (m : Vertex → M A) cl r cl1 a cl2 :
  get_property_value (EV v) k = Some (PStr s) →
  (∀ x, keeps (m x)) →
  add_vertex_if_not_exists v k cl = Ok (r, cl1) →
  m r cl1 = Ok (a, cl2) →
  find_vertex (v_label v) k s cl2
  = Ok (Some r, logged (CRunGremlinQuery (vertex_query (v_label v) k s)) cl2).
Proof.
  intros Hkey Hm Hadd Hrun.
  destruct (add_vertex_if_not_exists_head v k s cl r cl1 Hkey Hadd)
    as (Hl & Hk & Hs & g1 & Hg1 & Hhead).
  destruct (Hm r _ _ _ _ Hg1 Hrun) as (g2 & Hg2 & Hgrows).
  rewrite (find_vertex_run _ _ _ _ g2) by done.
  by rewrite (grows_head_matching g1 g2 _ _ _ r).
Qed.

Lemma find_ingredient_after_add_ingredient
    (s s' m : string) (u : Vertex) (cl : Client) (iv : Vertex) (cl' : Client) :
  add_ingredient s m u cl = Ok (iv, cl') →
  ingredient_tokens s' ≡ₚ ingredient_tokens s →
  find_ingredient s' cl'
  = Ok (Some iv,
        logged (CRunGremlinQuery
                  (vertex_query "ingredient" "name" (get_unique_ingredients_name s))) cl').
Proof.
  intros Hadd Hperm. unfold find_ingredient.
  assert (get_unique_ingredients_name s' = get_unique_ingredients_name s) as ->.
  { rewrite !get_unique_ingredients_name_tokens. by rewrite (sort_Permutation_eq _ _ Hperm). }
  unfold add_ingredient in Hadd.
  apply bind_inv in Hadd as (r & cl1 & Hvertex & Hrest).
  apply bind_inv in Hrest as ([] & cl2 & Hedge & [= <- <-]).
  refine (find_vertex_after _ "name" _ (λ x, record_ingredient_request_for_user x u)
            _ _ _ _ _ _ _ Hvertex Hedge); [done|].
  intros x. apply keeps_add_update_edge.
Qed.

Lemma find_cuisine_after_add_cuisine
    (s s' m : string) (u : Vertex) (cl : Client) (cv : Vertex) (cl' : Client) :
  add_cuisine s m u cl = Ok (cv, cl') →
  get_unique_cuisine_name s' = get_unique_cuisine_name s →
  find_cuisine s' cl'
  = Ok (Some cv,
        logged (CRunGremlinQuery
                  (vertex_query "cuisine" "name" (get_unique_cuisine_name s))) cl').
Proof.
  intros Hadd Hsame. unfold find_cuisine. rewrite Hsame.
  unfold add_cuisine in Hadd.
  apply bind_inv in Hadd as (r & cl1 & Hvertex & Hrest).
  apply bind_inv in Hrest as ([] & cl2 & Hedge & [= <- <-]).
  refine (find_vertex_after _ "name" _ (λ x, record_cuisine_request_for_user x u)
            _ _ _ _ _ _ _ Hvertex Hedge); [done|].
  intros x. apply keeps_add_update_edge.
Qed.

Lemma find_recipe_after_add_recipe
    (i i' : PropVal) (t d : string) (ic : option Vertex) (u : Vertex)
    (cl : Client) (rv : Vertex) (cl' : Client) :
  add_recipe i t d ic u cl = Ok (rv, cl') →
  get_unique_recipe_name i' = get_unique_recipe_name i →
  find_recipe i' cl'
  = Ok (Some rv,
        logged (CRunGremlinQuery
                  (vertex_query "recipe" "name" (get_unique_recipe_name i))) cl').
Proof.
  intros Hadd Hsame. unfold find_recipe. rewrite Hsame.
  unfold add_recipe in Hadd.
  apply bind_inv in Hadd as (r & cl1 & Hvertex & Hrest).
  apply bind_inv in Hrest as ([] & cl2 & Hedge & [= <- <-]).
  refine (find_vertex_after _ "name" _ (λ x, record_recipe_request_for_user x ic u)
            _ _ _ _ _ _ _ Hvertex Hedge); [done|].
  intros x. apply keeps_record_recipe_request_for_user.
Qed.

(** X5: what an adding method has stored, the matching finder finds
    again, under every spelling that has the same key: the ingredients
    in another order, case or spacing, the cuisine in another case, the
    recipe identifier as a number or as its numeral. *)
Theorem found_after_add :
  (∀ s s' m u cl iv cl',
     add_ingredient s m u cl = Ok (iv, cl') →
     ingredient_tokens s' ≡ₚ ingredient_tokens s →
     find_ingredient s' cl'
     = Ok (Some iv,
           logged (CRunGremlinQuery
                     (vertex_query "ingredient" "name" (get_unique_ingredients_name s))) cl'))
  ∧ (∀ s s' m u cl cv cl',
       add_cuisine s m u cl = Ok (cv, cl') →
       get_unique_cuisine_name s' = get_unique_cuisine_name s →
       find_cuisine s' cl'
       = Ok (Some cv,
             logged (CRunGremlinQuery
                       (vertex_query "cuisine" "name" (get_unique_cuisine_name s))) cl'))
  ∧ (∀ i i' t d ic u cl rv cl',
       add_recipe i t d ic u cl = Ok (rv, cl') →
       get_unique_recipe_name i' = get_unique_recipe_name i →
       find_recipe i' cl'
       = Ok (Some rv,
             logged (CRunGremlinQuery
                       (vertex_query "recipe" "name" (get_unique_recipe_name i))) cl')).
Proof.
  split_and!; intros.
  - by eapply find_ingredient_after_add_ingredient.
  - by eapply find_cuisine_after_add_cuisine.
  - by eapply find_recipe_after_add_recipe.
Qed.

End found_again.

(** In the session ann asked for " Egg" and picked recipe 7: "EGG" finds
    the ingredient and the string " 7" finds the recipe. *)
Lemma found_after_add_witness :
  find_ingredient (H := stable_order) "EGG" Session.cl4
  = Ok (Some Session.egg,
        logged (CRunGremlinQuery (vertex_query "ingredient" "name" "egg")) Session.cl4)
  ∧ find_recipe (H := stable_order) (PStr " 7") Session.cl5
    = Ok (Some Session.omelette,
          logged (CRunGremlinQuery (vertex_query "recipe" "name" "7")) Session.cl5).
Proof.
  destruct (found_after_add (H := stable_order)) as (Hing & _ & Hrec).
  split.
  - apply (Hing " Egg" "EGG" "[]" Session.ann Session.cl3); by vm_compute.
  - apply (Hrec (PInt 7) (PStr " 7") "Omelette" "beat, fry" (Some Session.egg) Session.ann
             Session.cl4); by vm_compute.
Defined.

(** ** The finders only look *)
Section readers.
Import GraphRecipeStore ListFacts.
Context `{!GremlinOrder}.

Lemma favorite_recipes_loop_client l cl r cl' :
  favorite_recipes_loop l cl = Ok (r, cl') → cl' = cl.
Proof.
  revert r cl. induction l as [|x l IH]; intros r cl; [by intros [= _ <-]|].
  cbn [favorite_recipes_loop]. intros (e & cl1 & He & Hrest)%bind_inv.
  apply bind_inv in Hrest as (rs & cl2 & Hloop & [= _ <-]).
  apply IH in Hloop as ->. destruct x; [|done]. by injection He.
Qed.

Lemma path_object_client p i cl x cl' : path_object p i cl = Ok (x, cl') → cl' = cl.
Proof.
  destruct p as [?|objects]; [done|]. cbn. destruct (objects !! i); [|done].
  by intros [= _ <-].
Qed.

Lemma recommend_loop_client count paths rs cl r cl' :
  recommend_loop count rs paths cl = Ok (r, cl') → cl' = cl.
Proof.
  revert rs cl. induction paths as [|p paths IH]; intros rs cl; [by intros [= _ <-]|].
  cbn [recommend_loop]. intros (rs1 & cl1 & Hstep & Hrest)%bind_inv.
  apply IH in Hrest as ->. unfold recommend_step in Hstep.
  apply bind_inv in Hstep as (x & cl2 & Hx%path_object_client & Hrest). subst cl2.
  repeat case_match; by injection Hrest.
Qed.

Lemma only_looks_query {A} q (f : list Response → M A) :
  (∀ resp cl r cl', f resp cl = Ok (r, cl') → cl' = cl) →
  only_looks (run_gremlin_query q ≫= f).
Proof.
  intros Hf cl r cl' (resp & cl1 & (g & _ & _ & ->)%run_gremlin_query_inv & Hrest)%bind_inv.
  apply Hf in Hrest as ->. split_and!; [done..|]. by exists q.
Qed.

Lemma only_looks_find_vertex l k s : only_looks (find_vertex l k s).
Proof.
  apply only_looks_query. intros [|x resp] cl r cl'; [by intros [= _ <-]|].
  intros (v & cl1 & Hv & [= _ <-])%bind_inv.
  destruct x as [[v0|e0]|?]; try done. by injection Hv.
Qed.

Lemma only_looks_get_recommended_recipes q count :
  only_looks (get_recommended_recipes q count).
Proof.
  apply only_looks_query. intros resp cl r cl'. case_bool_decide.
  - apply recommend_loop_client.
  - by intros [= _ <-].
Qed.

Lemma only_looks_find_favorite_recipes_for_user u count :
  only_looks (find_favorite_recipes_for_user u count).
Proof.
  apply only_looks_query. intros resp cl r cl'. case_bool_decide.
  - apply favorite_recipes_loop_client.
  - by intros [= _ <-].
Qed.

(** X6: the finders write nothing: when one returns it has sent a
    single traversal, and every graph and the selection of the graph are
    as before. *)
Theorem finders_only_look :
  (∀ l k s, only_looks (find_vertex l k s))
  ∧ (∀ s, only_looks (find_ingredient s))
  ∧ (∀ s, only_looks (find_cuisine s))
  ∧ (∀ i, only_looks (find_recipe i))
  ∧ (∀ u count, only_looks (find_favorite_recipes_for_user u count))
  ∧ (∀ s u count, only_looks (find_recommended_recipes_for_ingredient s u count))
  ∧ (∀ s u count, only_looks (find_recommended_recipes_for_cuisine s u count)).
Proof.
  split_and!; intros.
  - apply only_looks_find_vertex.
  - unfold find_ingredient. apply only_looks_find_vertex.
  - unfold find_cuisine. apply only_looks_find_vertex.
  - unfold find_recipe. apply only_looks_find_vertex.
  - apply only_looks_find_favorite_recipes_for_user.
  - unfold find_recommended_recipes_for_ingredient. apply only_looks_get_recommended_recipes.
  - unfold find_recommended_recipes_for_cuisine. apply only_looks_get_recommended_recipes.
Qed.

End readers.

(** The recommendations for "egg" in the example graph. *)
Lemma finders_only_look_witness :
  ∃ r cl',
    find_recommended_recipes_for_ingredient (H := stable_order) "Egg" Demo.me 5 Demo.client
    = Ok (r, cl')
    ∧ c_graphs cl' = c_graphs Demo.client.
Proof.
  destruct (find_recommended_recipes_for_ingredient (H := stable_order) "Egg" Demo.me 5
              Demo.client) as [[r cl']|e] eqn:Hrun; [|by vm_compute in Hrun].
  exists r, cl'. split; [done|].
  destruct (finders_only_look (H := stable_order)) as (_ & _ & _ & _ & _ & Hrec & _).
  by destruct (Hrec _ _ _ _ _ _ Hrun).
Defined.

(** ** The edges of a recipe request *)
Section edges_after.
Import GraphRecipeStore ListFacts.
Context `{!GremlinOrder}.

Lemma edges_between_nonempty g a b :
  edges_between g a b ≠ [] ↔ ∃ e, e ∈ g_edges g ∧ e_out_v e = Some a ∧ e_in_v e = Some b.
Proof.
  rewrite edges_between_filter. split.
  - destruct (filter _ _) as [|e es] eqn:Hf; [done|]. intros _.
    assert (e ∈ filter (λ e, e_out_v e = Some a ∧ e_in_v e = Some b) (g_edges g)) as Hin
      by (rewrite Hf; apply list_elem_of_here).
    apply list_elem_of_filter in Hin as [[? ?] ?]. by exists e.
  - intros (e & He & Ha & Hb) Hnil.
    assert (e ∈ filter (λ e, e_out_v e = Some a ∧ e_in_v e = Some b) (g_edges g)) as Hin
      by (by apply list_elem_of_filter).
    rewrite Hnil in Hin. by apply elem_of_nil in Hin.
Qed.

Lemma grows_edges_between g g' a b :
  grows g g' → edges_between g a b ≠ [] → edges_between g' a b ≠ [].
Proof.
  intros (_ & [k Hk] & _). rewrite !edges_between_nonempty.
  intros (e & [i Hi]%list_elem_of_lookup & Ha & Hb).
  assert ((edge_frame <$> g_edges g') !! i = Some (edge_frame e)) as Hi'.
  { rewrite Hk. apply lookup_app_l_Some. by rewrite list_lookup_fmap, Hi. }
  rewrite list_lookup_fmap in Hi'.
  destruct (g_edges g' !! i) as [e'|] eqn:He'; [|done].
  cbn in Hi'. unfold edge_frame in Hi'. injection Hi' as _ _ Ho Hin.
  exists e'. split; [by eapply list_elem_of_lookup_2|]. split; congruence.
Qed.

Lemma add_update_edge_between edge cl cl' :
  add_update_edge edge cl = Ok ((), cl') →
  ∃ a b g g', e_out_v edge = Some a ∧ e_in_v edge = Some b
              ∧ active_graph cl = Some g ∧ active_graph cl' = Some g'
              ∧ grows g g' ∧ edges_between g' a b ≠ [].
Proof.
  intros Hrun. pose proof Hrun as Hrun'. unfold add_update_edge in Hrun'.
  apply bind_inv in Hrun' as (r & cl1 & (g & Hg & Hq & ->)%run_gremlin_query_inv & Hrest).
  change (mkQuery _ true) with (edge_query (e_out_v edge) (e_in_v edge)) in Hq.
  destruct (edge_query_ids _ _ _ _ Hq) as (a & b & Ha & Hb). rewrite Ha, Hb in Hq.
  destruct (keeps_add_update_edge edge _ _ _ _ Hg Hrun) as (g' & Hg' & Hgrows).
  exists a, b, g, g'. split_and!; [done..|].
  destruct r as [|r rest].
  - apply bind_inv in Hrest as (e' & cl2 & Hadd & [= <-]).
    apply add_edge_inv in Hadd as (g1 & g2 & Hg1 & Hg2 & _ & _ & _ & _ & He).
    rewrite Hg' in Hg2. injection Hg2 as <-.
    apply edges_between_nonempty. eexists. split_and!.
    + rewrite He. apply elem_of_app. right. apply list_elem_of_here.
    + done.
    + done.
  - eapply grows_edges_between; [done|].
    apply edge_query_found in Hq as (va & vas & e & es & vb & vbs & _ & He & _). by rewrite He.
Qed.

Lemma add_edge_if_not_exists_between edge cl cl' :
  add_edge_if_not_exists edge cl = Ok ((), cl') →
  ∃ a b g g', e_out_v edge = Some a ∧ e_in_v edge = Some b
              ∧ active_graph cl = Some g ∧ active_graph cl' = Some g'
              ∧ grows g g' ∧ edges_between g' a b ≠ [].
Proof.
  intros Hrun. pose proof Hrun as Hrun'. unfold add_edge_if_not_exists in Hrun'.
  apply bind_inv in Hrun' as (r & cl1 & (g & Hg & Hq & ->)%run_gremlin_query_inv & Hrest).
  change (mkQuery _ true) with (edge_query (e_out_v edge) (e_in_v edge)) in Hq.
  destruct (edge_query_ids _ _ _ _ Hq) as (a & b & Ha & Hb). rewrite Ha, Hb in Hq.
  destruct (keeps_add_edge_if_not_exists edge _ _ _ _ Hg Hrun) as (g' & Hg' & Hgrows).
  exists a, b, g, g'. split_and!; [done..|].
  destruct r as [|r rest].
  - apply bind_inv in Hrest as (e' & cl2 & Hadd & [= <-]).
    apply add_edge_inv in Hadd as (g1 & g2 & Hg1 & Hg2 & _ & _ & _ & _ & He).
    rewrite Hg' in Hg2. injection Hg2 as <-.
    apply edges_between_nonempty. eexists. split_and!.
    + rewrite He. apply elem_of_app. right. apply list_elem_of_here.
    + done.
    + done.
  - eapply grows_edges_between; [done|].
    apply edge_query_found in Hq as (va & vas & e & es & vb & vbs & _ & He & _). by rewrite He.
Qed.

(** X11: when [add_recipe] with an ingredient or cuisine returns, the
    recipe vertex it returns is in the graph and edges run from the user
    to the recipe, from the ingredient to the recipe and from the recipe
    to the ingredient. *)
Theorem add_recipe_edges
    (i : PropVal) (t d : string) (icv u : Vertex) (cl : Client) (rv : Vertex) (cl' : Client) :
  add_recipe i t d (Some icv) u cl = Ok (rv, cl') →
  ∃ g' a r c,
    active_graph cl' = Some g'
    ∧ v_id u = Some a ∧ v_id rv = Some r ∧ v_id icv = Some c
    ∧ rv ∈ g_vertices g'
    ∧ edges_between g' a r ≠ []
    ∧ edges_between g' c r ≠ []
    ∧ edges_between g' r c ≠ [].
Proof.
  intros Hadd. unfold add_recipe in Hadd.
  apply bind_inv in Hadd as (rv' & cl1 & Hvertex & Hrest).
  apply bind_inv in Hrest as ([] & cl2 & Hrec & [= <- <-]).
  destruct (add_vertex_if_not_exists_inv _ _ _ _ _ Hvertex) as (g0 & g1 & _ & Hg1 & Hw).
  assert (rv' ∈ g_vertices g1) as Hrv.
  { destruct Hw as [(-> & ? & _)|(_ & -> & _)]; [done|].
    apply elem_of_app. right. apply list_elem_of_here. }
  unfold record_recipe_request_for_user in Hrec.
  apply bind_inv in Hrec as ([] & cl3 & Hsel & Hrec).
  apply bind_inv in Hrec as ([] & cl4 & Hsel' & Hhas).
  apply add_update_edge_between in Hsel
    as (a & r & g1' & g3 & Ha & Hr & Hg1' & Hg3 & Hgrows3 & He3).
  apply add_update_edge_between in Hsel'
    as (c & r' & g3' & g4 & Hc & Hr' & Hg3' & Hg4 & Hgrows4 & He4).
  apply add_edge_if_not_exists_between in Hhas
    as (r'' & c' & g4' & g5 & Hr'' & Hc' & Hg4' & Hg5 & Hgrows5 & He5).
  cbn in Ha, Hr, Hc, Hr', Hr'', Hc'. simplify_eq.
  exists g5, a, r, c. split_and!; [done..| | | |done].
  - destruct Hgrows3 as ([k3 Hk3] & _), Hgrows4 as ([k4 Hk4] & _), Hgrows5 as ([k5 Hk5] & _).
    rewrite Hk5, Hk4, Hk3, !elem_of_app. auto.
  - eapply grows_edges_between; [done|]. by eapply grows_edges_between.
  - by eapply grows_edges_between.
Qed.

End edges_after.

(** ann's first pick of the omelette in the session. *)
Lemma add_recipe_edges_witness :
  ∃ g' a r c,
    active_graph Session.cl5 = Some g'
    ∧ v_id Session.ann = Some a ∧ v_id Session.omelette = Some r
    ∧ v_id Session.egg = Some c
    ∧ edges_between g' a r ≠ [] ∧ edges_between g' c r ≠ [] ∧ edges_between g' r c ≠ [].
Proof.
  destruct (add_recipe_edges (H := stable_order) (PInt 7) "Omelette" "beat, fry"
              Session.egg Session.ann Session.cl4 Session.omelette Session.cl5)
    as (g' & a & r & c & Hg' & Ha & Hr & Hc & _ & H1 & H2 & H3); [by vm_compute|].
  exists g', a, r, c. repeat (split; [assumption|]). assumption.
Defined.

(** ** Bounds on the recommendations *)
Section reducer_bounds.
Import GraphRecipeStore ListFacts.
Context `{!GremlinOrder}.

Lemma recommend_loop_inv count paths rs cl r cl' :
  recommend_loop count rs paths cl = Ok (r, cl') →
  ∃ vs, Forall2 (λ p v, path_recipe p = Some v) paths vs.
Proof.
  revert rs cl. induction paths as [|p paths IH]; intros rs cl; [by exists []|].
  cbn [recommend_loop]. intros (rs1 & cl1 & Hstep & Hrest)%bind_inv.
  apply IH in Hrest as [vs Hvs]. unfold recommend_step in Hstep.
  apply bind_inv in Hstep as (x & cl2 & Hx & _).
  exists (x :: vs). constructor; [|done].
  destruct p as [?|objects]; [done|]. cbn in *. destruct (objects !! 1%nat); [|done].
  by injection Hx as <- _.
Qed.

(** A run that returns has reduced the recipes of the paths. *)
Lemma get_recommended_recipes_inv q count cl rs cl' :
  get_recommended_recipes q count cl = Ok (rs, cl') →
  ∃ g paths vs,
    active_graph cl = Some g ∧ eval_query g q = Ok paths
    ∧ Forall2 (λ p v, path_recipe p = Some v) paths vs
    ∧ rs = reduce count vs.
Proof.
  intros Hrun. pose proof Hrun as Hrun'. unfold get_recommended_recipes in Hrun'.
  apply bind_inv in Hrun' as (paths & cl1 & (g & Hg & Hq & ->)%run_gremlin_query_inv & Hrest).
  assert (∃ vs, Forall2 (λ p v, path_recipe p = Some v) paths vs) as [vs Hvs].
  { case_bool_decide as Hlen; [by eapply recommend_loop_inv|].
    destruct paths; [by exists []|]. cbn in Hlen. lia. }
  exists g, paths, vs. split_and!; [done..|].
  rewrite (get_recommended_recipes_run q count cl g paths vs) in Hrun by done.
  by injection Hrun.
Qed.

Lemma total_count_app rs1 rs2 : total_count (rs1 ++ rs2) = total_count rs1 + total_count rs2.
Proof.
  unfold total_count. induction rs1 as [|r rs1 IH]; [done|]. cbn in *. lia.
Qed.

Lemma total_count_cons r rs : total_count (r :: rs) = recommendedUserCount r + total_count rs.
Proof. done. Qed.

Lemma total_count_bump i (rs : list Recommendation) :
  NoDup (rc_id <$> rs) → i ∈ rc_id <$> rs →
  total_count (bump i <$> rs) = total_count rs + 1.
Proof.
  induction rs as [|r rs IH]; [by intros _ ?%elem_of_nil|].
  rewrite fmap_cons, NoDup_cons, elem_of_cons. intros [Hr Hnd] Hin.
  rewrite fmap_cons, !total_count_cons.
  unfold bump at 1. case_decide as Hi.
  - subst i. rewrite bump_absent by done. cbn. lia.
  - destruct Hin as [?|Hin]; [done|]. rewrite IH by done. lia.
Qed.

Lemma reduce_step_bounds limit rs v :
  NoDup (rc_id <$> rs) →
  (length rs ≤ Z.to_nat limit)%nat →
  Forall (λ r, 1 ≤ recommendedUserCount r) rs →
  (length (reduce_step limit rs v) ≤ Z.to_nat limit)%nat
  ∧ Forall (λ r, 1 ≤ recommendedUserCount r) (reduce_step limit rs v)
  ∧ total_count (reduce_step limit rs v) ≤ total_count rs + 1.
Proof.
  intros Hnd Hlen Hpos. unfold reduce_step. case_decide as Hin; [|case_decide as Hroom].
  - split_and!.
    + by rewrite length_fmap.
    + apply Forall_fmap. eapply Forall_impl; [done|]. intros r Hr. cbn in *.
      unfold bump. case_decide; cbn; lia.
    + by rewrite total_count_bump.
  - split_and!.
    + rewrite length_app. cbn [length]. lia.
    + apply Forall_app. split; [done|]. by apply Forall_singleton.
    + rewrite total_count_app. unfold total_count at 2. cbn. lia.
  - split_and!; [done..|lia].
Qed.

Lemma fold_reduce_step_bounds limit vs rs :
  NoDup (rc_id <$> rs) →
  (length rs ≤ Z.to_nat limit)%nat →
  Forall (λ r, 1 ≤ recommendedUserCount r) rs →
  (length (fold_left (reduce_step limit) vs rs) ≤ Z.to_nat limit)%nat
  ∧ Forall (λ r, 1 ≤ recommendedUserCount r) (fold_left (reduce_step limit) vs rs)
  ∧ total_count (fold_left (reduce_step limit) vs rs) ≤ total_count rs + Z.of_nat (length vs).
Proof.
  revert rs. induction vs as [|v vs IH]; intros rs Hnd Hlen Hpos.
  - cbn [fold_left length]. split_and!; [done..|lia].
  - cbn [fold_left length].
    destruct (reduce_step_bounds limit rs v Hnd Hlen Hpos) as (Hlen1 & Hpos1 & Hsum1).
    destruct (IH _ (reduce_step_NoDup limit rs v Hnd) Hlen1 Hpos1) as (? & ? & ?).
    split_and!; [done..|lia].
Qed.

(** X8: a result of [get_recommended_recipes] has at most [count]
    entries, none at all for a [count] of 0 or less; every entry counts
    at least one user, and the counts add up to no more than the number
    of paths the traversal returned. *)
Theorem get_recommended_recipes_bounds
    (q : Query) (count : Z) (cl : Client) (rs : list Recommendation) (cl' : Client) :
  get_recommended_recipes q count cl = Ok (rs, cl') →
  (length rs ≤ Z.to_nat count)%nat
  ∧ Forall (λ r, 1 ≤ recommendedUserCount r) rs
  ∧ (∃ g paths, active_graph cl = Some g ∧ eval_query g q = Ok paths
                ∧ total_count rs ≤ Z.of_nat (length paths))
  ∧ (count ≤ 0 → rs = []).
Proof.
  intros (g & paths & vs & Hg & Hq & Hvs & ->)%get_recommended_recipes_inv.
  destruct (fold_reduce_step_bounds count vs []) as (Hlen & Hpos & Hsum);
    [apply NoDup_nil_2|cbn; lia|constructor|].
  split_and!; [done..| |].
  - exists g, paths. split_and!; [done..|].
    rewrite (Forall2_length _ _ _ Hvs). unfold reduce. cbn in Hsum. lia.
  - intros Hc. unfold reduce in *. destruct (fold_left _ _ _); [done|]. cbn in Hlen. lia.
Qed.

End reducer_bounds.

(** Two recommendations for "egg" in the example graph, out of four
    paths. *)
Lemma get_recommended_recipes_bounds_witness :
  ∃ rs cl',
    get_recommended_recipes (H := stable_order)
      (recommended_query "ingredient" "egg" Demo.me) 2 Demo.client = Ok (rs, cl')
    ∧ (length rs ≤ 2)%nat
    ∧ Forall (λ r, 1 ≤ recommendedUserCount r) rs.
Proof.
  destruct (get_recommended_recipes (H := stable_order)
              (recommended_query "ingredient" "egg" Demo.me) 2 Demo.client)
    as [[rs cl']|e] eqn:Hrun; [|by vm_compute in Hrun].
  exists rs, cl'. split; [done|].
  destruct (get_recommended_recipes_bounds (H := stable_order) _ _ _ _ _ Hrun)
    as (Hlen & Hpos & _).
  by split.
Defined.

Section reducer_counts.
Import GraphRecipeStore ListFacts.
Context `{!GremlinOrder}.

Lemma paths_through_snoc i seen v :
  paths_through i (seen ++ [v])
  = (paths_through i seen + if decide (get_property_value v "name" = i) then 1 else 0)%nat.
Proof.
  unfold paths_through. rewrite filter_app, length_app, filter_cons, filter_nil.
  by case_decide.
Qed.

Lemma paths_through_absent i seen : i ∉ recipe_names seen → paths_through i seen = 0%nat.
Proof.
  intros Hi. unfold paths_through. rewrite filter_none; [done|].
  intros v Hv Heq. apply Hi, list_elem_of_fmap. by exists v.
Qed.

Lemma tallies_step limit seen rs v :
  (length rs < Z.to_nat limit)%nat ∨ get_property_value v "name" ∈ rc_id <$> rs →
  tallies seen rs → tallies (seen ++ [v]) (reduce_step limit rs v).
Proof.
  intros Hroom (Hnd & Hids & Hcounts & Hsum). unfold reduce_step.
  case_decide as Hin; [|rewrite decide_True by (destruct Hroom; [lia|done])].
  - split_and!.
    + by rewrite ids_bump.
    + intros i. rewrite ids_bump, Hids. unfold recipe_names. rewrite fmap_app, elem_of_app.
      cbn. rewrite list_elem_of_singleton. split; [by left|]. intros [?| ->]; [done|].
      by apply Hids.
    + apply Forall_fmap. eapply Forall_impl; [done|]. intros r Hr. cbn in *.
      rewrite rc_id_bump, paths_through_snoc. unfold bump.
      case_decide as Hr1; [rewrite decide_True by done|rewrite decide_False by done];
        cbn; lia.
    + rewrite total_count_bump, length_app by done. cbn [length]. lia.
  - split_and!.
    + rewrite fmap_app. apply NoDup_app. split_and!; [done| |apply NoDup_singleton].
      intros i Hi ->%list_elem_of_singleton. done.
    + intros i. unfold recipe_names. rewrite !fmap_app, !elem_of_app. cbn.
      by rewrite Hids.
    + apply Forall_app. split.
      * eapply Forall_forall. intros r Hr.
        rewrite paths_through_snoc, decide_False.
        -- rewrite Nat.add_0_r. by eapply Forall_forall in Hcounts.
        -- intros Heq. apply Hin. rewrite Heq. apply list_elem_of_fmap. by exists r.
      * apply Forall_singleton. cbn. rewrite paths_through_snoc, decide_True by done.
        rewrite paths_through_absent; [done|]. by rewrite <-Hids.
    + rewrite total_count_app, length_app. unfold total_count at 2. cbn. lia.
Qed.

Lemma tallies_length seen rs vs v :
  tallies seen rs → seen ⊆ vs → v ∈ vs →
  get_property_value v "name" ∉ rc_id <$> rs →
  (length rs < length (remove_dups (recipe_names vs)))%nat.
Proof.
  intros (Hnd & Hids & _ & _) Hsub Hv Hnew.
  assert (NoDup (get_property_value v "name" :: (rc_id <$> rs))) as Hnd'
    by (by apply NoDup_cons).
  assert (get_property_value v "name" :: (rc_id <$> rs) ⊆+ remove_dups (recipe_names vs))
    as Hle.
  { apply NoDup_submseteq; [done|]. intros i Hi. apply elem_of_remove_dups.
    apply elem_of_cons in Hi as [->|Hi].
    - apply list_elem_of_fmap. by exists v.
    - apply Hids in Hi. unfold recipe_names in *.
      apply list_elem_of_fmap in Hi as (w & -> & Hw). apply list_elem_of_fmap.
      exists w. split; [done|]. by apply Hsub. }
  apply submseteq_length in Hle. cbn in Hle. rewrite length_fmap in Hle. lia.
Qed.

Lemma fold_reduce_step_tallies limit vs seen rest rs :
  vs = seen ++ rest →
  Z.of_nat (length (remove_dups (recipe_names vs))) ≤ limit →
  tallies seen rs → tallies vs (fold_left (reduce_step limit) rest rs).
Proof.
  revert seen rs. induction rest as [|v rest IH]; intros seen rs Hvs Hlimit Htal.
  - rewrite app_nil_r in Hvs. by subst.
  - cbn [fold_left]. apply (IH (seen ++ [v])); [by rewrite <-app_assoc|done|].
    apply tallies_step; [|done].
    destruct (decide (get_property_value v "name" ∈ rc_id <$> rs)) as [?|Hnew]; [by right|].
    left. enough (length rs < length (remove_dups (recipe_names vs)))%nat by lia.
    eapply (tallies_length seen rs vs v); [done| | |done]; subst vs.
    + intros x Hx. apply elem_of_app. by left.
    + apply elem_of_app. right. apply list_elem_of_here.
Qed.

(** X9: with a [count] of at least the number of different recipes on
    the paths, nothing is left out: every recipe on a path has exactly
    one entry, its user count is the number of paths through it, and the
    counts add up to the number of paths. *)
Theorem get_recommended_recipes_tallies
    (q : Query) (count : Z) (cl : Client) (g : GraphData)
    (paths : list Response) (vs : list Element) :
  active_graph cl = Some g →
  eval_query g q = Ok paths →
  Forall2 (λ p v, path_recipe p = Some v) paths vs →
  Z.of_nat (length (remove_dups (recipe_names vs))) ≤ count →
  ∃ rs,
    get_recommended_recipes q count cl = Ok (rs, logged (CRunGremlinQuery q) cl)
    ∧ NoDup (rc_id <$> rs)
    ∧ (∀ i, i ∈ rc_id <$> rs ↔ i ∈ recipe_names vs)
    ∧ Forall (λ r, recommendedUserCount r = Z.of_nat (paths_through (rc_id r) vs)) rs
    ∧ total_count rs = Z.of_nat (length paths).
Proof.
  intros Hg Hq Hvs Hlimit. exists (reduce count vs).
  split; [by eapply get_recommended_recipes_run|].
  assert (tallies vs (reduce count vs)) as (Hnd & Hids & Hcounts & Hsum).
  { apply (fold_reduce_step_tallies count vs [] vs []); [done..|].
    split_and!; [apply NoDup_nil_2| |constructor|done]. intros i. cbn.
    by rewrite !elem_of_nil. }
  split_and!; [done..|]. by rewrite (Forall2_length _ _ _ Hvs).
Qed.

End reducer_counts.

(** Five recommendations asked for "egg" in the example graph: the four
    paths go through x twice, y once and z once. *)
Lemma get_recommended_recipes_tallies_witness :
  ∃ rs,
    get_recommended_recipes (H := stable_order)
      (recommended_query "ingredient" "egg" Demo.me) 5 Demo.client
    = Ok (rs, logged (CRunGremlinQuery (recommended_query "ingredient" "egg" Demo.me))
                Demo.client)
    ∧ total_count rs = 4
    ∧ Forall (λ r, recommendedUserCount r
                   = Z.of_nat (paths_through (rc_id r)
                                 [EV Demo.X; EV Demo.Y; EV Demo.X; EV Demo.Z'])) rs.
Proof.
  destruct (get_recommended_recipes_tallies (H := stable_order)
              (recommended_query "ingredient" "egg" Demo.me) 5 Demo.client Demo.graph
              (RPath <$> [[EV Demo.egg; EV Demo.X; EE (Demo.selects_edge 12 5 2 5); EV Demo.ann];
                          [EV Demo.egg; EV Demo.Y; EE (Demo.selects_edge 13 6 3 4); EV Demo.bob];
                          [EV Demo.egg; EV Demo.X; EE (Demo.selects_edge 14 7 2 3); EV Demo.cat];
                          [EV Demo.egg; EV Demo.Z'; EE (Demo.selects_edge 15 5 4 2); EV Demo.ann]])
              [EV Demo.X; EV Demo.Y; EV Demo.X; EV Demo.Z'])
    as (rs & Hrun & _ & _ & Hcounts & Hsum).
  - reflexivity.
  - vm_compute. reflexivity.
  - repeat constructor.
  - vm_compute. discriminate.
  - exists rs. split_and!; [exact Hrun|exact Hsum|exact Hcounts].
Defined.

(** ** [init] keeps what is there *)
Section bootstrap_data.
Import GraphRecipeStore.

(** X10: [init] always returns, with the graph selected.  It leaves
    the other graphs alone; of a graph that exists it keeps the vertices
    and the edges, and the graph as a whole when that has a schema with
    a property key, whatever the schema says; otherwise it saves the
    schema of the design. *)
Theorem init_keeps_data (graph_id : string) (cl : Client) :
  ∃ cl',
    init graph_id cl = Ok ((), cl')
    ∧ c_active cl' = graph_id
    ∧ (∀ k, k ≠ graph_id → c_graphs cl' !! k = c_graphs cl !! k)
    ∧ (∀ g, c_graphs cl !! graph_id = Some g →
         ∃ g', c_graphs cl' !! graph_id = Some g'
               ∧ g_vertices g' = g_vertices g ∧ g_edges g' = g_edges g
               ∧ g_next g' = g_next g
               ∧ (has_schema g → g' = g)
               ∧ (¬ has_schema g → g_schema g' = Some recipe_schema)).
Proof.
  destruct (c_graphs cl !! graph_id) as [g|] eqn:Hg.
  - unfold init, get_graphs, create_graph, set_graph, get_schema, save_schema,
      on_active, active_graph.
    unfold mbind, M_bind, mret, M_ret. cbn.
    rewrite bool_decide_eq_true_2 by (apply elem_of_graph_ids; eauto).
    cbn. rewrite Hg. cbn.
    destruct (g_schema g) as [s|] eqn:Hs; [destruct (property_keys s) as [keys|] eqn:Hk|].
    all: try destruct keys as [|k keys]; cbn.
    all: try (case_bool_decide; [try lia|try (cbn in *; lia)]); cbn; rewrite ?lookup_insert_eq.
    all: eexists; (split_and!; [done|done| |]);
      [intros k' Hk'; cbn; by rewrite ?lookup_insert_ne|].
    all: intros ? [= <-]; eexists; cbn; rewrite ?lookup_insert_eq.
    all: split_and!; [done..| |].
    all: try (intros (s' & k' & keys' & Hs' & Hk'); congruence).
    all: try done.
    intros Hno. destruct Hno. by exists s, k, keys.
  - rewrite init_creates by done. eexists. split_and!; [done|done| |done].
    intros k Hk. cbn. by rewrite lookup_insert_ne.
Qed.

End bootstrap_data.

(* ===================================================================== *)
(** * Properties of the orchestrator *)
(* ===================================================================== *)

(** ** Strings *)

Lemma append_nil_r s : s +:+ "" = s.
Proof. induction s as [|c s IH]; [done|]. by rewrite append_cons, IH. Qed.
Lemma append_assoc s t u : (s +:+ t) +:+ u = s +:+ (t +:+ u).
Proof. induction s as [|c s IH]; [done|]. by rewrite !append_cons, IH. Qed.
Lemma string_length_app s t :
  String.length (s +:+ t) = (String.length s + String.length t)%nat.
Proof. induction s as [|c s IH]; [done|]. rewrite append_cons. cbn. by rewrite IH. Qed.

(** ** [split] with a separator of several characters *)
Module PyTextFacts.
Import PyText.

Lemma split_scan_nonempty sep k acc s : split_scan sep k acc s ≠ [].
Proof.
  revert k acc. induction s as [|c s IH]; intros k acc; [done|].
  cbn [split_scan]. destruct k; [|apply IH]. destruct (startswith sep (String c s)); [done|].
  apply IH.
Qed.

Lemma contains_nil sub : contains sub "" = true → sub = "".
Proof. by destruct sub. Qed.

(** Where the separator occurs there are at least two pieces. *)
Lemma split_scan_two sep acc s :
  sep ≠ "" → contains sep s = true →
  ∃ piece0 piece1 more, split_scan sep 0 acc s = piece0 :: piece1 :: more.
Proof.
  intros Hsep. revert acc. induction s as [|c s IH]; intros acc Hc.
  { by apply contains_nil in Hc. }
  cbn [split_scan]. cbn [contains] in Hc.
  destruct (startswith sep (String c s)) eqn:Hp.
  - destruct (split_scan sep (String.length sep - 1) "" s) as [|p more] eqn:Hs.
    { by apply split_scan_nonempty in Hs. }
    by exists acc, p, more.
  - apply IH. by rewrite orb_false_l in Hc.
Qed.

Lemma startswith_app p s : startswith p (p +:+ s) = true.
Proof.
  induction p as [|a p IH]; [done|]. rewrite append_cons. cbn.
  by rewrite bool_decide_eq_true_2, IH.
Qed.

Lemma startswith_inv p s : startswith p s = true → ∃ t, s = p +:+ t.
Proof.
  revert s. induction p as [|a p IH]; intros s; [by exists s|].
  destruct s as [|b s]; [done|]. cbn.
  intros [->%bool_decide_eq_true Hp]%andb_true_iff.
  destruct (IH _ Hp) as [t ->]. by exists t.
Qed.

(** Passing over the rest of a separator. *)
Lemma split_scan_skip sep acc u s :
  split_scan sep (String.length u) acc (u +:+ s) = split_scan sep 0 acc s.
Proof.
  induction u as [|c u IH]; [done|].
  rewrite append_cons. cbn [String.length split_scan]. apply IH.
Qed.

(** The pieces, put together again with the separator between them,
    are the string. *)
Lemma join_split_scan sep n acc s :
  sep ≠ "" → (String.length s ≤ n)%nat →
  join sep (split_scan sep 0 acc s) = acc +:+ s.
Proof.
  intros Hsep. revert acc s. induction n as [|n IH]; intros acc s Hn.
  { destruct s; [|cbn in Hn; lia]. cbn. by rewrite append_nil_r. }
  destruct s as [|c s]; [cbn; by rewrite append_nil_r|].
  cbn [split_scan]. destruct (startswith sep (String c s)) eqn:Hp.
  - destruct (startswith_inv _ _ Hp) as [t Ht].
    destruct sep as [|a sep']; [done|]. rewrite append_cons in Ht. injection Ht as <- ->.
    replace (String.length (String c sep') - 1)%nat with (String.length sep')
      by (cbn; lia).
    assert (String.length t ≤ n)%nat as Ht.
    { cbn [String.length] in Hn. rewrite string_length_app in Hn. lia. }
    rewrite split_scan_skip.
    destruct (split_scan (String c sep') 0 "" t) as [|p more] eqn:Hs.
    { by apply split_scan_nonempty in Hs. }
    change (join ?x (acc :: p :: more)) with (acc +:+ x +:+ join x (p :: more)).
    rewrite <-Hs, IH by done. by rewrite append_nil_l.
  - rewrite IH by (cbn in Hn; lia). by rewrite append_assoc.
Qed.

Lemma join_split sep s pieces : split sep s = Some pieces → join sep pieces = s.
Proof.
  unfold split. destruct sep as [|a sep']; [done|]. intros [= <-].
  by rewrite (join_split_scan _ (String.length s)).
Qed.

Lemma startswith_true_iff p s : startswith p s = true ↔ ∃ t, s = p +:+ t.
Proof. split; [apply startswith_inv|]. intros [t ->]. apply startswith_app. Qed.

(** Without the separator there is one piece. *)
Lemma split_scan_free sep acc s :
  contains sep s = false → split_scan sep 0 acc s = [acc +:+ s].
Proof.
  revert acc. induction s as [|c s IH]; intros acc Hc; [cbn; by rewrite append_nil_r|].
  cbn [contains] in Hc. apply orb_false_iff in Hc as [Hp Hc].
  cbn [split_scan]. rewrite Hp, IH by done. by rewrite append_assoc.
Qed.

(** The first piece ends where the separator occurs first, and the
    other pieces are the pieces of what follows it. *)
Lemma split_scan_first sep acc s :
  sep ≠ "" → contains sep s = true →
  ∃ pre t,
    s = pre +:+ sep +:+ t
    ∧ (∀ pre' t', s = pre' +:+ sep +:+ t' → (String.length pre ≤ String.length pre')%nat)
    ∧ split_scan sep 0 acc s = (acc +:+ pre) :: split_scan sep 0 "" t.
Proof.
  intros Hsep. revert acc. induction s as [|c s IH]; intros acc Hc.
  { by apply contains_nil in Hc. }
  cbn [split_scan]. cbn [contains] in Hc.
  destruct (startswith sep (String c s)) eqn:Hp.
  - destruct (startswith_inv _ _ Hp) as [t Ht]. exists "", t. split_and!.
    + done.
    + intros. cbn. lia.
    + rewrite append_nil_r. f_equal.
      destruct sep as [|a sep']; [done|]. rewrite append_cons in Ht. injection Ht as <- ->.
      replace (String.length (String c sep') - 1)%nat with (String.length sep')
        by (cbn; lia).
      apply split_scan_skip.
  - rewrite orb_false_l in Hc.
    destruct (IH (acc +:+ String c "") Hc) as (pre & t & -> & Hmin & ->).
    exists (String c pre), t. split_and!.
    + done.
    + intros pre' t' Heq. destruct pre' as [|c' pre''].
      * rewrite append_nil_l in Heq. rewrite Heq, startswith_app in Hp. done.
      * rewrite append_cons in Heq. injection Heq as <- Heq.
        cbn [String.length]. specialize (Hmin _ _ Heq). lia.
    + by rewrite append_assoc.
Qed.

End PyTextFacts.

(** ** Reading the events of the chat *)
Section reading.
Import PyText PyTextFacts SousChef SousChefNotions.
Variable bot_id : string.

Lemma at_bot_nonempty : at_bot bot_id ≠ "".
Proof. done. Qed.

Lemma parse_slack_output_skip skipped rest :
  Forall (λ ev, ¬ eligible ev) skipped →
  parse_slack_output bot_id (skipped ++ rest) = parse_slack_output bot_id rest.
Proof.
  induction 1 as [|ev skipped Hev _ IH]; [done|].
  cbn [app parse_slack_output]. destruct (ev_text ev) as [text|] eqn:Ht; [|done].
  destruct (ev_user_profile ev) eqn:Hp; [done|]. destruct Hev. split; [by eexists|done].
Qed.

Lemma parse_slack_output_stop ev rest :
  eligible ev →
  parse_slack_output bot_id (ev :: rest) = parse_slack_output bot_id [ev].
Proof.
  intros [[text Ht] Hp]. cbn [parse_slack_output]. rewrite Ht, Hp.
  repeat case_match; done.
Qed.

(** X13: [parse_slack_output] passes over the events without a text
    or with a user profile, and the first event with a text and
    without a user profile decides alone: the result is the one of this
    event by itself, whatever comes after it in the batch, and it is a
    message or an exception, never "no message".  A batch without such
    an event gives no message. *)
Theorem parse_slack_output_first (skipped : list SlackEvent) :
  Forall (λ ev, ¬ eligible ev) skipped →
  parse_slack_output bot_id skipped = Val None
  ∧ ∀ ev rest, eligible ev →
      parse_slack_output bot_id (skipped ++ ev :: rest) = parse_slack_output bot_id [ev]
      ∧ parse_slack_output bot_id [ev] ≠ Val None.
Proof.
  intros Hskip. split.
  - rewrite <-(app_nil_r skipped). by rewrite parse_slack_output_skip.
  - intros ev rest Hev. split.
    + by rewrite parse_slack_output_skip, parse_slack_output_stop.
    + destruct Hev as [[text Ht] Hp]. cbn [parse_slack_output]. rewrite Ht, Hp.
      repeat case_match; done.
Qed.

(** X12: [parse_slack_output] on an event with a text, a user and a
    channel and without a user profile.  Without a mention of the bot
    the message is the text in lower case.  With a mention, the message
    is what stands between the first mention and the next one (the end of
    the text if there is none), stripped and in lower case; the second
    piece of the split is always there.  A message that comes out of
    any batch is in lower case. *)
Theorem parse_slack_output_message (text user channel : string) (rest : list SlackEvent) :
  (contains (at_bot bot_id) text = false →
     parse_slack_output bot_id (mkSlackEvent (Some text) false (Some user) (Some channel) :: rest)
     = Val (Some (lower text, user, channel)))
  ∧ (contains (at_bot bot_id) text = true →
     ∃ pre t piece more,
       text = pre +:+ at_bot bot_id +:+ t
       ∧ (∀ pre' t', text = pre' +:+ at_bot bot_id +:+ t' →
            (String.length pre ≤ String.length pre')%nat)
       ∧ split (at_bot bot_id) t = Some (piece :: more)
       ∧ join (at_bot bot_id) (piece :: more) = t
       ∧ (contains (at_bot bot_id) t = false → piece = t)
       ∧ parse_slack_output bot_id
           (mkSlackEvent (Some text) false (Some user) (Some channel) :: rest)
         = Val (Some (lower (strip piece), user, channel)))
  ∧ (∀ evs m u c, parse_slack_output bot_id evs = Val (Some (m, u, c)) → lower m = m).
Proof.
  split_and!.
  - intros Hc. cbn. by rewrite Hc.
  - intros Hc.
    destruct (split_scan_first (at_bot bot_id) "" text at_bot_nonempty Hc)
      as (pre & t & Htext & Hmin & Hsplit).
    destruct (split_scan (at_bot bot_id) 0 "" t) as [|piece more] eqn:Ht.
    { by apply split_scan_nonempty in Ht. }
    exists pre, t, piece, more. split_and!; [done..| | | |].
    + unfold split, at_bot. cbn. by rewrite <-Ht.
    + rewrite <-Ht. by rewrite (join_split_scan _ (String.length t)).
    + intros Hfree. rewrite split_scan_free in Ht by done. by injection Ht.
    + cbn [parse_slack_output ev_text ev_user_profile ev_user ev_channel]. rewrite Hc.
      unfold split at 1. change (at_bot bot_id) with (String "<" ("@" +:+ bot_id +:+ ">:")) at 1.
      cbv iota beta.
      change (String "<" ("@" +:+ bot_id +:+ ">:")) with (at_bot bot_id).
      rewrite Hsplit. done.
  - intros evs. induction evs as [|ev evs IH]; intros m u c; [done|].
    cbn [parse_slack_output]. repeat case_match; try done; try apply IH.
    + intros [= <- _ _]. apply lower_idemp.
    + intros [= <- _ _]. apply lower_idemp.
Qed.

End reading.

(** ** The messages *)
Section messages.
Import PyText PyTextFacts SousChef SousChefNotions.

Lemma concat_str_app l1 l2 : concat_str (l1 ++ l2) = concat_str l1 +:+ concat_str l2.
Proof.
  induction l1 as [|x l1 IH]; [done|]. cbn. fold (concat_str (l1 ++ l2)).
  fold (concat_str l1). by rewrite IH, append_assoc.
Qed.

Lemma substring_prefix a b : substring 0 (String.length a) (a +:+ b) = a.
Proof.
  induction a as [|c a IH]; [by destruct b|]. rewrite append_cons. cbn. by rewrite IH.
Qed.

Lemma but_last_two_app a b : String.length b = 2%nat → but_last_two (a +:+ b) = a.
Proof.
  intros Hb. unfold but_last_two. rewrite string_length_app, Hb.
  replace (String.length a + 2 - 2)%nat with (String.length a) by lia.
  apply substring_prefix.
Qed.

Lemma equipment_loop_acc (equipment : list Equipment) acc :
  fold_left (λ equip_str e, equip_str +:+ eq_name e +:+ ", ") equipment acc
  = acc +:+ concat_str ((λ e, eq_name e +:+ ", ") <$> equipment).
Proof.
  revert acc. induction equipment as [|e equipment IH]; intros acc.
  - cbn. by rewrite append_nil_r.
  - cbn [fold_left fmap list_fmap]. rewrite IH. cbn. by rewrite !append_assoc.
Qed.

Lemma concat_names (e : Equipment) equipment :
  concat_str ((λ e, eq_name e +:+ ", ") <$> e :: equipment)
  = PyStr.join ", " (eq_name <$> e :: equipment) +:+ ", ".
Proof.
  revert e. induction equipment as [|e' equipment IH]; intros e.
  - cbn. by rewrite append_nil_r.
  - rewrite fmap_cons. cbn [concat_str foldr]. fold (concat_str ((λ e, eq_name e +:+ ", ") <$> e' :: equipment)).
    rewrite IH. rewrite !fmap_cons.
    change (PyStr.join ", " (eq_name e :: eq_name e' :: ?l))
      with (eq_name e +:+ ", " +:+ PyStr.join ", " (eq_name e' :: l)).
    by rewrite !append_assoc.
Qed.

Lemma equipment_str_text equipment : equipment_str equipment = equipment_text equipment.
Proof.
  unfold equipment_str, equipment_loop. rewrite equipment_loop_acc, append_nil_l.
  destruct equipment as [|e equipment]; [done|].
  rewrite concat_names. rewrite decide_False.
  - by apply but_last_two_app.
  - intros Heq. apply (f_equal String.length) in Heq.
    rewrite string_length_app in Heq. cbn in Heq. lia.
Qed.

Lemma steps_loop_blocks steps i response :
  steps_loop i steps response
  = response +:+ concat_str (imap (λ j, step_block (i + j)) steps).
Proof.
  revert i response. induction steps as [|r_step steps IH]; intros i response.
  - cbn. by rewrite append_nil_r.
  - assert (imap ((λ j, step_block (i + j)) ∘ S) steps
            = imap (λ j, step_block (S i + j)) steps) as Hext.
    { apply imap_ext. intros j x _. cbn. f_equal. lia. }
    cbn [steps_loop imap]. rewrite IH, equipment_str_text, Hext.
    change (concat_str (?a :: ?l)) with (a +:+ concat_str l).
    rewrite Nat.add_0_r. unfold step_block at 2. by rewrite !append_assoc.
Qed.

(** X14: the text of [make_formatted_steps].  The equipment of a step
    is shown as its names joined by ", ", or as "None" when there is
    none.  The message is the header, one block for each step of the
    first group, numbered from 1, and the footer; the other groups are not
    shown.  Without a group, or with a first group without steps, the
    message says that no instructions are available. *)
Theorem make_formatted_steps_text (recipe_info : RecipeInfo) :
  (∀ equipment, equipment_str equipment = equipment_text equipment)
  ∧ (∀ group groups,
       sg_steps group ≠ [] →
       make_formatted_steps recipe_info (group :: groups)
       = steps_header recipe_info +:+ concat_str (imap step_block (sg_steps group))
         +:+ steps_footer)
  ∧ (∀ recipe_steps,
       recipe_steps = [] ∨ (∃ group groups, recipe_steps = group :: groups ∧ sg_steps group = []) →
       make_formatted_steps recipe_info recipe_steps
       = steps_header recipe_info +:+ no_instructions +:+ steps_footer).
Proof.
  split_and!.
  - apply equipment_str_text.
  - intros group groups Hne. unfold make_formatted_steps.
    destruct (sg_steps group) as [|r_step steps] eqn:Hs; [done|].
    rewrite steps_loop_blocks. unfold steps_header. by rewrite !append_assoc.
  - intros recipe_steps [->|(group & groups & -> & Hs)]; unfold make_formatted_steps;
      rewrite ?Hs; unfold steps_header, no_instructions; by rewrite !append_assoc.
Qed.

End messages.

(** ** Handling a message *)
Section handlers.
Import PyText PyTextFacts SousChef SousChefNotions.
Context {Ext V : Type}.
Variable services : Services Ext V.
Variable workspace_id : string.

Lemma sm_bind_Val {A B} (m : SM Ext V A) (f : A → SM Ext V B) b a b' :
  m b = (Val a, b') → (m ≫= f) b = f a b'.
Proof. intros Hm. unfold mbind, SM_bind. by rewrite Hm. Qed.

Lemma sm_bind_Exc {A B} (m : SM Ext V A) (f : A → SM Ext V B) b e b' :
  m b = (Exc e, b') → (m ≫= f) b = (Exc e, b').
Proof. intros Hm. unfold mbind, SM_bind. by rewrite Hm. Qed.

Lemma get_state_Val sender (b : Bot Ext V) st :
  user_state_map b !! sender = Some st → get_state sender b = (Val st, b).
Proof. intros Hst. unfold get_state. by rewrite Hst. Qed.

Lemma get_context_Val sender (b : Bot Ext V) st :
  user_state_map b !! sender = Some st →
  get_context sender b = (Val (conversation_context st), b).
Proof. intros Hst. unfold get_context. by erewrite sm_bind_Val by by apply get_state_Val. Qed.

Lemma set_context_Val sender ctx (b : Bot Ext V) st :
  user_state_map b !! sender = Some st →
  set_context sender ctx b
  = (Val (), mkBot (<[sender := mkUserState (user_id st) ctx (user_vertex st)]>
                      (user_state_map b)) (posted b) (ext b)).
Proof. intros Hst. unfold set_context. by erewrite sm_bind_Val by by apply get_state_Val. Qed.

Lemma recipes_loop_lines l i response :
  recipes_loop i l response
  = response +:+ concat_str (imap (λ j, recipe_line (i + j)) l).
Proof.
  revert i response. induction l as [|recipe l IH]; intros i response.
  - cbn. by rewrite append_nil_r.
  - assert (imap ((λ j, recipe_line (i + j)) ∘ S) l = imap (λ j, recipe_line (S i + j)) l)
      as Hext.
    { apply imap_ext. intros j x _. cbn. f_equal. lia. }
    cbn [recipes_loop imap]. rewrite IH, Hext.
    change (concat_str (?a :: ?l)) with (a +:+ concat_str l).
    rewrite Nat.add_0_r. unfold recipe_line at 2. by rewrite !append_assoc.
Qed.

Lemma recipes_response_lines l :
  recipes_response l = recipes_header +:+ concat_str (imap recipe_line l) +:+ recipes_footer.
Proof.
  unfold recipes_response. rewrite recipes_loop_lines.
  unfold recipes_header, recipes_footer. by rewrite !append_assoc.
Qed.

(** The two handlers that list recipes, for the recipe service either
    of them asks. *)
Lemma list_recipes_run (find : string → Ext → list RecipeSummary * Ext)
    sender message (b : Bot Ext V) st :
  user_state_map b !! sender = Some st →
  (ctx ← get_context sender;
   get ← item "get_recipes" (get_recipes ctx);
   _ ← (if get : bool then
          l ← call (find message);
          set_context sender (with_recipes ctx l)
        else mret ());
   ctx ← get_context sender;
   l ← item "recipes" (recipes ctx);
   mret (recipes_response l)) b
  = match get_recipes (conversation_context st) with
    | None => (Exc (KeyError "get_recipes"), b)
    | Some true =>
        (Val (recipes_response (find message (ext b)).1),
         mkBot (<[sender := mkUserState (user_id st)
                              (with_recipes (conversation_context st) (find message (ext b)).1)
                              (user_vertex st)]> (user_state_map b))
           (posted b) (find message (ext b)).2)
    | Some false =>
        match recipes (conversation_context st) with
        | Some l => (Val (recipes_response l), b)
        | None => (Exc (KeyError "recipes"), b)
        end
    end.
Proof.
  intros Hst.
  unfold get_context, set_context, get_state, set_state, item, call, throw,
    mbind, SM_bind, mret, SM_ret.
  cbn. rewrite Hst. destruct (get_recipes (conversation_context st)) as [[|]|]; [| |done].
  - cbn. rewrite Hst. cbn. by rewrite lookup_insert_eq.
  - rewrite Hst. by destruct (recipes (conversation_context st)).
Qed.


(** After the conversation service has answered, the branches run
    and their response is posted. *)
Lemma handle_message_run (message sender channel : string) (b : Bot Ext V) :
  handle_message services workspace_id message sender channel b
  = (dispatch services message sender (heard services workspace_id message sender b).1
       (wr_context (heard services workspace_id message sender b).1)
     ≫= λ response, post_to_slack response channel)
      (answered services workspace_id message sender b
         (wr_context (heard services workspace_id message sender b).1)).
Proof.
  unfold handle_message, heard, answered.
  set (st0 := state_of services sender b).
  set (first := λ b0 : Bot Ext V, match user_state_map b0 !! sender with
                                  | Some _ => (Val (), b0)
                                  | None => set_state sender (new_UserState services sender) b0
                                  end).
  assert (∃ b0, first b = (Val (), b0)
                ∧ user_state_map b0 !! sender = Some st0
                ∧ posted b0 = posted b ∧ ext b0 = ext b
                ∧ ∀ x, <[sender := x]> (user_state_map b0) = <[sender := x]> (user_state_map b))
    as (b0 & Hfirst & Hst0 & Hposted & Hext & Hmap).
  { unfold first, st0, state_of. destruct (user_state_map b !! sender) as [st|] eqn:Hst.
    - exists b. by rewrite Hst.
    - eexists. split; [done|]. cbn. rewrite lookup_insert_eq. split_and!; [done..|].
      intros x. by rewrite insert_insert_eq. }
  rewrite (sm_bind_Val first _ b () b0) by done.
  rewrite (sm_bind_Val _ _ b0 st0 b0) by by apply get_state_Val.
  erewrite (sm_bind_Val (call _)) by done.
  erewrite (sm_bind_Val (set_context _ _)) by (by apply set_context_Val).
  erewrite (sm_bind_Val (get_context _)) by (apply get_context_Val; apply lookup_insert_eq).
  cbn [conversation_context user_id user_vertex user_state_map posted ext].
  by rewrite Hmap, Hposted, Hext.
Qed.

Lemma answered_state message sender (b : Bot Ext V) ctx :
  user_state_map (answered services workspace_id message sender b ctx) !! sender
  = Some (mkUserState (user_id (state_of services sender b)) ctx
            (user_vertex (state_of services sender b))).
Proof. apply lookup_insert_eq. Qed.


Lemma set_context_answered message sender (b : Bot Ext V) ctx ctx' :
  set_context sender ctx' (answered services workspace_id message sender b ctx)
  = (Val (), answered services workspace_id message sender b ctx').
Proof.
  erewrite set_context_Val by apply answered_state. unfold answered. cbn.
  by rewrite insert_insert_eq.
Qed.

Lemma get_context_answered message sender (b : Bot Ext V) ctx :
  get_context sender (answered services workspace_id message sender b ctx)
  = (Val ctx, answered services workspace_id message sender b ctx).
Proof. by erewrite get_context_Val by apply answered_state. Qed.

(** X18: a message that the conversation service flags as a request of
    the favourites makes [handle_message] raise [AttributeError], since
    the class has no method [handle_favorites_message]: nothing is posted,
    and the context of the answer is already stored for the user. *)
Theorem handle_message_favorites (message sender channel : string) (b : Bot Ext V) :
  flag (is_favorites (wr_context (heard services workspace_id message sender b).1)) = true →
  handle_message services workspace_id message sender channel b
  = (Exc (AttributeError "handle_favorites_message"),
     answered services workspace_id message sender b
       (wr_context (heard services workspace_id message sender b).1)).
Proof.
  intros Hfav. rewrite handle_message_run. unfold dispatch. rewrite Hfav.
  by erewrite sm_bind_Exc.
Qed.

(** The selection branch, once the answer is in. *)
Lemma dispatch_selection message sender w ctx (b : Bot Ext V) :
  flag (is_favorites ctx) = false → flag (is_ingredients ctx) = false →
  flag (is_selection ctx) = true →
  dispatch services message sender w ctx
    (answered services workspace_id message sender b ctx)
  = match selection ctx with
    | None =>
        (Exc (KeyError "selection"),
         answered services workspace_id message sender b (with_selection_valid ctx false))
    | Some sel =>
        if PyText.isdigit sel && bool_decide (1 ≤ PyText.int_of_digits sel)
           && bool_decide (PyText.int_of_digits sel ≤ 5)
        then handle_selection_message services sender (PyText.int_of_digits sel)
               (answered services workspace_id message sender b
                  (with_selection_valid ctx true))
        else (Val invalid_selection,
              answered services workspace_id message sender b
                (with_selection_valid ctx false))
    end.
Proof.
  intros Hfav Hing Hsel. unfold dispatch. rewrite Hfav, Hing, Hsel.
  erewrite sm_bind_Val by apply set_context_answered.
  erewrite sm_bind_Val by apply get_context_answered.
  cbn [selection with_selection_valid]. destruct (selection ctx) as [sel|]; [|done].
  rewrite (sm_bind_Val _ _ _ sel (answered services workspace_id message sender b
                                    (with_selection_valid ctx false))) by done.
  destruct (PyText.isdigit sel); [|done]. cbn [andb].
  destruct (bool_decide (1 ≤ PyText.int_of_digits sel) &&
            bool_decide (PyText.int_of_digits sel ≤ 5)); [|done].
  by erewrite sm_bind_Val by apply set_context_answered.
Qed.

Lemma valid_selection_test sel :
  PyText.isdigit sel && bool_decide (1 ≤ PyText.int_of_digits sel)
  && bool_decide (PyText.int_of_digits sel ≤ 5) = true ↔ valid_selection sel.
Proof.
  unfold valid_selection. rewrite !andb_true_iff, !bool_decide_eq_true. tauto.
Qed.


Lemma index_selection {A} (l : list A) n : 1 ≤ n → PyText.index l (n - 1) = l !! Z.to_nat (n - 1).
Proof. intros Hn. unfold PyText.index. by rewrite decide_True by lia. Qed.

(** X17: in the selection branch of [handle_message], a selection from 1
    to 5 sets [selection_valid] to true and picks the recipe at this
    place, counted from 1, in the recipes of the context.  If there is
    one, the bot asks the recipe service for its information and then for
    its steps and posts their formatted text; if the list is shorter,
    [IndexError] is raised and nothing is posted. *)
Theorem handle_message_selection
    (message sender channel : string) (b : Bot Ext V) (sel : string)
    (l : list RecipeSummary) :
  let ctx := wr_context (heard services workspace_id message sender b).1 in
  let b1 := answered services workspace_id message sender b (with_selection_valid ctx true) in
  flag (is_favorites ctx) = false → flag (is_ingredients ctx) = false →
  flag (is_selection ctx) = true →
  selection ctx = Some sel →
  valid_selection sel →
  recipes ctx = Some l →
  handle_message services workspace_id message sender channel b
  = match l !! Z.to_nat (PyText.int_of_digits sel - 1) with
    | None => (Exc IndexError, b1)
    | Some recipe =>
        let info := get_info_by_id services (rs_id recipe) (ext b1) in
        let steps := get_steps_by_id services (rs_id recipe) info.2 in
        (Val (),
         mkBot (user_state_map b1)
           (posted b ++ [(channel, make_formatted_steps info.1 steps.1)])
           steps.2)
    end.
Proof.
  intros ctx b1 Hfav Hing Hsel Hs Hvalid Hl. rewrite handle_message_run. fold ctx.
  assert (dispatch services message sender (heard services workspace_id message sender b).1 ctx
            (answered services workspace_id message sender b ctx)
          = handle_selection_message services sender (PyText.int_of_digits sel) b1) as Hd.
  { rewrite dispatch_selection by done. rewrite Hs.
    by rewrite (proj2 (valid_selection_test sel) Hvalid). }
  unfold mbind at 1, SM_bind at 1. rewrite Hd.
  unfold handle_selection_message.
  erewrite sm_bind_Val by apply get_context_answered.
  cbn [recipes with_selection_valid]. rewrite Hl.
  rewrite (sm_bind_Val _ _ _ l b1) by done.
  rewrite index_selection by apply Hvalid.
  destruct (l !! Z.to_nat (PyText.int_of_digits sel - 1)) as [recipe|]; [|done].
  rewrite (sm_bind_Val _ _ _ recipe b1) by done.
  done.
Qed.


(** X15: [handle_ingredients_message] and [handle_cuisine_message].
    The response is the header, one line for each recipe, numbered from 1,
    and the footer.  With [get_recipes] true the recipes are asked of the
    recipe service and stored in the context of the user; with
    [get_recipes] false the recipes already in the context are listed and
    nothing changes; without the key [get_recipes], [KeyError] is
    raised. *)
Theorem recipes_listed (sender text : string) (b : Bot Ext V) (st : UserState V) :
  user_state_map b !! sender = Some st →
  (∀ l, recipes_response l
        = recipes_header +:+ concat_str (imap recipe_line l) +:+ recipes_footer)
  ∧ (get_recipes (conversation_context st) = Some true →
     handle_ingredients_message services sender text b
     = (Val (recipes_response (find_by_ingredients services text (ext b)).1),
        mkBot (<[sender := mkUserState (user_id st)
                             (with_recipes (conversation_context st)
                                (find_by_ingredients services text (ext b)).1)
                             (user_vertex st)]> (user_state_map b))
          (posted b) (find_by_ingredients services text (ext b)).2)
     ∧ handle_cuisine_message services sender text b
       = (Val (recipes_response (find_by_cuisine services text (ext b)).1),
          mkBot (<[sender := mkUserState (user_id st)
                               (with_recipes (conversation_context st)
                                  (find_by_cuisine services text (ext b)).1)
                               (user_vertex st)]> (user_state_map b))
            (posted b) (find_by_cuisine services text (ext b)).2))
  ∧ (get_recipes (conversation_context st) = Some false →
     ∀ l, recipes (conversation_context st) = Some l →
       handle_ingredients_message services sender text b = (Val (recipes_response l), b)
       ∧ handle_cuisine_message services sender text b = (Val (recipes_response l), b))
  ∧ (get_recipes (conversation_context st) = None →
     handle_ingredients_message services sender text b = (Exc (KeyError "get_recipes"), b)
     ∧ handle_cuisine_message services sender text b = (Exc (KeyError "get_recipes"), b)).
Proof.
  intros Hst.
  pose proof (list_recipes_run (find_by_ingredients services) sender text b st Hst) as Hi.
  pose proof (list_recipes_run (find_by_cuisine services) sender text b st Hst) as Hc.
  fold (handle_ingredients_message services sender text) in Hi.
  fold (handle_cuisine_message services sender text) in Hc.
  split_and!.
  - apply recipes_response_lines.
  - intros Hget. rewrite Hget in Hi, Hc. by split.
  - intros Hget l Hl. rewrite Hget, Hl in Hi, Hc. by split.
  - intros Hget. rewrite Hget in Hi, Hc. by split.
Qed.

(** X21: how [handle_message] searches.  If the answer of the
    conversation service is not about the favourites and asks for
    recipes, then with the ingredients flag the recipe service is searched
    by ingredients with the whole message, and without the ingredients
    and selection flags but with a first entity [cuisine] it is searched
    by cuisine with the value of this entity.  Either way the recipes
    found are stored in the context of the user and their listing is
    posted to the channel. *)
Theorem handle_message_search (message sender channel : string) (b : Bot Ext V) :
  let w := (heard services workspace_id message sender b).1 in
  let ctx := wr_context w in
  let listing (found : list RecipeSummary * Ext) :=
    (Val (),
     mkBot (<[sender := mkUserState (user_id (state_of services sender b))
                          (with_recipes ctx found.1)
                          (user_vertex (state_of services sender b))]> (user_state_map b))
       (posted b ++ [(channel, recipes_response found.1)])
       found.2) in
  flag (is_favorites ctx) = false →
  get_recipes ctx = Some true →
  (flag (is_ingredients ctx) = true →
     handle_message services workspace_id message sender channel b
     = listing (find_by_ingredients services message
                  (heard services workspace_id message sender b).2))
  ∧ (flag (is_ingredients ctx) = false → flag (is_selection ctx) = false →
     ∀ value others, wr_entities w = ("cuisine", value) :: others →
       handle_message services workspace_id message sender channel b
       = listing (find_by_cuisine services value
                    (heard services workspace_id message sender b).2)).
Proof.
  intros w ctx listing Hfav Hget.
  pose proof (answered_state message sender b ctx) as Hst.
  split.
  - intros Hing. rewrite handle_message_run. fold w ctx.
    erewrite sm_bind_Val; last first.
    { unfold dispatch. rewrite Hfav, Hing. unfold handle_ingredients_message.
      rewrite (list_recipes_run (find_by_ingredients services) sender message _ _ Hst).
      cbn [conversation_context]. rewrite Hget. reflexivity. }
    unfold post_to_slack, listing, answered. cbn. by rewrite insert_insert_eq.
  - intros Hing Hsel value others Hent. rewrite handle_message_run. fold w ctx.
    erewrite sm_bind_Val; last first.
    { unfold dispatch. rewrite Hfav, Hing, Hsel. fold w. rewrite Hent.
      rewrite decide_True by done. unfold handle_cuisine_message.
      rewrite (list_recipes_run (find_by_cuisine services) sender value _ _ Hst).
      cbn [conversation_context]. rewrite Hget. reflexivity. }
    unfold post_to_slack, listing, answered. cbn. by rewrite insert_insert_eq.
Qed.

(** *** The first message of a user *)

Lemma start_text (l : list string) acc :
  fold_left (λ response text, response +:+ text +:+ nl) l acc
  = acc +:+ concat_str ((λ text, text +:+ nl) <$> l).
Proof.
  revert acc. induction l as [|text l IH]; intros acc.
  - cbn. by rewrite append_nil_r.
  - cbn [fold_left fmap list_fmap]. rewrite IH.
    change (concat_str (?a :: ?l)) with (a +:+ concat_str l).
    by rewrite !append_assoc.
Qed.

(** X20: [handle_start_message] answers with the texts of the
    conversation service, each followed by a line feed.  A user without a
    vertex is added to the recipe graph, and the vertex is kept in the
    state of the user; a user with a vertex is not added again, so of two
    start messages in a row only the first one reaches the graph. *)
Theorem handle_start_message_once
    (sender : string) (w : WatsonResponse) (b : Bot Ext V) (st : UserState V) :
  let response w := concat_str ((λ text, text +:+ nl) <$> wr_output_text w) in
  let added := add_user_vertex services (user_id st) (ext b) in
  let b' := mkBot (<[sender := mkUserState (user_id st) (conversation_context st)
                                 (Some added.1)]> (user_state_map b))
              (posted b) added.2 in
  user_state_map b !! sender = Some st →
  (is_Some (user_vertex st) →
     handle_start_message services sender w b = (Val (response w), b))
  ∧ (user_vertex st = None →
     handle_start_message services sender w b = (Val (response w), b')
     ∧ ∀ w', handle_start_message services sender w' b' = (Val (response w'), b')).
Proof.
  intros response added b' Hst. split.
  - intros [v Hv]. unfold handle_start_message.
    erewrite sm_bind_Val by (by apply get_state_Val). rewrite Hv.
    rewrite (sm_bind_Val _ _ _ () b) by done.
    unfold mret, SM_ret. by rewrite start_text, append_nil_l.
  - intros Hv. split.
    + unfold handle_start_message.
      erewrite sm_bind_Val by (by apply get_state_Val). rewrite Hv.
      rewrite (sm_bind_Val _ _ _ () b') by done.
      unfold mret, SM_ret. by rewrite start_text, append_nil_l.
    + intros w'. unfold handle_start_message.
      erewrite sm_bind_Val; last first.
      { apply get_state_Val. unfold b'. cbn. apply lookup_insert_eq. }
      cbn [user_vertex]. rewrite (sm_bind_Val _ _ _ () b') by done.
      unfold mret, SM_ret. by rewrite start_text, append_nil_l.
Qed.

(** *** What a message touches *)

Lemma frame_refl sender (b : Bot Ext V) : frame sender b b.
Proof. by split_and!. Qed.

Lemma frame_trans sender (b1 b2 b3 : Bot Ext V) :
  frame sender b1 b2 → frame sender b2 b3 → frame sender b1 b3.
Proof.
  intros (Hp1 & Ho1 & Hs1) (Hp2 & Ho2 & Hs2). split_and!.
  - congruence.
  - intros other Hother. by rewrite Ho2, Ho1.
  - auto.
Qed.

Lemma local_ret {A} sender (a : A) : local (Ext:=Ext) (V:=V) sender (mret a).
Proof. intros b. apply frame_refl. Qed.

Lemma local_throw {A} sender e : local (Ext:=Ext) (V:=V) sender (throw (A := A) e).
Proof. intros b. apply frame_refl. Qed.

Lemma local_item {A} sender key (x : option A) : local (Ext:=Ext) (V:=V) sender (item key x).
Proof. destruct x; [apply local_ret|apply local_throw]. Qed.

Lemma local_call {A} sender (f : Ext → A * Ext) : local (Ext:=Ext) (V:=V) sender (call f).
Proof. intros b. by split_and!. Qed.

Lemma local_get_state sender : local (Ext:=Ext) (V:=V) sender (get_state sender).
Proof. intros b. unfold get_state. destruct (_ !! _); apply frame_refl. Qed.

Lemma local_set_state sender st : local (Ext:=Ext) (V:=V) sender (set_state sender st).
Proof.
  intros b. unfold frame, set_state. cbn. split_and!; [done| |].
  - intros other Hother. by rewrite lookup_insert_ne.
  - intros _. rewrite lookup_insert_eq. by eexists.
Qed.

Lemma local_bind {A B} sender (m : SM Ext V A) (f : A → SM Ext V B) :
  local (Ext:=Ext) (V:=V) sender m → (∀ a, local (Ext:=Ext) (V:=V) sender (f a)) → local (Ext:=Ext) (V:=V) sender (m ≫= f).
Proof.
  intros Hm Hf b. unfold mbind, SM_bind. specialize (Hm b).
  destruct (m b) as [[a|e] b1]; [|done].
  eapply frame_trans; [exact Hm|apply Hf].
Qed.

Lemma local_get_context sender : local (Ext:=Ext) (V:=V) sender (get_context sender).
Proof. apply local_bind; [apply local_get_state|]. intros st. apply local_ret. Qed.

Lemma local_set_context sender ctx : local (Ext:=Ext) (V:=V) sender (set_context sender ctx).
Proof. apply local_bind; [apply local_get_state|]. intros st. apply local_set_state. Qed.

Lemma local_handle_start_message sender w :
  local (Ext:=Ext) (V:=V) sender (handle_start_message services sender w).
Proof.
  apply local_bind; [apply local_get_state|]. intros st.
  apply local_bind; [|intros; apply local_ret].
  destruct (user_vertex st); [apply local_ret|].
  apply local_bind; [apply local_call|]. intros v. apply local_set_state.
Qed.

Lemma local_list_recipes sender (find : Ext → list RecipeSummary * Ext) :
  local (Ext:=Ext) (V:=V) sender
    (ctx ← get_context sender;
     get ← item "get_recipes" (get_recipes ctx);
     _ ← (if get : bool then
            l ← call find;
            set_context sender (with_recipes ctx l)
          else mret ());
     ctx ← get_context sender;
     l ← item "recipes" (recipes ctx);
     mret (recipes_response l)).
Proof.
  apply local_bind; [apply local_get_context|]. intros ctx.
  apply local_bind; [apply local_item|]. intros get.
  apply local_bind.
  { destruct get; [|apply local_ret].
    apply local_bind; [apply local_call|]. intros l. apply local_set_context. }
  intros _. apply local_bind; [apply local_get_context|]. intros ctx'.
  apply local_bind; [apply local_item|]. intros l. apply local_ret.
Qed.

Lemma local_handle_selection_message sender n :
  local (Ext:=Ext) (V:=V) sender (handle_selection_message services sender n).
Proof.
  apply local_bind; [apply local_get_context|]. intros ctx.
  apply local_bind; [apply local_item|]. intros l.
  apply local_bind; [destruct (PyText.index l (n - 1)); [apply local_ret|apply local_throw]|].
  intros recipe. apply local_bind; [apply local_call|]. intros info.
  apply local_bind; [apply local_call|]. intros steps. apply local_ret.
Qed.

Lemma local_dispatch message sender w ctx :
  local (Ext:=Ext) (V:=V) sender (dispatch services message sender w ctx).
Proof.
  unfold dispatch. destruct (flag (is_favorites ctx)); [apply local_throw|].
  destruct (flag (is_ingredients ctx)); [apply local_list_recipes|].
  destruct (flag (is_selection ctx)).
  - apply local_bind; [apply local_set_context|]. intros _.
    apply local_bind; [apply local_get_context|]. intros ctx'.
    apply local_bind; [apply local_item|]. intros sel.
    destruct (PyText.isdigit sel); [|apply local_ret].
    destruct (_ && _); [|apply local_ret].
    apply local_bind; [apply local_set_context|]. intros _.
    apply local_handle_selection_message.
  - destruct (wr_entities w) as [|[entity value] ?]; [apply local_handle_start_message|].
    case_decide; [apply local_list_recipes|apply local_handle_start_message].
Qed.

(** X19: whatever the services answer, [handle_message] leaves the
    states of the other users as they are and leaves the sender with a
    state; if it returns it has posted exactly one text, to the channel of
    the message, and if it raises it has posted nothing. *)
Theorem handle_message_frame (message sender channel : string) (b : Bot Ext V) :
  let r := handle_message services workspace_id message sender channel b in
  (∀ other, other ≠ sender → user_state_map r.2 !! other = user_state_map b !! other)
  ∧ is_Some (user_state_map r.2 !! sender)
  ∧ match r.1 with
    | Val _ => ∃ response, posted r.2 = posted b ++ [(channel, response)]
    | Exc _ => posted r.2 = posted b
    end.
Proof.
  intros r. subst r. rewrite handle_message_run.
  set (w := (heard services workspace_id message sender b).1).
  set (b1 := answered services workspace_id message sender b (wr_context w)).
  pose proof (local_dispatch message sender w (wr_context w) b1) as (Hp & Ho & Hs).
  assert (is_Some (user_state_map b1 !! sender)) as Hb1.
  { unfold b1. rewrite answered_state. by eexists. }
  assert (∀ other, other ≠ sender →
            user_state_map b1 !! other = user_state_map b !! other) as Hothers.
  { intros other Hother. unfold b1, answered. cbn. by rewrite lookup_insert_ne. }
  assert (posted b1 = posted b) as Hposted by done.
  clearbody b1. unfold mbind, SM_bind.
  destruct (dispatch services message sender w (wr_context w) b1) as [[response|e] b2].
  - cbn in Hp, Ho, Hs. cbn. split_and!.
    + intros other Hother. by rewrite Ho, Hothers.
    + by apply Hs.
    + exists response. by rewrite Hp, Hposted.
  - cbn in Hp, Ho, Hs. cbn. split_and!.
    + intros other Hother. by rewrite Ho, Hothers.
    + by apply Hs.
    + by rewrite Hp.
Qed.

End handlers.

(** ** Examples *)
Section chat_examples.
Import PyText SousChef SousChefNotions.

Lemma parse_slack_output_message_witness :
  parse_slack_output "U1"
    [mkSlackEvent (Some "hey <@U1>:  Chicken Soup <@U1>: now") false (Some "ann") (Some "C9")]
  = Val (Some ("chicken soup", "ann", "C9"))
  ∧ parse_slack_output "U1"
      [mkSlackEvent (Some "Chicken Soup ") false (Some "ann") (Some "C9")]
    = Val (Some ("chicken soup ", "ann", "C9")).
Proof.
  destruct (parse_slack_output_message "U1" "hey <@U1>:  Chicken Soup <@U1>: now"
              "ann" "C9" []) as (_ & Hmention & _).
  destruct (Hmention eq_refl) as (pre & t & piece & more & _ & _ & _ & _ & _ & Hrun).
  assert (Val (Some (lower (strip piece), "ann", "C9"))
          = Val (Some ("chicken soup", "ann", "C9"))) as Heq.
  { rewrite <-Hrun. vm_compute. reflexivity. }
  split.
  - rewrite Hrun. exact Heq.
  - apply (parse_slack_output_message "U1" "Chicken Soup " "ann" "C9" []). reflexivity.
Defined.

Lemma parse_slack_output_first_witness :
  parse_slack_output "U1"
    ([mkSlackEvent None false None None;
      mkSlackEvent (Some "joined") true (Some "bob") (Some "C9")]
     ++ mkSlackEvent (Some "Eggs") false (Some "ann") (Some "C9")
     :: [mkSlackEvent (Some "Milk") false (Some "bob") (Some "C9")])
  = parse_slack_output "U1" [mkSlackEvent (Some "Eggs") false (Some "ann") (Some "C9")].
Proof.
  apply (parse_slack_output_first "U1"
           [mkSlackEvent None false None None;
            mkSlackEvent (Some "joined") true (Some "bob") (Some "C9")]).
  - repeat constructor.
    + intros [[text Ht] _]. discriminate Ht.
    + intros [_ Hp]. discriminate Hp.
  - split; [by eexists|reflexivity].
Defined.

Lemma make_formatted_steps_text_witness :
  equipment_str [mkEquipment "pot"; mkEquipment "spoon"] = "pot, spoon"
  ∧ make_formatted_steps (mkRecipeInfo 30 4 "Stew") [mkStepsGroup []]
    = steps_header (mkRecipeInfo 30 4 "Stew") +:+ no_instructions +:+ steps_footer.
Proof.
  destruct (make_formatted_steps_text (mkRecipeInfo 30 4 "Stew")) as (Hequipment & _ & Hnone).
  split.
  - rewrite Hequipment. reflexivity.
  - apply Hnone. right. exists (mkStepsGroup []), []. split; reflexivity.
Defined.

Lemma recipes_listed_witness :
  handle_ingredients_message DemoChat.services "bob" "eggs" DemoChat.ann_bob
  = (Val (recipes_response [DemoChat.soup; DemoChat.stew]), DemoChat.ann_bob)
  ∧ (handle_cuisine_message DemoChat.services "ann" "thai" DemoChat.ann_bob).1
    = Val (recipes_response [DemoChat.stew]).
Proof.
  split.
  - apply (recipes_listed DemoChat.services "bob" "eggs" DemoChat.ann_bob
             (mkUserState "bob" DemoChat.listed (Some 3))); reflexivity.
  - destruct (recipes_listed DemoChat.services "ann" "thai" DemoChat.ann_bob
                (mkUserState "ann" DemoChat.asking None)) as (_ & Hask & _); [reflexivity|].
    destruct (Hask eq_refl) as [_ Hcuisine]. rewrite Hcuisine. reflexivity.
Defined.


Lemma handle_message_selection_witness :
  posted (handle_message DemoChat.services "ws" "2" "ann" "C9" DemoChat.bot).2
  = [("C9", make_formatted_steps (mkRecipeInfo 30 4 "Stew") DemoChat.stew_steps)]
  ∧ (handle_message DemoChat.services "ws" "3" "ann" "C9" DemoChat.bot).1
    = Exc IndexError.
Proof.
  split.
  - rewrite (handle_message_selection DemoChat.services "ws" "2" "ann" "C9" DemoChat.bot
               "2" [DemoChat.soup; DemoChat.stew]); try reflexivity.
    split; [reflexivity|]. vm_compute. split; discriminate.
  - rewrite (handle_message_selection DemoChat.services "ws" "3" "ann" "C9" DemoChat.bot
               "3" [DemoChat.soup; DemoChat.stew]); try reflexivity.
    split; [reflexivity|]. vm_compute. split; discriminate.
Defined.

Lemma handle_message_favorites_witness :
  (handle_message DemoChat.services "ws" "favorites" "ann" "C9" DemoChat.bot).1
  = Exc (AttributeError "handle_favorites_message")
  ∧ posted (handle_message DemoChat.services "ws" "favorites" "ann" "C9" DemoChat.bot).2 = [].
Proof.
  rewrite (handle_message_favorites DemoChat.services "ws" "favorites" "ann" "C9"
             DemoChat.bot); [|reflexivity].
  split; reflexivity.
Defined.

Lemma handle_start_message_once_witness :
  handle_start_message DemoChat.services "ann"
    (mkWatsonResponse DemoChat.no_context [] ["Hi"; "there"]) DemoChat.ann_bob
  = (Val (concat_str ["Hi" +:+ nl; "there" +:+ nl]),
     mkBot (<["ann" := mkUserState "ann" DemoChat.asking (Some 7)]>
              (user_state_map DemoChat.ann_bob)) [] 1%nat).
Proof.
  apply (handle_start_message_once DemoChat.services "ann"
           (mkWatsonResponse DemoChat.no_context [] ["Hi"; "there"]) DemoChat.ann_bob
           (mkUserState "ann" DemoChat.asking None)); reflexivity.
Defined.

Lemma handle_message_search_witness :
  posted (handle_message DemoChat.cook "ws" "eggs and ham" "ann" "C9" DemoChat.bot).2
  = [("C9", recipes_response [DemoChat.soup; DemoChat.stew])]
  ∧ posted (handle_message DemoChat.cook "ws" "something thai" "ann" "C9" DemoChat.bot).2
    = [("C9", recipes_response [DemoChat.stew])].
Proof.
  destruct (handle_message_search DemoChat.cook "ws" "eggs and ham" "ann" "C9" DemoChat.bot)
    as [Hingredients _]; [reflexivity..|].
  destruct (handle_message_search DemoChat.cook "ws" "something thai" "ann" "C9" DemoChat.bot)
    as [_ Hcuisine]; [reflexivity..|].
  split.
  - rewrite (Hingredients eq_refl). reflexivity.
  - rewrite (Hcuisine eq_refl eq_refl "thai" [("time", "now")] eq_refl). reflexivity.
Defined.

End chat_examples.
